(** * pymdht [core/identifier.py]: the 160-bit identifier of the DHT

    A shallow embedding of [core/identifier.py] (Python 2) and the
    properties of its identifier type: construction, representations,
    XOR distance, log-distance, closeness ordering and generation of an
    identifier at a chosen log-distance.

    Conventions of the embedding:
    - a Python 2 [str] is a byte string: [list ascii];
    - a Python [int]/[long] is unbounded: [Z];
    - a raised exception is a value of [result];
    - the [while] loop of [_first_different_bit] takes fuel, and running
      out of fuel is the distinct outcome [OutOfFuel];
    - the lists that [order_closest] creates and mutates live in a store
      ([gmap] from locations to list objects);
    - the process-wide [random] generator is an explicit stream of draws. *)

From Stdlib Require Import ZArith Ascii List Lia Bool Permutation Sorted.
From stdpp Require Import base gmap list.

Local Open Scope Z_scope.

(** ** Outcomes *)

Inductive exn : Type :=
| IdError
| TypeError
| ValueError
| IndexError
| AssertionError
| OutOfFuel.

Inductive result (A : Type) : Type :=
| Ok (a : A)
| Raise (e : exn).

Arguments Ok {A} a.
Arguments Raise {A} e.

Definition rbind {A B : Type} (m : result A) (k : A -> result B) : result B :=
  match m with
  | Ok a => k a
  | Raise e => Raise e
  end.

Notation "'let*' x ':=' m 'in' k" := (rbind m (fun x => k))
  (at level 10, x name, m at level 100, k at level 200).

(** ** Python 2 byte strings *)

Definition str : Type := list ascii.

Definition ord (c : ascii) : Z := Z.of_N (N_of_ascii c).

(** [chr] raises ValueError outside [range(256)]. *)
Definition chr (z : Z) : result ascii :=
  if (0 <=? z) && (z <? 256) then Ok (ascii_of_N (Z.to_N z)) else Raise ValueError.

(** [chr] on a value known to be a byte. *)
Definition byte_chr (z : Z) : ascii := ascii_of_N (Z.to_N z).

Definition len {A : Type} (l : list A) : Z := Z.of_nat (length l).

(** [s[i]] with Python's negative indices; IndexError out of range. *)
Definition getitem {A : Type} (l : list A) (i : Z) : result A :=
  let j := if i <? 0 then i + len l else i in
  if j <? 0 then Raise IndexError
  else match nth_error l (Z.to_nat j) with
       | Some x => Ok x
       | None => Raise IndexError
       end.

(** [s[:i]]; a negative [i] counts from the end. *)
Definition slice_to {A : Type} (l : list A) (i : Z) : list A :=
  firstn (Z.to_nat (if i <? 0 then Z.max 0 (i + len l) else i)) l.

Definition BITS_PER_BYTE : Z := 8.
Definition ID_SIZE_BYTES : Z := 20.
Definition ID_SIZE_BITS : Z := ID_SIZE_BYTES * BITS_PER_BYTE.

(** ** Base 16 *)

(** [str.upper] in the C locale: only a-z change. *)
Definition upper_char (c : ascii) : ascii :=
  if (97 <=? ord c) && (ord c <=? 122) then byte_chr (ord c - 32) else c.

Definition upper (s : str) : str := map upper_char s.

(** Digit [d] (0..15) as a lowercase hexadecimal character. *)
Definition hexdigit (d : Z) : ascii :=
  if d <? 10 then byte_chr (48 + d) else byte_chr (87 + d).

(** [binascii.hexlify]: two lowercase digits per byte. *)
Definition hexlify (s : str) : str :=
  flat_map (fun c => [hexdigit (ord c / 16); hexdigit (ord c mod 16)]) s.

(** [base64.b16encode(s)] is [binascii.hexlify(s).upper()]. *)
Definition b16encode (s : str) : str := upper (hexlify s).

(** The characters the pattern [[^0-9A-F]] of [b16decode] does NOT match. *)
Definition is_b16 (c : ascii) : bool :=
  ((48 <=? ord c) && (ord c <=? 57)) || ((65 <=? ord c) && (ord c <=? 70)).

(** Value of a hexadecimal digit as [binascii.unhexlify] reads it. *)
Definition hexval (c : ascii) : option Z :=
  let o := ord c in
  if (48 <=? o) && (o <=? 57) then Some (o - 48)
  else if (65 <=? o) && (o <=? 70) then Some (o - 55)
  else if (97 <=? o) && (o <=? 102) then Some (o - 87)
  else None.

(** [binascii.unhexlify]: TypeError on an odd length or a non-digit. *)
Fixpoint unhexlify (s : str) : result str :=
  match s with
  | [] => Ok []
  | [_] => Raise TypeError
  | c1 :: c2 :: rest =>
      match hexval c1, hexval c2 with
      | Some h, Some l =>
          let* r := unhexlify rest in
          Ok (byte_chr (h * 16 + l) :: r)
      | _, _ => Raise TypeError
      end
  end.

(** [base64.b16decode(s, casefold)] of Python 2:
    [if casefold: s = s.upper()]
    [if re.search('[^0-9A-F]', s): raise TypeError]
    [return binascii.unhexlify(s)] *)
Definition b16decode (s : str) (casefold : bool) : result str :=
  let s := if casefold then upper s else s in
  if existsb (fun c => negb (is_b16 c)) s then Raise TypeError
  else unhexlify s.

(** [k] hexadecimal digits of [n], most significant first. *)
Fixpoint hex_digits (k : nat) (n : Z) : str :=
  match k with
  | O => []
  | S k' => hex_digits k' (n / 16) ++ [hexdigit (n mod 16)]
  end.

(** Number of hexadecimal digits of ['%x' % n] for [n >= 0]. *)
Definition hex_width (n : Z) : nat :=
  if n =? 0 then 1%nat else Z.to_nat (Z.log2 n / 4 + 1).

(** ['%040x' % n]: lowercase digits, zero-padded to 40 columns, the sign
    (which takes one column) before the padding. *)
Definition format_040x (n : Z) : str :=
  if n <? 0
  then "-"%char :: hex_digits (Nat.max 39 (hex_width (- n))) (- n)
  else hex_digits (Nat.max 40 (hex_width n)) n.

(** [int(s, 16)] on a string of hexadecimal digits.  Python also accepts
    surrounding blanks, a sign and a [0x] prefix; [Id] only ever passes
    strings that [b16encode] produced or [b16decode] accepted, which have
    none of these, so any other character is ValueError here. *)
Fixpoint int16_from (acc : Z) (s : str) : result Z :=
  match s with
  | [] => Ok acc
  | c :: rest =>
      match hexval c with
      | Some d => int16_from (acc * 16 + d) rest
      | None => Raise ValueError
      end
  end.

Definition int16 (s : str) : result Z :=
  match s with
  | [] => Raise ValueError
  | _ => int16_from 0 s
  end.

(** ** Module-level helpers *)

Definition _bin_to_hex (bin_str : str) : str := b16encode bin_str.

(** [try: return base64.b16decode(hex_str, True)  except: raise IdError] *)
Definition _hex_to_bin (hex_str : str) : result str :=
  match b16decode hex_str true with
  | Ok b => Ok b
  | Raise _ => Raise IdError
  end.

Definition _byte_xor (byte1 byte2 : ascii) : result ascii :=
  chr (Z.lxor (ord byte1) (ord byte2)).

(** [for i in range(len(str1)): if str1[i] != str2[i]: return i]
    [raise IndexError]; [str2[i]] itself raises IndexError when [str2]
    is the shorter one. *)
Fixpoint _first_different_byte_from (i : Z) (str1 str2 : str) : result Z :=
  match str1 with
  | [] => Raise IndexError
  | c1 :: r1 =>
      match str2 with
      | [] => Raise IndexError
      | c2 :: r2 =>
          if Ascii.eqb c1 c2 then _first_different_byte_from (i + 1) r1 r2
          else Ok i
      end
  end.

Definition _first_different_byte (str1 str2 : str) : result Z :=
  _first_different_byte_from 0 str1 str2.

(** The loop [while byte >> (BITS_PER_BYTE - 1) == 0: byte <<= 1; i += 1];
    one unit of fuel per evaluation of the loop condition. *)
Fixpoint bit_scan (fuel : nat) (byte i : Z) : result Z :=
  match fuel with
  | O => Raise OutOfFuel
  | S fuel' =>
      if Z.shiftr byte (BITS_PER_BYTE - 1) =? 0
      then bit_scan fuel' (Z.shiftl byte 1) (i + 1)
      else Ok i
  end.

Definition _first_different_bit (fuel : nat) (byte1 byte2 : ascii) : result Z :=
  if Ascii.eqb byte1 byte2 then Raise AssertionError
  else bit_scan fuel (Z.lxor (ord byte1) (ord byte2)) 0.

(** ** The class [Id] *)

(** Constructor arguments: a [str], an [int]/[long], or anything else. *)
Inductive pyobj : Type :=
| PyStr (s : str)
| PyInt (n : Z)
| PyOther.

(** An [Id] object.  [_bin_id] and [_bin] hold the same string once
    [__init__] returns, so one field stands for both; [_hex] and [_int]
    are the caches, [None] until set. *)
Record Id : Type := mkId {
  _bin : str;
  _hex : option str;
  _int : option Z
}.

(** Python's [not x] on an optional string: [None] and [''] are falsy. *)
Definition not_str (o : option str) : bool :=
  match o with
  | None => true
  | Some [] => true
  | Some _ => false
  end.

(** Python's [not x] on an optional integer: [None] and [0] are falsy. *)
Definition not_int (o : option Z) : bool :=
  match o with
  | None => true
  | Some n => n =? 0
  end.

(** [Id.__init__]: the fields [(_bin_id, _hex, _int)] as the type dispatch
    leaves them, then the final emptiness test. *)
Definition Id_fields (hex_or_bin_id : pyobj)
  : result (option str * option str * option Z) :=
  match hex_or_bin_id with
  | PyStr s =>
      if len s =? ID_SIZE_BYTES then Ok (Some s, None, None)
      else if len s =? ID_SIZE_BYTES * 2 then
        let* b := _hex_to_bin s in
        Ok (Some b, Some s, None)
      else Ok (None, None, None)
  | PyInt n =>
      let h := format_040x n in
      let* b := b16decode h false in
      Ok (Some b, Some h, Some n)
  | PyOther => Ok (None, None, None)
  end.

Definition Id_init (hex_or_bin_id : pyobj) : result Id :=
  let* f := Id_fields hex_or_bin_id in
  let '(bin_id, hex, int) := f in
  if not_str bin_id then Raise IdError
  else match bin_id with
       | Some b => Ok (mkId b hex int)
       | None => Raise IdError
       end.

Definition bin_id (self : Id) : str := _bin self.

(** The property [hex]: the value and the object with its cache filled. *)
Definition Id_hex (self : Id) : str * Id :=
  if not_str (_hex self) then
    let h := _bin_to_hex (_bin self) in
    (h, mkId (_bin self) (Some h) (_int self))
  else match _hex self with
       | Some h => (h, self)
       | None => ([], self)
       end.

(** The property [int]. *)
Definition Id_int (self : Id) : result Z * Id :=
  if not_int (_int self) then
    let '(h, self1) := Id_hex self in
    match int16 h with
    | Ok n => (Ok n, mkId (_bin self1) (_hex self1) (Some n))
    | Raise e => (Raise e, self1)
    end
  else match _int self with
       | Some n => (Ok n, self)
       | None => (Raise TypeError, self)
       end.

(** [__eq__]: [self.bin_id == other.bin_id]. *)
Definition Id_eq (self other : Id) : bool :=
  if List.list_eq_dec ascii_dec (bin_id self) (bin_id other) then true else false.

(** [__ne__]: [not self == other]. *)
Definition Id_ne (self other : Id) : bool := negb (Id_eq self other).

(** [__hash__]: [self.bin_id.__hash__()]; the hash of a string is the
    interpreter's, taken as a parameter. *)
Definition Id_hash (str_hash : str -> Z) (self : Id) : Z :=
  str_hash (bin_id self).

(** The property [bin]. *)
Definition Id_bin (self : Id) : str := _bin self.

(** [__str__]: [self.bin_id]. *)
Definition Id_str (self : Id) : str := bin_id self.

(** [__repr__]: ['%s' % self.hex]; reading [hex] may fill the cache. *)
Definition Id_repr (self : Id) : str * Id := Id_hex self.

(** [self.int ^ other.int], the argument of [Id(...)] in [distance]. *)
Definition xor_int (self other : Id) : result Z :=
  let* a := fst (Id_int self) in
  let* b := fst (Id_int other) in
  Ok (Z.lxor a b).

(** [distance]: [Id(self.int ^ other.int)].  The caches filled in [self]
    and [other] on the way change no later result. *)
Definition distance (self other : Id) : result Id :=
  let* x := xor_int self other in
  Id_init (PyInt x).

(** [log_distance]; the [except IndexError] returns -1. *)
Definition log_distance (fuel : nat) (self other : Id) : result Z :=
  match _first_different_byte (bin_id self) (bin_id other) with
  | Raise IndexError => Ok (-1)
  | Raise e => Raise e
  | Ok byte_i =>
      let unmatching_bytes := ID_SIZE_BYTES - byte_i - 1 in
      let* byte1 := getitem (bin_id self) byte_i in
      let* byte2 := getitem (bin_id other) byte_i in
      let* bit_i := _first_different_bit fuel byte1 byte2 in
      let unmatching_bits := BITS_PER_BYTE - bit_i - 1 in
      Ok (unmatching_bytes * BITS_PER_BYTE + unmatching_bits)
  end.

(** ** State and exceptions

    [random] calls consume the generator and list operations mutate the
    store; an exception leaves the state as it was when raised. *)

Definition M (S A : Type) : Type := S -> result A * S.

Definition ret {S A : Type} (a : A) : M S A := fun s => (Ok a, s).

Definition raise {S A : Type} (e : exn) : M S A := fun s => (Raise e, s).

Definition lift {S A : Type} (r : result A) : M S A := fun s => (r, s).

Definition bind {S A B : Type} (m : M S A) (k : A -> M S B) : M S B :=
  fun s =>
    match m s with
    | (Ok a, s') => k a s'
    | (Raise e, s') => (Raise e, s')
    end.

Notation "'let!' x ':=' m 'in' k" := (bind m (fun x => k))
  (at level 10, x name, m at level 100, k at level 200).

(** [range(n)]. *)
Definition range (n : Z) : list Z := map Z.of_nat (seq 0 (Z.to_nat n)).

(** [for i in l: acc = body(i, acc)]. *)
Fixpoint for_fold {S A : Type} (l : list Z) (body : Z -> A -> M S A) (acc : A)
  : M S A :=
  match l with
  | [] => ret acc
  | i :: rest => let! acc' := body i acc in for_fold rest body acc'
  end.

(** ** The random source *)

(** The generator: a stream of raw draws and the position reached. *)
Record rng : Type := mkRng {
  draws : nat -> Z;
  pos : nat
}.

(** [random.randint(lo, hi)]: the next draw, brought into [lo..hi]. *)
Definition randint (lo hi : Z) : M rng Z :=
  fun g => (Ok (lo + draws g (pos g) mod (hi - lo + 1)),
            mkRng (draws g) (S (pos g))).

(** [''.join([chr(random.randint(0, 255)) for _ in xrange(n)])]. *)
Fixpoint random_str (n : nat) : M rng str :=
  match n with
  | O => ret []
  | S n' =>
      let! r := randint 0 255 in
      let! c := lift (chr r) in
      let! rest := random_str n' in
      ret (c :: rest)
  end.

(** The body of [for i in range(bit_num)]: put bit [i] to 0, then
    replace it by a random bit. *)
Definition randomize_bit (i : Z) (int_byte : Z) : M rng Z :=
  let int_byte := Z.land int_byte (255 - Z.shiftl 1 i) in
  let! r := randint 0 1 in
  ret (int_byte + Z.shiftl r i).

Definition generate_close_id (self : Id) (log_distance : Z) : M rng Id :=
  if negb (log_distance <? ID_SIZE_BITS) then raise AssertionError
  else if log_distance <? 0 then ret self
  else
    let byte_num := log_distance / BITS_PER_BYTE in
    let bit_num := log_distance mod BITS_PER_BYTE in
    let byte_index := len (bin_id self) - byte_num - 1 in
    let! c := lift (getitem (bin_id self) byte_index) in
    let int_byte := ord c in
    let int_byte := Z.lxor int_byte (Z.shiftl 1 bit_num) in
    let! int_byte := for_fold (range bit_num) randomize_bit int_byte in
    let! id_byte := lift (chr int_byte) in
    let! end_bytes :=
      random_str (Z.to_nat (ID_SIZE_BYTES - (byte_index + 1))) in
    let bin_id := slice_to (bin_id self) byte_index ++ [id_byte] ++ end_bytes in
    lift (Id_init (PyStr bin_id)).

(** [RandomId()]. *)
Definition RandomId : M rng Id :=
  let! random_str := random_str (Z.to_nat ID_SIZE_BYTES) in
  lift (Id_init (PyStr random_str)).

(** ** The store of list objects *)

Definition loc : Type := positive.

(** What the lists of [order_closest] hold. *)
Inductive pyval : Type :=
| VId (x : Id)
| VInt (n : Z).

Abbreviation heap := (gmap loc (list pyval)).

Definition as_id (v : pyval) : result Id :=
  match v with
  | VId x => Ok x
  | VInt _ => Raise TypeError
  end.

Definition as_int (v : pyval) : result Z :=
  match v with
  | VInt n => Ok n
  | VId _ => Raise TypeError
  end.

(** A new list object, at a location not in use. *)
Definition new_list (xs : list pyval) : M heap loc :=
  fun h => let l := fresh (dom h) in (Ok l, <[l := xs]> h).

(** The list at a location (a reference always has its object; a
    location without one is a TypeError here). *)
Definition load (l : loc) : M heap (list pyval) :=
  fun h =>
    match h !! l with
    | Some xs => (Ok xs, h)
    | None => (Raise TypeError, h)
    end.

Definition store (l : loc) (xs : list pyval) : M heap unit :=
  fun h => (Ok tt, <[l := xs]> h).

(** [lst[:]]: a new list with the same elements. *)
Definition list_copy (l : loc) : M heap loc :=
  let! xs := load l in new_list xs.

Definition list_len (l : loc) : M heap Z :=
  let! xs := load l in ret (len xs).

(** [lst[i]]; [lst[None]] is a TypeError. *)
Definition list_getitem (l : loc) (i : option Z) : M heap pyval :=
  match i with
  | None => raise TypeError
  | Some i => let! xs := load l in lift (getitem xs i)
  end.

Definition list_append (l : loc) (v : pyval) : M heap unit :=
  let! xs := load l in store l (xs ++ [v]).

(** [del lst[i]]. *)
Definition list_del (l : loc) (i : option Z) : M heap unit :=
  match i with
  | None => raise TypeError
  | Some i =>
      let! xs := load l in
      let j := if i <? 0 then i + len xs else i in
      if (j <? 0) || (len xs <=? j) then raise IndexError
      else store l (firstn (Z.to_nat j) xs ++ skipn (S (Z.to_nat j)) xs)
  end.

(** [for element in lst: body(element)]: the list iterator reads the
    list object again at every step, at the next index. *)
Fixpoint for_in (fuel : nat) (l : loc) (i : nat) (body : pyval -> M heap unit)
  : M heap unit :=
  match fuel with
  | O => raise OutOfFuel
  | S fuel' =>
      let! xs := load l in
      match nth_error xs i with
      | None => ret tt
      | Some x => let! _ := body x in for_in fuel' l (S i) body
      end
  end.

(** The inner loop body of [order_closest]. *)
Definition lower (log_distance_list : loc) (j : Z) (st : option Z * Z)
  : M heap (option Z * Z) :=
  let '(lowest_index, lowest_distance) := st in
  let! v := list_getitem log_distance_list (Some j) in
  let! d := lift (as_int v) in
  if d <? lowest_distance then ret (Some j, d)
  else ret (lowest_index, lowest_distance).

(** One round of the outer loop: select the lowest, move it to [result]. *)
Definition select_round (id_list_copy log_distance_list result : loc)
    (max_distance : Z) (_i : Z) (_u : unit) : M heap unit :=
  let lowest_index : option Z := None in
  let lowest_distance := max_distance in
  let! m := list_len id_list_copy in
  let! st := for_fold (range m) (lower log_distance_list)
               (lowest_index, lowest_distance) in
  let lowest_index := fst st in
  let! x := list_getitem id_list_copy lowest_index in
  let! _ := list_append result x in
  let! _ := list_del log_distance_list lowest_index in
  list_del id_list_copy lowest_index.

(** [order_closest]: [id_list] is the location of the caller's list; the
    value returned is the location of the new list [result]. *)
Definition order_closest (fuel : nat) (self : Id) (id_list : loc) : M heap loc :=
  let! id_list_copy := list_copy id_list in
  let max_distance := ID_SIZE_BITS + 1 in
  let! log_distance_list := new_list [] in
  let! _ := for_in fuel id_list 0 (fun element =>
              let! e := lift (as_id element) in
              let! d := lift (log_distance fuel self e) in
              list_append log_distance_list (VInt d)) in
  let! result := new_list [] in
  let! n := list_len id_list in
  let! _ := for_fold (range n)
              (select_round id_list_copy log_distance_list result max_distance)
              tt in
  ret result.

(** ** Vocabulary of the properties *)

(** *** Values and validity *)

(** The integer a byte string denotes, most significant byte first. *)
Fixpoint be_value (s : str) : Z :=
  match s with
  | [] => 0
  | c :: r => ord c * 256 ^ len r + be_value r
  end.

(** The caches, when set, agree with the canonical bytes. *)
Definition cache_ok (a : Id) : Prop :=
  (forall h, _hex a = Some h -> b16decode h true = Ok (_bin a)) /\
  (forall n, _int a = Some n -> n = be_value (_bin a)).

(** A valid identifier: 20 canonical bytes and coherent caches. *)
Definition valid (a : Id) : Prop :=
  len (_bin a) = ID_SIZE_BYTES /\ cache_ok a.

(** The hexadecimal form kept from construction, if any, has no
    lowercase letter. *)
Definition no_lowercase (a : Id) : Prop :=
  forall h, _hex a = Some h -> upper h = h.

(** The generator after [k] more draws. *)
Definition advance (k : nat) (g : rng) : rng := mkRng (draws g) (pos g + k).

(** The new value of the byte when bit [i] is replaced by [r]: the two
    assignments in the body of [randomize_bit]. *)
Definition with_bit (i v r : Z) : Z :=
  Z.land v (255 - Z.shiftl 1 i) + Z.shiftl r i.

(** *** Order of the results *)

(** The log-distance as a number, for the proofs below ([log_distance]
    always returns when it has fuel for 8 tests). *)
Definition dist (fuel : nat) (self x : Id) : Z :=
  match log_distance fuel self x with
  | Ok n => n
  | Raise _ => -1
  end.

(** The inner loop of [order_closest] on the list of distances. *)
Fixpoint lowest_from (j : Z) (ds : list Z) (st : option Z * Z) : option Z * Z :=
  match ds with
  | [] => st
  | d :: r =>
      lowest_from (j + 1) r (if d <? snd st then (Some j, d) else st)
  end.

(** [out] is [xs] sorted by the key [k], equal keys in their order in
    [xs]. *)
Definition stable_sorted (k : Id -> Z) (xs out : list Id) : Prop :=
  Permutation xs out /\
  StronglySorted (fun a b => k a <= k b) out /\
  forall d, List.filter (fun y => k y =? d) out = List.filter (fun y => k y =? d) xs.

(** [x] is at log-distance [d] of [r]. *)
Definition at_distance (fuel : nat) (r : Id) (d : Z) (x : Id) : bool :=
  match log_distance fuel r x with
  | Ok n => n =? d
  | Raise _ => false
  end.

(** [a] is at most as far from [r] as [b], in log-distance. *)
Definition closer_or_equal (fuel : nat) (r a b : Id) : Prop :=
  exists da db,
    log_distance fuel r a = Ok da /\ log_distance fuel r b = Ok db /\ da <= db.

(** The position of the most significant bit of [x], -1 for 0. *)
Definition msb (x : Z) : Z := if x =? 0 then -1 else Z.log2 x.

(** *** Facts checked on every byte or character *)

(** All the byte values a XOR of two different bytes can take. *)
Definition nonzero_bytes : list Z := map Z.of_nat (seq 1 255).

(** With fuel 8 the scan of [x] stops at the most significant bit. *)
Definition bit_scan_finds_msb (x : Z) : bool :=
  match bit_scan 8 x 0 with
  | Ok i => i =? 7 - Z.log2 x
  | Raise _ => false
  end.

(** A character that passes [b16decode]'s test after [upper] is a
    hexadecimal digit, with the value [int(_, 16)] gives it. *)
Definition folded_digit_ok (c : ascii) : bool :=
  if is_b16 (upper_char c) then
    match hexval c, hexval (upper_char c) with
    | Some d, Some d' => (d =? d') && (0 <=? d) && (d <? 16)
    | _, _ => false
    end
  else true.

(** A character that is no hexadecimal digit fails [b16decode]'s test,
    also after [upper]. *)
Definition not_hex_is_refused (c : ascii) : bool :=
  match hexval c with
  | Some _ => true
  | None => negb (is_b16 (upper_char c))
  end.

(** [upper] is idempotent, and a digit that passes the test is the
    uppercase digit of its value. *)
Definition folded_digit_canonical (c : ascii) : bool :=
  Ascii.eqb (upper_char (upper_char c)) (upper_char c) &&
  (if is_b16 (upper_char c) then
     match hexval (upper_char c) with
     | Some d => Ascii.eqb (upper_char (hexdigit d)) (upper_char c)
     | None => false
     end
   else true).

(** A character that passes the test unfolded is left alone by [upper]. *)
Definition plain_digit_ok (c : ascii) : bool :=
  if is_b16 c then Ascii.eqb (upper_char c) c else true.

(** [with_bit] keeps the value a byte and changes bit [i] only. *)
Definition with_bit_ok (v i r : Z) : bool :=
  let v' := with_bit i v r in
  (0 <=? v') && (v' <? 256) &&
  forallb (fun j => Bool.eqb (Z.testbit v' j)
                      (if j =? i then r =? 1 else Z.testbit v j))
          (range 8).

(** A hexadecimal digit, of either case. *)
Definition is_hexdigit (c : ascii) : bool :=
  match hexval c with
  | Some _ => true
  | None => false
  end.

(** The characters [b16decode] accepts after [upper] are the
    hexadecimal digits, and [unhexlify] reads those it accepts. *)
Definition folded_digit_iff (c : ascii) : bool :=
  Bool.eqb (is_b16 (upper_char c)) (is_hexdigit c) &&
  (if is_b16 c then is_hexdigit c else true).

(** Each of the [k] low hexadecimal digits of [n] is at most 9. *)
Fixpoint all_decimal (k : nat) (n : Z) : bool :=
  match k with
  | O => true
  | S k' => (n mod 16 <? 10) && all_decimal k' (n / 16)
  end.

(** The digit [d] is written with a character [b16decode] accepts
    unfolded exactly when it is at most 9, and its uppercase form is
    always accepted. *)
Definition hexdigit_plain_ok (d : Z) : bool :=
  Bool.eqb (is_b16 (hexdigit d)) (d <? 10) && is_b16 (upper_char (hexdigit d)).

(** *** Inputs of the examples *)

(** Identifiers whose first 19 bytes are zero. *)
Definition id_low (last : Z) : Id :=
  mkId (repeat zero 19 ++ [byte_chr last]) None None.

(** The identifier that [Id] builds from forty lowercase [f]. *)
Definition id_ff : Id :=
  mkId (repeat (byte_chr 255) 20) (Some (repeat "f"%char 40)) None.

(** The identifier built from twenty bytes 255. *)
Definition id_255 : Id := mkId (repeat (byte_chr 255) 20) None None.

(** A random source. *)
Definition rng0 : rng := mkRng (fun n => Z.of_nat n * 77 + 1) 0.

(** A store with one list, at location 5. *)
Definition ids0 : list Id :=
  [id_low 4; id_low 1; id_low 9; id_low 0; id_low 5; id_low 8].

Definition heap0 : heap := {[ 5%positive := map VId ids0 ]}.

(** * Properties *)

(** ** Bytes *)

Lemma ord_range (c : ascii) : 0 <= ord c < 256.
Proof.
  unfold ord. pose proof (N_ascii_bounded c). lia.
Qed.

Lemma byte_chr_ord (c : ascii) : byte_chr (ord c) = c.
Proof.
  unfold byte_chr, ord. rewrite N2Z.id. apply ascii_N_embedding.
Qed.

Lemma ord_byte_chr (z : Z) : 0 <= z < 256 -> ord (byte_chr z) = z.
Proof.
  intros Hz. unfold byte_chr, ord.
  rewrite N_ascii_embedding by lia. lia.
Qed.

Lemma ord_inj (c1 c2 : ascii) : ord c1 = ord c2 -> c1 = c2.
Proof.
  intros H. rewrite <- (byte_chr_ord c1), <- (byte_chr_ord c2). now rewrite H.
Qed.

Lemma chr_byte (z : Z) : 0 <= z < 256 -> chr z = Ok (byte_chr z).
Proof.
  intros Hz. unfold chr, byte_chr.
  destruct (0 <=? z) eqn:E1; destruct (z <? 256) eqn:E2; simpl; try reflexivity; lia.
Qed.

Lemma len_app {A : Type} (l1 l2 : list A) : len (l1 ++ l2) = len l1 + len l2.
Proof. unfold len. rewrite length_app. lia. Qed.

Lemma len_cons {A : Type} (x : A) (l : list A) : len (x :: l) = 1 + len l.
Proof. unfold len. simpl length. lia. Qed.

Lemma len_nonneg {A : Type} (l : list A) : 0 <= len l.
Proof. unfold len. lia. Qed.

Lemma getitem_middle {A : Type} (p : list A) (x : A) (t : list A) :
  getitem (p ++ x :: t) (len p) = Ok x.
Proof.
  unfold getitem. pose proof (len_nonneg p).
  destruct (len p <? 0) eqn:E; [lia|]. rewrite E.
  unfold len. rewrite Nat2Z.id.
  rewrite nth_error_app2 by lia. now rewrite Nat.sub_diag.
Qed.

(** ** The bit scan *)

Lemma nonzero_bytes_spec (x : Z) : 1 <= x < 256 -> In x nonzero_bytes.
Proof.
  intros Hx. unfold nonzero_bytes. apply in_map_iff.
  exists (Z.to_nat x). split; [lia|]. apply in_seq. lia.
Qed.

Lemma bit_scan_table : forallb bit_scan_finds_msb nonzero_bytes = true.
Proof. vm_compute. reflexivity. Qed.

Lemma bit_scan_byte (x : Z) :
  1 <= x < 256 -> bit_scan 8 x 0 = Ok (7 - Z.log2 x).
Proof.
  intros Hx. pose proof bit_scan_table as T.
  rewrite forallb_forall in T. specialize (T x (nonzero_bytes_spec x Hx)).
  unfold bit_scan_finds_msb in T.
  destruct (bit_scan 8 x 0) as [i|e]; [|discriminate].
  apply Z.eqb_eq in T. now subst.
Qed.

Lemma bit_scan_more_fuel (f : nat) : forall (k : nat) (x i r : Z),
  bit_scan f x i = Ok r -> bit_scan (f + k) x i = Ok r.
Proof.
  induction f as [|f IH]; intros k x i r H; simpl in *; [discriminate|].
  destruct (Z.shiftr x (BITS_PER_BYTE - 1) =? 0); [now apply IH|assumption].
Qed.

Lemma bit_scan_enough (fuel : nat) (x : Z) :
  (8 <= fuel)%nat -> 1 <= x < 256 -> bit_scan fuel x 0 = Ok (7 - Z.log2 x).
Proof.
  intros Hf Hx. replace fuel with (8 + (fuel - 8))%nat by lia.
  apply bit_scan_more_fuel. now apply bit_scan_byte.
Qed.

Lemma byte_log2 (x : Z) : 0 <= x < 256 -> Z.log2 x < 8.
Proof.
  intros Hx. destruct (Z.eq_dec x 0) as [->|Hn]; [reflexivity|].
  apply Z.log2_lt_pow2; [lia|]. change (2 ^ 8) with 256. lia.
Qed.

Lemma lxor_ord_range (c1 c2 : ascii) : 0 <= Z.lxor (ord c1) (ord c2) < 256.
Proof.
  pose proof (ord_range c1) as H1. pose proof (ord_range c2) as H2.
  assert (H0 : 0 <= Z.lxor (ord c1) (ord c2)) by (apply Z.lxor_nonneg; lia).
  split; [assumption|].
  destruct (Z.eq_dec (Z.lxor (ord c1) (ord c2)) 0) as [->|Hn]; [lia|].
  change 256 with (2 ^ 8).
  apply Z.log2_lt_pow2; [lia|].
  eapply Z.le_lt_trans; [apply Z.log2_lxor; lia|].
  apply Z.max_lub_lt; now apply byte_log2.
Qed.

Lemma lxor_ord_nonzero (c1 c2 : ascii) :
  c1 <> c2 -> 1 <= Z.lxor (ord c1) (ord c2) < 256.
Proof.
  intros Hne. pose proof (lxor_ord_range c1 c2).
  assert (Z.lxor (ord c1) (ord c2) <> 0); [|lia].
  intros H0. apply Z.lxor_eq in H0. now apply ord_inj in H0.
Qed.

Lemma first_different_bit_spec (fuel : nat) (c1 c2 : ascii) :
  (8 <= fuel)%nat -> c1 <> c2 ->
  _first_different_bit fuel c1 c2 = Ok (7 - Z.log2 (Z.lxor (ord c1) (ord c2))).
Proof.
  intros Hf Hne. unfold _first_different_bit.
  destruct (Ascii.eqb_spec c1 c2) as [->|_]; [congruence|].
  apply bit_scan_enough; [assumption|now apply lxor_ord_nonzero].
Qed.

(** ** The first different byte *)

Lemma first_different_byte_from_spec (s1 : str) : forall (s2 : str) (i : Z),
  length s1 = length s2 ->
  (s1 = s2 /\ _first_different_byte_from i s1 s2 = Raise IndexError) \/
  (exists p c1 c2 t1 t2,
      s1 = p ++ c1 :: t1 /\ s2 = p ++ c2 :: t2 /\ c1 <> c2 /\
      length t1 = length t2 /\
      _first_different_byte_from i s1 s2 = Ok (i + len p)).
Proof.
  induction s1 as [|c1 r1 IH]; intros [|c2 r2] i Hlen; simpl in Hlen; try discriminate.
  - left. split; reflexivity.
  - simpl. destruct (Ascii.eqb_spec c1 c2) as [->|Hne].
    + destruct (IH r2 (i + 1)) as [[-> Hr]|(p & d1 & d2 & t1 & t2 & -> & -> & Hd & Ht & Hr)];
        [lia| |].
      * left. split; [reflexivity|assumption].
      * right. exists (c2 :: p), d1, d2, t1, t2.
        repeat split; try assumption.
        rewrite Hr. f_equal. rewrite len_cons. lia.
    + right. exists [], c1, c2, r1, r2. repeat split; try assumption; try lia.
      f_equal. unfold len. simpl. lia.
Qed.

(** ** Big-endian value of a byte string *)

Lemma pow256_pos (n : Z) : 0 <= n -> 0 < 256 ^ n.
Proof. intros. apply Z.pow_pos_nonneg; lia. Qed.

Lemma pow256_succ (n : Z) : 0 <= n -> 256 ^ (1 + n) = 256 * 256 ^ n.
Proof. intros. rewrite Z.pow_add_r by lia. reflexivity. Qed.

Lemma pow256_pow2 (n : Z) : 0 <= n -> 256 ^ n = 2 ^ (8 * n).
Proof. intros. rewrite Z.pow_mul_r by lia. reflexivity. Qed.

Lemma be_value_range (s : str) : 0 <= be_value s < 256 ^ len s.
Proof.
  induction s as [|c r IH]; simpl be_value.
  - unfold len. simpl. lia.
  - pose proof (ord_range c). pose proof (len_nonneg r).
    pose proof (pow256_pos (len r)).
    rewrite len_cons, pow256_succ by lia. nia.
Qed.

Lemma testbit_split (k a r n : Z) :
  0 <= k -> 0 <= r < 2 ^ k -> 0 <= n ->
  Z.testbit (a * 2 ^ k + r) n = if n <? k then Z.testbit r n else Z.testbit a (n - k).
Proof.
  intros Hk Hr Hn. destruct (n <? k) eqn:E.
  - apply Z.ltb_lt in E.
    rewrite <- (Z.mod_pow2_bits_low (a * 2 ^ k + r) k n) by lia.
    rewrite Z.add_comm, Z.mod_add by lia. now rewrite Z.mod_small.
  - apply Z.ltb_ge in E.
    replace n with ((n - k) + k) at 1 by lia.
    rewrite <- Z.div_pow2_bits by lia.
    rewrite Z.div_add_l by lia. rewrite Z.div_small by lia.
    now rewrite Z.add_0_r.
Qed.

Lemma lxor_lt_pow2 (k r s : Z) :
  0 <= k -> 0 <= r < 2 ^ k -> 0 <= s < 2 ^ k -> 0 <= Z.lxor r s < 2 ^ k.
Proof.
  intros Hk Hr Hs.
  assert (H0 : 0 <= Z.lxor r s) by (apply Z.lxor_nonneg; lia).
  split; [assumption|].
  destruct (Z.eq_dec (Z.lxor r s) 0) as [->|Hn]; [lia|].
  assert (Hk0 : 0 < k).
  { destruct (Z.eq_dec k 0) as [->|?]; [|lia].
    change (2 ^ 0) with 1 in *. assert (r = 0) as -> by lia.
    assert (s = 0) as -> by lia. now rewrite Z.lxor_0_l in Hn. }
  apply Z.log2_lt_pow2; [lia|].
  eapply Z.le_lt_trans; [apply Z.log2_lxor; lia|].
  apply Z.max_lub_lt.
  - destruct (Z.eq_dec r 0) as [->|?]; [simpl; lia|]. apply Z.log2_lt_pow2; lia.
  - destruct (Z.eq_dec s 0) as [->|?]; [simpl; lia|]. apply Z.log2_lt_pow2; lia.
Qed.

Lemma lxor_split (k a b r s : Z) :
  0 <= k -> 0 <= r < 2 ^ k -> 0 <= s < 2 ^ k ->
  Z.lxor (a * 2 ^ k + r) (b * 2 ^ k + s) = Z.lxor a b * 2 ^ k + Z.lxor r s.
Proof.
  intros Hk Hr Hs. apply Z.bits_inj'. intros n Hn.
  pose proof (lxor_lt_pow2 k r s Hk Hr Hs) as Hx.
  rewrite Z.lxor_spec. rewrite !testbit_split by assumption.
  destruct (n <? k); now rewrite Z.lxor_spec.
Qed.

Lemma be_value_lxor_cons (c1 c2 : ascii) (t1 t2 : str) :
  length t1 = length t2 ->
  Z.lxor (be_value (c1 :: t1)) (be_value (c2 :: t2)) =
  Z.lxor (ord c1) (ord c2) * 256 ^ len t1 + Z.lxor (be_value t1) (be_value t2).
Proof.
  intros Hl. simpl be_value.
  assert (El : len t2 = len t1) by (unfold len; lia).
  rewrite El. pose proof (len_nonneg t1) as Hn.
  pose proof (be_value_range t1) as R1. pose proof (be_value_range t2) as R2.
  rewrite El in R2. rewrite pow256_pow2 in * by lia.
  apply lxor_split; lia.
Qed.

Lemma be_value_lxor_prefix (p : str) : forall (s1 s2 : str),
  length s1 = length s2 ->
  Z.lxor (be_value (p ++ s1)) (be_value (p ++ s2)) =
  Z.lxor (be_value s1) (be_value s2).
Proof.
  induction p as [|c p IH]; intros s1 s2 Hl; [reflexivity|].
  rewrite <- !app_comm_cons.
  rewrite be_value_lxor_cons by (rewrite !length_app; lia).
  rewrite Z.lxor_nilpotent, IH by assumption. lia.
Qed.

(** The XOR of two strings that first differ at bytes [c1], [c2]. *)
Lemma be_value_lxor_bounds (p : str) (c1 c2 : ascii) (t1 t2 : str) :
  length t1 = length t2 -> c1 <> c2 ->
  let x := Z.lxor (be_value (p ++ c1 :: t1)) (be_value (p ++ c2 :: t2)) in
  let n := len t1 * 8 + Z.log2 (Z.lxor (ord c1) (ord c2)) in
  2 ^ n <= x < 2 ^ (n + 1).
Proof.
  intros Hl Hne x n. subst x n.
  rewrite be_value_lxor_prefix by (simpl; lia).
  rewrite be_value_lxor_cons by assumption.
  pose proof (lxor_ord_nonzero c1 c2 Hne) as Hx.
  set (b := Z.lxor (ord c1) (ord c2)) in *.
  pose proof (Z.log2_spec b ltac:(lia)) as Hlog.
  pose proof (Z.log2_nonneg b) as Hlog0.
  pose proof (len_nonneg t1) as Hn.
  pose proof (be_value_range t1) as R1. pose proof (be_value_range t2) as R2.
  assert (El : len t2 = len t1) by (unfold len; lia). rewrite El in R2.
  rewrite pow256_pow2 in * by lia.
  pose proof (lxor_lt_pow2 (8 * len t1) _ _ ltac:(lia) R1 R2) as Hy.
  set (y := Z.lxor (be_value t1) (be_value t2)) in *.
  replace (len t1 * 8 + Z.log2 b + 1) with (Z.succ (Z.log2 b) + 8 * len t1) by lia.
  replace (len t1 * 8 + Z.log2 b) with (Z.log2 b + 8 * len t1) by lia.
  rewrite !Z.pow_add_r by lia.
  assert (0 < 2 ^ (8 * len t1)) by (apply Z.pow_pos_nonneg; lia).
  nia.
Qed.

(** ** Hexadecimal and integer forms *)

Lemma hexval_upper_hexdigit (d : Z) :
  0 <= d < 16 -> hexval (upper_char (hexdigit d)) = Some d.
Proof.
  intros Hd.
  assert (d = 0 \/ d = 1 \/ d = 2 \/ d = 3 \/ d = 4 \/ d = 5 \/ d = 6 \/ d = 7 \/
          d = 8 \/ d = 9 \/ d = 10 \/ d = 11 \/ d = 12 \/ d = 13 \/ d = 14 \/ d = 15)
    as H by lia.
  repeat (destruct H as [->|H]; [reflexivity|]). subst. reflexivity.
Qed.

Lemma b16encode_cons (c : ascii) (s : str) :
  b16encode (c :: s) =
  upper_char (hexdigit (ord c / 16)) :: upper_char (hexdigit (ord c mod 16))
    :: b16encode s.
Proof. reflexivity. Qed.

Lemma int16_from_b16encode (s : str) : forall acc : Z,
  int16_from acc (b16encode s) = Ok (acc * 256 ^ len s + be_value s).
Proof.
  induction s as [|c s IH]; intros acc.
  - simpl. f_equal. unfold len. simpl. lia.
  - rewrite b16encode_cons. pose proof (ord_range c) as Hc.
    cbn [int16_from].
    rewrite !hexval_upper_hexdigit
      by (try apply Z.mod_pos_bound; try split;
          try apply Z.div_pos; try apply Z.div_lt_upper_bound; lia).
    rewrite IH. f_equal. simpl be_value.
    pose proof (len_nonneg s). rewrite len_cons, pow256_succ by lia.
    pose proof (Z.div_mod (ord c) 16 ltac:(lia)) as Hdm.
    set (q := ord c / 16) in *. set (r := ord c mod 16) in *.
    rewrite Hdm. ring.
Qed.

Lemma int16_b16encode (s : str) :
  s <> [] -> int16 (b16encode s) = Ok (be_value s).
Proof.
  intros Hs. destruct s as [|c s]; [congruence|].
  unfold int16. rewrite b16encode_cons.
  rewrite <- b16encode_cons, int16_from_b16encode. f_equal; lia.
Qed.

Lemma folded_digit_table (c : ascii) : folded_digit_ok c = true.
Proof.
  destruct c as [[] [] [] [] [] [] [] []]; vm_compute; reflexivity.
Qed.

Lemma is_b16_upper_hexval (c : ascii) :
  is_b16 (upper_char c) = true ->
  exists d, hexval (upper_char c) = Some d /\ hexval c = Some d /\ 0 <= d < 16.
Proof.
  intros Hb. pose proof (folded_digit_table c) as T.
  unfold folded_digit_ok in T. rewrite Hb in T.
  destruct (hexval c) as [d|]; [|discriminate].
  destruct (hexval (upper_char c)) as [d'|]; [|discriminate].
  exists d. repeat split; try lia. f_equal. lia.
Qed.

Lemma pair_ind {A : Type} (P : list A -> Prop) :
  P [] -> (forall x, P [x]) -> (forall x y l, P l -> P (x :: y :: l)) ->
  forall l, P l.
Proof.
  intros H0 H1 H2 l.
  assert (P l /\ forall x, P (x :: l)) as [H _]; [|exact H].
  induction l as [|y l [IHa IHb]]; split; auto.
Qed.

Lemma unhexlify_upper_int16 (h : str) : forall (bin : str) (acc : Z),
  existsb (fun c => negb (is_b16 c)) (upper h) = false ->
  unhexlify (upper h) = Ok bin ->
  int16_from acc h = Ok (acc * 256 ^ len bin + be_value bin) /\
  length h = (2 * length bin)%nat.
Proof.
  induction h as [| x | x y l IH] using pair_ind; intros bin acc Hex Hun.
  - simpl in Hun. injection Hun as <-. simpl. split; [f_equal; unfold len; simpl; lia|reflexivity].
  - discriminate.
  - cbn [upper map existsb] in Hex. fold (upper l) in Hex.
    apply orb_false_elim in Hex as [Hx Hex].
    apply orb_false_elim in Hex as [Hy Hex].
    apply negb_false_iff in Hx, Hy.
    destruct (is_b16_upper_hexval x Hx) as (dh & Hux & Hhx & Rh).
    destruct (is_b16_upper_hexval y Hy) as (dl & Huy & Hhy & Rl).
    cbn [upper map unhexlify] in Hun. fold (upper l) in Hun.
    rewrite Hux, Huy in Hun.
    destruct (unhexlify (upper l)) as [r|e] eqn:Er; [|discriminate].
    simpl in Hun. injection Hun as <-.
    cbn [int16_from]. rewrite Hhx, Hhy.
    destruct (IH r ((acc * 16 + dh) * 16 + dl) Hex eq_refl) as [-> Hl].
    split; [|simpl; lia].
    f_equal. simpl be_value. rewrite ord_byte_chr by lia.
    pose proof (len_nonneg r). rewrite len_cons, pow256_succ by lia. ring.
Qed.

Lemma b16decode_int16 (h bin : str) :
  b16decode h true = Ok bin ->
  int16_from 0 h = Ok (be_value bin) /\ length h = (2 * length bin)%nat.
Proof.
  unfold b16decode. intros H.
  destruct (existsb (fun c => negb (is_b16 c)) (upper h)) eqn:Ex; [discriminate|].
  destruct (unhexlify_upper_int16 h bin 0 Ex H) as [-> Hl]. split; [|assumption].
  f_equal; lia.
Qed.

(** ** Validity of an identifier *)

Lemma Id_int_cache_ok (a : Id) :
  cache_ok a -> _bin a <> [] -> fst (Id_int a) = Ok (be_value (_bin a)).
Proof.
  intros [Hh Hi] Hb. unfold Id_int.
  destruct (not_int (_int a)) eqn:Ni.
  - unfold Id_hex. destruct (not_str (_hex a)) eqn:Ns.
    + unfold _bin_to_hex. rewrite int16_b16encode by assumption. reflexivity.
    + destruct (_hex a) as [h|] eqn:Eh; [|discriminate].
      destruct (b16decode_int16 h _ (Hh h eq_refl)) as [Hv Hl].
      unfold int16. destruct h as [|c h]; [discriminate|].
      rewrite Hv. reflexivity.
  - destruct (_int a) as [n|] eqn:Ei; [|discriminate].
    simpl. f_equal. now apply Hi.
Qed.

Lemma valid_nonempty (a : Id) : valid a -> _bin a <> [].
Proof.
  intros [Hl _] E. rewrite E in Hl. discriminate.
Qed.

Lemma Id_int_valid (a : Id) :
  valid a -> fst (Id_int a) = Ok (be_value (_bin a)).
Proof.
  intros Hv. apply Id_int_cache_ok; [apply Hv|now apply valid_nonempty].
Qed.

Lemma xor_int_valid (a b : Id) :
  valid a -> valid b ->
  xor_int a b = Ok (Z.lxor (be_value (_bin a)) (be_value (_bin b))).
Proof.
  intros Ha Hb. unfold xor_int. now rewrite !Id_int_valid.
Qed.

(** Construction from a string gives a valid identifier. *)
Lemma Id_init_str_valid (s : str) (a : Id) :
  Id_init (PyStr s) = Ok a -> valid a.
Proof.
  unfold Id_init, Id_fields. intros H.
  destruct (len s =? ID_SIZE_BYTES) eqn:E20.
  - apply Z.eqb_eq in E20. simpl in H.
    destruct s as [|c s]; [discriminate|]. injection H as <-.
    split; [exact E20|]. split; simpl; intros ? ?; discriminate.
  - destruct (len s =? ID_SIZE_BYTES * 2) eqn:E40; [|discriminate].
    apply Z.eqb_eq in E40. unfold _hex_to_bin in H.
    destruct (b16decode s true) as [b|e] eqn:Ed; [|discriminate].
    simpl in H. destruct b as [|c0 b0] eqn:Eb; [discriminate|].
    injection H as <-. rewrite <- Eb in *.
    destruct (b16decode_int16 s b Ed) as [_ Hl].
    split; simpl.
    + unfold len, ID_SIZE_BYTES in *. lia.
    + split; simpl; intros ? E; [injection E as <-; assumption|discriminate].
Qed.

(** ** Log-distance *)

Lemma Id_eq_true (a b : Id) : Id_eq a b = true <-> bin_id a = bin_id b.
Proof.
  unfold Id_eq. destruct (List.list_eq_dec ascii_dec (bin_id a) (bin_id b)); split;
    intros; congruence.
Qed.

Lemma Id_eq_false (a b : Id) : Id_eq a b = false <-> bin_id a <> bin_id b.
Proof.
  unfold Id_eq. destruct (List.list_eq_dec ascii_dec (bin_id a) (bin_id b)); split;
    intros; congruence.
Qed.

Lemma valid_same_length (a b : Id) :
  valid a -> valid b -> length (bin_id a) = length (bin_id b).
Proof.
  intros [Ha _] [Hb _]. unfold bin_id, len in *. lia.
Qed.

Lemma log_distance_equal (fuel : nat) (a b : Id) :
  bin_id a = bin_id b -> log_distance fuel a b = Ok (-1).
Proof.
  intros E. unfold log_distance, _first_different_byte. rewrite E.
  destruct (first_different_byte_from_spec (bin_id b) (bin_id b) 0 eq_refl)
    as [[_ ->]|(p & c1 & c2 & t1 & t2 & E1 & E2 & Hne & _)]; [reflexivity|].
  rewrite E1 in E2. apply app_inv_head in E2. congruence.
Qed.

Lemma log_distance_differ (fuel : nat) (a b : Id) (p : str) (c1 c2 : ascii)
    (t1 t2 : str) :
  (8 <= fuel)%nat -> len (bin_id a) = ID_SIZE_BYTES ->
  bin_id a = p ++ c1 :: t1 -> bin_id b = p ++ c2 :: t2 ->
  c1 <> c2 -> length t1 = length t2 ->
  log_distance fuel a b = Ok (len t1 * 8 + Z.log2 (Z.lxor (ord c1) (ord c2))).
Proof.
  intros Hf Hlen Ea Eb Hne Ht. unfold log_distance, _first_different_byte.
  assert (Hl : length (bin_id a) = length (bin_id b)).
  { rewrite Ea, Eb, !length_app. simpl. lia. }
  destruct (first_different_byte_from_spec (bin_id a) (bin_id b) 0 Hl)
    as [[E _]|(p' & d1 & d2 & u1 & u2 & E1 & E2 & Hd & Hu & ->)].
  { rewrite Ea, Eb in E. apply app_inv_head in E. congruence. }
  assert (p' = p /\ d1 = c1 /\ u1 = t1) as (-> & -> & ->).
  { rewrite Ea in E1. rewrite Eb in E2. clear - E1 E2 Hne Hd.
    revert p' E1 E2. induction p as [|x p IH]; intros [|y p'] E1 E2; simpl in *.
    - injection E1 as E1 E1'. subst. auto.
    - congruence.
    - congruence.
    - injection E1 as E1 E1'. injection E2 as _ E2. subst y.
      destruct (IH p' E1' E2) as (-> & -> & ->). auto. }
  assert (d2 = c2) as ->.
  { rewrite Eb in E2. apply app_inv_head in E2. congruence. }
  rewrite Z.add_0_l, Ea, Eb, !getitem_middle. cbn [rbind].
  rewrite first_different_bit_spec by assumption. cbn [rbind]. f_equal.
  rewrite Ea, len_app, len_cons in Hlen.
  unfold ID_SIZE_BYTES, BITS_PER_BYTE in *. lia.
Qed.

Lemma log2_unique_bounds (n x : Z) :
  0 <= n -> 2 ^ n <= x < 2 ^ (n + 1) -> Z.log2 x = n.
Proof.
  intros Hn Hx. apply Z.log2_unique; [assumption|].
  now rewrite <- Z.add_1_r.
Qed.

Lemma testbit_true_ge (x k : Z) :
  0 <= x -> 0 <= k -> Z.testbit x k = true -> 2 ^ k <= x.
Proof.
  intros Hx Hk Hb. destruct (Z_lt_le_dec x (2 ^ k)) as [Hlt|]; [|assumption].
  rewrite <- (Z.mod_small x (2 ^ k)) in Hb by lia.
  rewrite Z.mod_pow2_bits_high in Hb by lia. discriminate.
Qed.

(** C4: on valid identifiers [log_distance] returns -1 exactly when the
    two are equal; otherwise it returns the [n] in 0..159 with
    [2^n <= xor < 2^(n+1)] for the XOR of the two integer forms, and [n]
    is [unmatched_bytes * 8 + bit_offset], where the strings share the
    prefix [p], first differ at the bytes [c1], [c2] that follow it,
    [unmatched_bytes] is the number of bytes after them and [bit_offset]
    the position of the most significant bit of [c1 xor c2].  It is 0
    when the XOR is 1 (only the least significant bit differs) and 159
    when bit 159, the most significant bit of the first byte, differs. *)
Theorem log_distance_correct (fuel : nat) (a b : Id) :
  (8 <= fuel)%nat -> valid a -> valid b ->
  exists n x,
    log_distance fuel a b = Ok n /\ xor_int a b = Ok x /\
    (n = -1 <-> Id_eq a b = true) /\
    (Id_eq a b = false ->
       0 <= n <= 159 /\ 2 ^ n <= x < 2 ^ (n + 1) /\
       exists p c1 c2 t1 t2,
         bin_id a = p ++ c1 :: t1 /\ bin_id b = p ++ c2 :: t2 /\ c1 <> c2 /\
         n = len t1 * 8 + Z.log2 (Z.lxor (ord c1) (ord c2))) /\
    (x = 1 -> n = 0) /\
    (Z.testbit x 159 = true -> n = 159).
Proof.
  intros Hf Ha Hb.
  pose proof (valid_same_length a b Ha Hb) as Hlen.
  rewrite (xor_int_valid a b Ha Hb).
  destruct (first_different_byte_from_spec (bin_id a) (bin_id b) 0 Hlen)
    as [[E _]|(p & c1 & c2 & t1 & t2 & Ea & Eb & Hne & Ht & _)].
  - exists (-1), (Z.lxor (be_value (_bin a)) (be_value (_bin b))).
    assert (Ex : Z.lxor (be_value (_bin a)) (be_value (_bin b)) = 0).
    { unfold bin_id in E. rewrite E. apply Z.lxor_nilpotent. }
    split; [now apply log_distance_equal|]. split; [reflexivity|].
    split; [split; intros _; [now apply Id_eq_true|reflexivity]|].
    split; [intros Hn; apply Id_eq_false in Hn; contradiction|].
    rewrite Ex. split; [intros; lia|]. rewrite Z.bits_0. discriminate.
  - set (n := len t1 * 8 + Z.log2 (Z.lxor (ord c1) (ord c2))).
    set (x := Z.lxor (be_value (_bin a)) (be_value (_bin b))).
    assert (Hn : 0 <= n <= 159).
    { pose proof (lxor_ord_nonzero c1 c2 Hne) as Hx.
      pose proof (byte_log2 (Z.lxor (ord c1) (ord c2)) ltac:(lia)).
      pose proof (Z.log2_nonneg (Z.lxor (ord c1) (ord c2))).
      pose proof (len_nonneg t1). pose proof (len_nonneg p).
      destruct Ha as [Hla _]. fold (bin_id a) in Hla.
      rewrite Ea, len_app, len_cons in Hla. unfold ID_SIZE_BYTES in Hla.
      subst n. lia. }
    assert (Hx : 2 ^ n <= x < 2 ^ (n + 1)).
    { subst x n. unfold bin_id in Ea, Eb. rewrite Ea, Eb.
      now apply be_value_lxor_bounds. }
    assert (Hpos : 0 < 2 ^ n) by (apply Z.pow_pos_nonneg; lia).
    assert (Hdiff : bin_id a <> bin_id b).
    { rewrite Ea, Eb. intros E. apply app_inv_head in E. congruence. }
    exists n, x.
    split; [apply (log_distance_differ fuel a b p c1 c2 t1 t2); auto; apply Ha|].
    split; [reflexivity|].
    split; [split; [lia|intros E; apply Id_eq_true in E; contradiction]|].
    split; [intros _; split; [assumption|]; split; [assumption|];
            exists p, c1, c2, t1, t2; auto|].
    split.
    + intros E1. rewrite E1 in Hx.
      destruct (Z.eq_dec n 0) as [|Hn0]; [assumption|].
      assert (2 ^ 1 <= 2 ^ n) by (apply Z.pow_le_mono_r; lia).
      change (2 ^ 1) with 2 in *. lia.
    + intros Hb159. apply testbit_true_ge in Hb159; [|lia|lia].
      destruct (Z.eq_dec n 159) as [|Hn1]; [assumption|].
      assert (2 ^ (n + 1) <= 2 ^ 159) by (apply Z.pow_le_mono_r; lia). lia.
Qed.

(** C10: on valid identifiers [log_distance] returns with fuel for 8
    evaluations of the loop condition.  Equal buffers return -1 without
    running the scan (no fuel is needed); otherwise the scan starts from
    the XOR of two different bytes, which is not zero, and stops after
    [i <= 7] iterations. *)
Theorem log_distance_terminates (fuel : nat) (a b : Id) :
  (8 <= fuel)%nat -> valid a -> valid b ->
  (exists n, log_distance fuel a b = Ok n) /\
  (bin_id a = bin_id b -> log_distance 0 a b = Ok (-1)) /\
  (forall byte_i c1 c2,
      _first_different_byte (bin_id a) (bin_id b) = Ok byte_i ->
      getitem (bin_id a) byte_i = Ok c1 ->
      getitem (bin_id b) byte_i = Ok c2 ->
      Z.lxor (ord c1) (ord c2) <> 0 /\
      exists i, bit_scan 8 (Z.lxor (ord c1) (ord c2)) 0 = Ok i /\ 0 <= i <= 7).
Proof.
  intros Hf Ha Hb.
  split; [|split].
  - destruct (first_different_byte_from_spec (bin_id a) (bin_id b) 0
                (valid_same_length a b Ha Hb))
      as [[E _]|(p & c1 & c2 & t1 & t2 & Ea & Eb & Hne & Ht & _)].
    + exists (-1). now apply log_distance_equal.
    + eexists. apply (log_distance_differ fuel a b p c1 c2 t1 t2); auto. apply Ha.
  - apply log_distance_equal.
  - intros byte_i c1 c2 Hi H1 H2. unfold _first_different_byte in Hi.
    destruct (first_different_byte_from_spec (bin_id a) (bin_id b) 0
                (valid_same_length a b Ha Hb))
      as [[_ E]|(p & d1 & d2 & t1 & t2 & Ea & Eb & Hne & Ht & E)];
      rewrite E in Hi; [discriminate|].
    injection Hi as <-. rewrite Z.add_0_l in H1, H2.
    rewrite Ea, getitem_middle in H1. rewrite Eb, getitem_middle in H2.
    injection H1 as ->. injection H2 as ->.
    pose proof (lxor_ord_nonzero c1 c2 Hne) as Hx.
    split; [lia|]. exists (7 - Z.log2 (Z.lxor (ord c1) (ord c2))).
    split; [now apply bit_scan_byte|].
    pose proof (byte_log2 (Z.lxor (ord c1) (ord c2)) ltac:(lia)).
    pose proof (Z.log2_nonneg (Z.lxor (ord c1) (ord c2))). lia.
Qed.

(** ** Construction *)

(** A string that is neither 20 nor 40 characters long is refused. *)
Lemma Id_init_str_bad_length (s : str) :
  len s <> ID_SIZE_BYTES -> len s <> ID_SIZE_BYTES * 2 ->
  Id_init (PyStr s) = Raise IdError.
Proof.
  intros H20 H40. unfold Id_init, Id_fields.
  destruct (Z.eqb_spec (len s) ID_SIZE_BYTES); [contradiction|].
  destruct (Z.eqb_spec (len s) (ID_SIZE_BYTES * 2)); [contradiction|].
  reflexivity.
Qed.

(** Whatever [b16decode] raises on a 40-character string, [Id] raises
    IdError. *)
Lemma Id_init_hex_outcome (s : str) :
  len s = ID_SIZE_BYTES * 2 ->
  Id_init (PyStr s) = Raise IdError \/ exists a, Id_init (PyStr s) = Ok a.
Proof.
  intros H40. unfold Id_init, Id_fields.
  destruct (Z.eqb_spec (len s) ID_SIZE_BYTES) as [E|_];
    [rewrite H40 in E; discriminate|].
  destruct (Z.eqb_spec (len s) (ID_SIZE_BYTES * 2)); [|contradiction].
  unfold _hex_to_bin. destruct (b16decode s true) as [b|x]; [|now left].
  simpl. destruct b; [now left|right; eauto].
Qed.

Lemma not_hex_table (c : ascii) : not_hex_is_refused c = true.
Proof.
  destruct c as [[] [] [] [] [] [] [] []]; vm_compute; reflexivity.
Qed.

(** A 40-character string with a character that is no hexadecimal digit
    is refused with IdError. *)
Lemma Id_init_hex_bad_char (s : str) (c : ascii) :
  len s = ID_SIZE_BYTES * 2 -> In c s -> hexval c = None ->
  Id_init (PyStr s) = Raise IdError.
Proof.
  intros H40 Hin Hc. unfold Id_init, Id_fields.
  destruct (Z.eqb_spec (len s) ID_SIZE_BYTES) as [E|_];
    [rewrite H40 in E; discriminate|].
  destruct (Z.eqb_spec (len s) (ID_SIZE_BYTES * 2)); [|contradiction].
  unfold _hex_to_bin, b16decode.
  assert (Hex : existsb (fun c => negb (is_b16 c)) (upper s) = true).
  { apply existsb_exists. exists (upper_char c). split.
    - unfold upper. now apply in_map.
    - pose proof (not_hex_table c) as T. unfold not_hex_is_refused in T.
      now rewrite Hc in T. }
  rewrite Hex. reflexivity.
Qed.

(** Anything that is neither a string nor an integer is refused. *)
Lemma Id_init_other : Id_init PyOther = Raise IdError.
Proof. reflexivity. Qed.

(** The integer XOR is symmetric, and so is [distance], also when it
    raises. *)
Lemma distance_sym (a b : Id) :
  valid a -> valid b -> distance a b = distance b a.
Proof.
  intros Ha Hb. unfold distance.
  rewrite (xor_int_valid a b), (xor_int_valid b a) by assumption.
  now rewrite Z.lxor_comm.
Qed.

(** C1 (the code departs from it): [distance] raises TypeError on the
    all-zero identifier and the identifier whose last byte is 10.  The
    XOR is 10, ['%040x' % 10] ends in the lowercase digit [a], and
    [base64.b16decode] without [casefold] refuses lowercase digits. *)
Theorem distance_raises_on_hex_letter :
  exists a b,
    Id_init (PyStr (repeat zero 20)) = Ok a /\
    Id_init (PyStr (repeat zero 19 ++ [byte_chr 10])) = Ok b /\
    xor_int a b = Ok 10 /\
    distance a b = Raise TypeError.
Proof.
  do 2 eexists. split; [reflexivity|]. split; [reflexivity|].
  split; vm_compute; reflexivity.
Qed.

(** C2 (the code departs from it): construction from the integer 10,
    which is in range, raises TypeError: the lowercase digit [a] of
    ['%040x' % 10] is refused by [base64.b16decode]. *)
Theorem Id_init_int_raises_on_hex_letter :
  0 <= 10 < 2 ^ 160 /\
  format_040x 10 = repeat "0"%char 39 ++ ["a"%char] /\
  Id_init (PyInt 10) = Raise TypeError.
Proof.
  split; [split; [lia|reflexivity]|]. split; vm_compute; reflexivity.
Qed.

(** C3 (the code departs from it): the integers -1 and 2^160 raise
    TypeError, not IdError, and 2^164 is accepted: it gives an
    identifier with a buffer of 21 bytes. *)
Theorem Id_init_malformed_int :
  Id_init (PyInt (-1)) = Raise TypeError /\
  Id_init (PyInt (2 ^ 160)) = Raise TypeError /\
  exists a, Id_init (PyInt (2 ^ 164)) = Ok a /\ len (bin_id a) = 21.
Proof.
  split; [vm_compute; reflexivity|]. split; [vm_compute; reflexivity|].
  eexists. split; vm_compute; reflexivity.
Qed.

(** ** Equal identifiers, their hexadecimal and integer forms *)

Lemma folded_digit_canonical_table (c : ascii) : folded_digit_canonical c = true.
Proof.
  destruct c as [[] [] [] [] [] [] [] []]; vm_compute; reflexivity.
Qed.

Lemma upper_char_idem (c : ascii) : upper_char (upper_char c) = upper_char c.
Proof.
  pose proof (folded_digit_canonical_table c) as T.
  apply andb_true_iff in T as [T _]. now apply Ascii.eqb_eq.
Qed.

Lemma upper_idem (s : str) : upper (upper s) = upper s.
Proof.
  unfold upper. rewrite map_map. apply map_ext. intros c. apply upper_char_idem.
Qed.

Lemma upper_hexdigit_of_hexval (c : ascii) (d : Z) :
  is_b16 (upper_char c) = true -> hexval (upper_char c) = Some d ->
  upper_char (hexdigit d) = upper_char c.
Proof.
  intros Hb Hv. pose proof (folded_digit_canonical_table c) as T.
  apply andb_true_iff in T as [_ T]. rewrite Hb, Hv in T.
  now apply Ascii.eqb_eq.
Qed.

Lemma unhexlify_upper_b16encode (h : str) : forall bin : str,
  existsb (fun c => negb (is_b16 c)) (upper h) = false ->
  unhexlify (upper h) = Ok bin ->
  upper h = b16encode bin.
Proof.
  induction h as [| x | x y l IH] using pair_ind; intros bin Hex Hun.
  - simpl in Hun. injection Hun as <-. reflexivity.
  - discriminate.
  - cbn [upper map existsb] in Hex. fold (upper l) in Hex.
    apply orb_false_elim in Hex as [Hx Hex].
    apply orb_false_elim in Hex as [Hy Hex].
    apply negb_false_iff in Hx, Hy.
    destruct (is_b16_upper_hexval x Hx) as (dh & Hux & _ & Rh).
    destruct (is_b16_upper_hexval y Hy) as (dl & Huy & _ & Rl).
    cbn [upper map unhexlify] in Hun. fold (upper l) in Hun.
    rewrite Hux, Huy in Hun.
    destruct (unhexlify (upper l)) as [r|e] eqn:Er; [|discriminate].
    simpl in Hun. injection Hun as <-.
    rewrite b16encode_cons, ord_byte_chr by lia.
    replace ((dh * 16 + dl) / 16) with dh
      by (apply Z.div_unique with dl; lia).
    replace ((dh * 16 + dl) mod 16) with dl
      by (apply Z.mod_unique with dh; lia).
    rewrite (upper_hexdigit_of_hexval x dh Hx Hux).
    rewrite (upper_hexdigit_of_hexval y dl Hy Huy).
    cbn [upper map]. fold (upper l). now rewrite (IH r Hex eq_refl).
Qed.

Lemma b16decode_upper (h bin : str) :
  b16decode h true = Ok bin -> upper h = b16encode bin.
Proof.
  unfold b16decode. intros H.
  destruct (existsb (fun c => negb (is_b16 c)) (upper h)) eqn:Ex; [discriminate|].
  now apply unhexlify_upper_b16encode.
Qed.

Lemma upper_b16encode (s : str) : upper (b16encode s) = b16encode s.
Proof. unfold b16encode. apply upper_idem. Qed.

(** The hexadecimal form of an identifier is, up to the case of its
    letters, the base-16 encoding of its bytes. *)
Lemma Id_hex_cache_ok (a : Id) :
  cache_ok a -> upper (fst (Id_hex a)) = b16encode (bin_id a).
Proof.
  intros [Hh _]. unfold Id_hex, bin_id.
  destruct (not_str (_hex a)) eqn:Ns.
  - apply upper_b16encode.
  - destruct (_hex a) as [h|] eqn:Eh; [|discriminate].
    simpl. apply b16decode_upper. now apply Hh.
Qed.

Lemma Id_hex_no_cache (a : Id) :
  _hex a = None -> fst (Id_hex a) = b16encode (bin_id a).
Proof.
  intros E. unfold Id_hex. rewrite E. reflexivity.
Qed.

(** C8, the claim as stated fails: the identifier built from forty [f]
    and the one built from twenty bytes 255 are equal, the first has the
    hexadecimal form it was given, the second the uppercase encoding. *)
Lemma equal_ids_different_hex :
  exists a b,
    Id_init (PyStr (repeat "f"%char 40)) = Ok a /\
    Id_init (PyStr (repeat (byte_chr 255) 20)) = Ok b /\
    Id_eq a b = true /\
    fst (Id_hex a) = repeat "f"%char 40 /\
    fst (Id_hex b) = repeat "F"%char 40 /\
    fst (Id_hex a) <> fst (Id_hex b).
Proof.
  do 2 eexists. split; [vm_compute; reflexivity|].
  split; [vm_compute; reflexivity|].
  split; [vm_compute; reflexivity|].
  split; [vm_compute; reflexivity|].
  split; [vm_compute; reflexivity|].
  vm_compute. discriminate.
Qed.

Lemma Id_hex_no_lowercase (a : Id) :
  no_lowercase a -> upper (fst (Id_hex a)) = fst (Id_hex a).
Proof.
  intros Hn. unfold Id_hex. destruct (not_str (_hex a)) eqn:Ns.
  - apply upper_b16encode.
  - destruct (_hex a) as [h|] eqn:Eh; [|discriminate]. simpl. now apply Hn.
Qed.

(** C8, amended: equal valid identifiers have the same integer form, and
    hexadecimal forms that are the same up to the case of the letters:
    folded to upper case, each is the base-16 encoding of the bytes.
    The two hexadecimal forms are the same when neither identifier
    keeps, from its construction, a hexadecimal string with lowercase
    letters. *)
Theorem equal_ids_same_forms (a b : Id) :
  valid a -> valid b -> Id_eq a b = true ->
  fst (Id_int a) = fst (Id_int b) /\
  upper (fst (Id_hex a)) = upper (fst (Id_hex b)) /\
  upper (fst (Id_hex a)) = b16encode (bin_id a) /\
  (no_lowercase a -> no_lowercase b -> fst (Id_hex a) = fst (Id_hex b)).
Proof.
  intros Ha Hb E. apply Id_eq_true in E.
  rewrite !Id_int_valid by assumption.
  assert (Eh : upper (fst (Id_hex a)) = upper (fst (Id_hex b))).
  { rewrite !Id_hex_cache_ok by (apply Ha || apply Hb). now rewrite E. }
  split; [unfold bin_id in E; now rewrite E|]. split; [exact Eh|].
  split; [apply Id_hex_cache_ok, Ha|].
  intros Na Nb.
  now rewrite <- (Id_hex_no_lowercase a Na), <- (Id_hex_no_lowercase b Nb).
Qed.

(** ** Generation outside the range of log-distances *)

(** C7, the claim as stated fails: the target -2 is outside [-1, 160)
    and the call returns [self]. *)
Lemma generate_close_id_minus_two :
  -2 < -1 /\
  fst (generate_close_id (mkId (repeat zero 20) None None) (-2)
         (mkRng (fun _ => 0) 0))
  = Ok (mkId (repeat zero 20) None None).
Proof. split; [lia|reflexivity]. Qed.

(** C7, amended: a target of 160 or more fails the assertion: the call
    raises AssertionError, which is not IdError, returns no identifier
    and draws nothing.  A negative target, -1 or below, returns [self]. *)
Theorem generate_close_id_out_of_range (self : Id) (d : Z) (g : rng) :
  (ID_SIZE_BITS <= d -> generate_close_id self d g = (Raise AssertionError, g)) /\
  (d < 0 -> generate_close_id self d g = (Ok self, g)).
Proof.
  unfold generate_close_id, ID_SIZE_BITS, ID_SIZE_BYTES, BITS_PER_BYTE.
  split; intros Hd.
  - destruct (Z.ltb_spec d (20 * 8)); [lia|]. reflexivity.
  - destruct (Z.ltb_spec d (20 * 8)); [|lia]. simpl.
    destruct (Z.ltb_spec d 0); [|lia]. reflexivity.
Qed.

(** ** Generation at a log-distance *)

Lemma advance_0 (g : rng) : advance 0 g = g.
Proof. destruct g. unfold advance. simpl. f_equal. lia. Qed.

Lemma advance_S (k : nat) (g : rng) :
  advance k (mkRng (draws g) (S (pos g))) = advance (S k) g.
Proof. unfold advance. simpl. f_equal. lia. Qed.

Lemma advance_advance (j k : nat) (g : rng) :
  advance k (advance j g) = advance (j + k) g.
Proof. unfold advance. simpl. f_equal. lia. Qed.

Lemma bind_ok {S A B : Type} (m : M S A) (k : A -> M S B) (s s' : S) (a : A) :
  m s = (Ok a, s') -> bind m k s = k a s'.
Proof. intros H. unfold bind. now rewrite H. Qed.

Lemma for_fold_app {S A : Type} (body : Z -> A -> M S A) (l1 l2 : list Z) :
  forall (acc : A) (s : S),
    for_fold (l1 ++ l2) body acc s =
    bind (for_fold l1 body acc) (fun a => for_fold l2 body a) s.
Proof.
  induction l1 as [|i l1 IH]; intros acc s; [reflexivity|].
  cbn [app for_fold]. unfold bind. destruct (body i acc s) as [[a|e] s1].
  - rewrite IH. reflexivity.
  - reflexivity.
Qed.

Lemma range_S (k : nat) :
  range (Z.of_nat (S k)) = range (Z.of_nat k) ++ [Z.of_nat k].
Proof.
  unfold range. rewrite !Nat2Z.id, seq_S, map_app. reflexivity.
Qed.

Lemma range_length (n : Z) : length (range n) = Z.to_nat n.
Proof. unfold range. now rewrite length_map, length_seq. Qed.

Lemma with_bit_table :
  forallb (fun v => forallb (fun i => with_bit_ok v i 0 && with_bit_ok v i 1)
                      (range 8))
          (range 256) = true.
Proof. vm_compute. reflexivity. Qed.

Lemma in_range (n x : Z) : 0 <= x < n -> In x (range n).
Proof.
  intros Hx. unfold range. apply in_map_iff.
  exists (Z.to_nat x). split; [lia|]. apply in_seq. lia.
Qed.

Lemma with_bit_spec (v i r : Z) :
  0 <= v < 256 -> 0 <= i < 8 -> 0 <= r < 2 ->
  0 <= with_bit i v r < 256 /\
  forall j, 0 <= j < 8 ->
    Z.testbit (with_bit i v r) j = if j =? i then r =? 1 else Z.testbit v j.
Proof.
  intros Hv Hi Hr. pose proof with_bit_table as T.
  rewrite forallb_forall in T. specialize (T v (in_range 256 v Hv)).
  rewrite forallb_forall in T. specialize (T i (in_range 8 i Hi)).
  apply andb_true_iff in T as [T0 T1].
  assert (Hok : with_bit_ok v i r = true).
  { assert (r = 0 \/ r = 1) as [->| ->] by lia; assumption. }
  unfold with_bit_ok in Hok.
  apply andb_true_iff in Hok as [Hb Hbits].
  apply andb_true_iff in Hb as [Hb0 Hb1].
  split; [lia|]. intros j Hj.
  rewrite forallb_forall in Hbits. specialize (Hbits j (in_range 8 j Hj)).
  now apply Bool.eqb_prop in Hbits.
Qed.

Lemma randomize_bit_run (i v : Z) (g : rng) :
  randomize_bit i v g =
  (Ok (with_bit i v (draws g (pos g) mod 2)), advance 1 g).
Proof.
  unfold randomize_bit, bind, randint, ret, with_bit, advance. simpl.
  repeat f_equal. lia.
Qed.

(** The loop over the low bits: bits [0..k-1] become the draws, the
    others stay. *)
Lemma randomize_bits_run (k : nat) : forall (v : Z) (g : rng),
  0 <= v < 256 -> (k <= 8)%nat ->
  exists v',
    for_fold (range (Z.of_nat k)) randomize_bit v g = (Ok v', advance k g) /\
    0 <= v' < 256 /\
    forall j, 0 <= j < 8 ->
      Z.testbit v' j =
      if j <? Z.of_nat k then draws g (pos g + Z.to_nat j) mod 2 =? 1
      else Z.testbit v j.
Proof.
  induction k as [|k IH]; intros v g Hv Hk.
  - exists v. rewrite advance_0. split; [reflexivity|]. split; [assumption|].
    intros j Hj. destruct (Z.ltb_spec j (Z.of_nat 0)); [lia|reflexivity].
  - destruct (IH v g Hv ltac:(lia)) as (v1 & Hrun & Hv1 & Hbits).
    pose proof (Z.mod_pos_bound (draws (advance k g) (pos (advance k g))) 2
                  ltac:(lia)) as Hr.
    destruct (with_bit_spec v1 (Z.of_nat k) _ Hv1 ltac:(lia) Hr) as [Hv2 Hb2].
    eexists. rewrite range_S, for_fold_app, (bind_ok _ _ _ _ _ Hrun).
    cbn [for_fold]. rewrite (bind_ok _ _ _ _ _ (randomize_bit_run _ _ _)).
    unfold ret. rewrite advance_advance. split; [repeat f_equal; lia|].
    split; [exact Hv2|]. intros j Hj. rewrite (Hb2 j Hj), (Hbits j Hj).
    destruct (Z.eqb_spec j (Z.of_nat k)) as [->|Hne].
    + destruct (Z.ltb_spec (Z.of_nat k) (Z.of_nat (S k))); [|lia].
      unfold advance. simpl. now rewrite Nat2Z.id.
    + destruct (Z.ltb_spec j (Z.of_nat k)), (Z.ltb_spec j (Z.of_nat (S k)));
        try lia; reflexivity.
Qed.

(** The random ending bytes. *)
Lemma random_str_run (n : nat) : forall g : rng,
  exists s,
    random_str n g = (Ok s, advance n g) /\ length s = n /\
    forall i, (i < n)%nat ->
      nth_error s i = Some (byte_chr (draws g (pos g + i) mod 256)).
Proof.
  induction n as [|n IH]; intros g.
  - exists []. rewrite advance_0. repeat split. intros i Hi. lia.
  - destruct (IH (advance 1 g)) as (s & Hrun & Hlen & Hnth).
    pose proof (Z.mod_pos_bound (draws g (pos g)) 256 ltac:(lia)) as Hr.
    exists (byte_chr (draws g (pos g) mod 256) :: s).
    split; [|split].
    + cbn [random_str]. unfold bind at 1. unfold randint at 1.
      change (0 + draws g (pos g) mod (255 - 0 + 1)) with (draws g (pos g) mod 256).
      unfold bind at 1. unfold lift at 1. rewrite chr_byte by assumption.
      unfold bind at 1.
      replace (mkRng (draws g) (S (pos g))) with (advance 1 g)
        by (unfold advance; f_equal; lia).
      rewrite Hrun. unfold ret. rewrite advance_advance. reflexivity.
    + simpl. now rewrite Hlen.
    + intros [|i] Hi.
      * simpl. now rewrite Nat.add_0_r.
      * simpl. rewrite Hnth by lia. unfold advance. simpl.
        replace (pos g + 1 + i)%nat with (pos g + S i)%nat by lia. reflexivity.
Qed.

Lemma Id_init_bytes (s : str) :
  len s = ID_SIZE_BYTES -> Id_init (PyStr s) = Ok (mkId s None None).
Proof.
  intros H. unfold Id_init, Id_fields. rewrite H. simpl.
  destruct s; [discriminate|reflexivity].
Qed.

Lemma split_at {A : Type} (l : list A) (i : Z) :
  0 <= i < len l -> exists p x t, l = p ++ x :: t /\ len p = i.
Proof.
  intros Hi. unfold len in *.
  destruct (nth_error l (Z.to_nat i)) as [x|] eqn:E.
  - apply nth_error_split in E as (p & t & -> & Hp).
    exists p, x, t. split; [reflexivity|lia].
  - apply nth_error_None in E. lia.
Qed.

Lemma slice_to_prefix {A : Type} (p t : list A) :
  slice_to (p ++ t) (len p) = p.
Proof.
  unfold slice_to. pose proof (len_nonneg p).
  destruct (Z.ltb_spec (len p) 0); [lia|].
  unfold len. rewrite Nat2Z.id.
  rewrite firstn_app, Nat.sub_diag, firstn_all. simpl. apply app_nil_r.
Qed.

Lemma testbit_byte_high (v j : Z) : 0 <= v < 256 -> 8 <= j -> Z.testbit v j = false.
Proof.
  intros Hv Hj. rewrite <- (Z.mod_small v (2 ^ 8)) by (change (2 ^ 8) with 256; lia).
  apply Z.mod_pow2_bits_high. lia.
Qed.

(** Two bytes that agree above bit [k] and differ at bit [k]: the most
    significant bit of their XOR is bit [k]. *)
Lemma log2_lxor_flipped (o v k : Z) :
  0 <= o < 256 -> 0 <= v < 256 -> 0 <= k < 8 ->
  (forall j, k < j < 8 -> Z.testbit v j = Z.testbit o j) ->
  Z.testbit v k = negb (Z.testbit o k) ->
  Z.log2 (Z.lxor o v) = k.
Proof.
  intros Ho Hv Hk Hhigh Hflip.
  assert (Hs : Z.shiftr (Z.lxor o v) k = 1).
  { apply Z.bits_inj'. intros n Hn.
    rewrite Z.shiftr_spec, Z.lxor_spec by assumption.
    change 1 with (2 ^ 0). rewrite Z.pow2_bits_eqb by lia.
    destruct (Z.eqb_spec 0 n) as [<-|Hn0].
    - rewrite Z.add_0_l, Hflip. now destruct (Z.testbit o k).
    - destruct (Z_lt_le_dec (n + k) 8).
      + rewrite Hhigh by lia. apply xorb_nilpotent.
      + now rewrite !testbit_byte_high by lia. }
  rewrite Z.shiftr_div_pow2 in Hs by lia.
  assert (H0 : 0 <= Z.lxor o v) by (apply Z.lxor_nonneg; lia).
  assert (Hp : 0 < 2 ^ k) by (apply Z.pow_pos_nonneg; lia).
  apply log2_unique_bounds; [lia|].
  rewrite Z.pow_add_r by lia. change (2 ^ 1) with 2.
  pose proof (Z.div_mod (Z.lxor o v) (2 ^ k) ltac:(lia)) as Hdm.
  pose proof (Z.mod_pos_bound (Z.lxor o v) (2 ^ k) Hp).
  rewrite Hs in Hdm. lia.
Qed.

Lemma testbit_flip (o k j : Z) :
  0 <= k -> 0 <= j ->
  Z.testbit (Z.lxor o (Z.shiftl 1 k)) j =
  if j =? k then negb (Z.testbit o j) else Z.testbit o j.
Proof.
  intros Hk Hj. rewrite Z.lxor_spec, Z.shiftl_1_l, Z.pow2_bits_eqb by assumption.
  rewrite (Z.eqb_sym k j). destruct (j =? k), (Z.testbit o j); reflexivity.
Qed.

Lemma flip_range (o k : Z) :
  0 <= o < 256 -> 0 <= k < 8 -> 0 <= Z.lxor o (Z.shiftl 1 k) < 256.
Proof.
  intros Ho Hk. change 256 with (2 ^ 8). apply lxor_lt_pow2; [lia|assumption|].
  rewrite Z.shiftl_1_l. split; [apply Z.pow_nonneg; lia|].
  apply Z.pow_lt_mono_r; lia.
Qed.

(** C5: for a valid [self], a target [d] in 0..159 and any random
    source, [generate_close_id] returns a valid identifier whose
    log-distance to [self] is [d].  Its bytes before the modified byte
    are those of [self]; the modified byte is the one with [d / 8] bytes
    after it; in it the bits above [d mod 8] are those of [self], bit
    [d mod 8] is flipped and the bits below are the next draws of the
    source; the bytes after it are the draws that follow.  For the
    target -1 the result is [self]. *)
Theorem generate_close_id_exact (fuel : nat) (self : Id) (d : Z) (g : rng) :
  (8 <= fuel)%nat -> valid self -> 0 <= d < 160 ->
  (exists r p c c' t s,
      generate_close_id self d g
      = (Ok r, advance (Z.to_nat (d mod 8) + Z.to_nat (d / 8)) g) /\
      log_distance fuel self r = Ok d /\
      valid r /\
      bin_id self = p ++ c :: t /\ bin_id r = p ++ c' :: s /\
      len t = d / 8 /\ len s = d / 8 /\
      (forall j, d mod 8 < j -> Z.testbit (ord c') j = Z.testbit (ord c) j) /\
      Z.testbit (ord c') (d mod 8) = negb (Z.testbit (ord c) (d mod 8)) /\
      (forall j, 0 <= j < d mod 8 ->
         Z.testbit (ord c') j = (draws g (pos g + Z.to_nat j) mod 2 =? 1)) /\
      (forall i, (i < Z.to_nat (d / 8))%nat ->
         nth_error s i =
         Some (byte_chr (draws g (pos g + Z.to_nat (d mod 8) + i) mod 256)))) /\
  generate_close_id self (-1) g = (Ok self, g).
Proof.
  intros Hf Hv Hd. split; [|reflexivity].
  destruct Hv as [Hlen Hcache]. fold (bin_id self) in Hlen.
  unfold ID_SIZE_BYTES in Hlen.
  pose proof (Z.mod_pos_bound d 8 ltac:(lia)) as Hbit.
  assert (Hbyte : 0 <= d / 8 < 20).
  { split; [apply Z.div_pos; lia|apply Z.div_lt_upper_bound; lia]. }
  pose proof (Z.div_mod d 8 ltac:(lia)) as Hdm.
  destruct (split_at (bin_id self) (20 - d / 8 - 1) ltac:(lia))
    as (p & c & t & Ebin & Hp).
  assert (Ht : len t = d / 8).
  { rewrite Ebin, len_app, len_cons in Hlen. lia. }
  pose proof (ord_range c) as Hc.
  pose proof (flip_range (ord c) (d mod 8) Hc Hbit) as Hv0.
  destruct (randomize_bits_run (Z.to_nat (d mod 8))
              (Z.lxor (ord c) (Z.shiftl 1 (d mod 8))) g Hv0 ltac:(lia))
    as (v & Hloop & Hvr & Hbits).
  rewrite Z2Nat.id in Hloop, Hbits by lia.
  destruct (random_str_run (Z.to_nat (d / 8)) (advance (Z.to_nat (d mod 8)) g))
    as (s & Hstr & Hslen & Hsnth).
  assert (Hs : len s = d / 8) by (unfold len; lia).
  assert (Hhigh : forall j, d mod 8 < j -> Z.testbit v j = Z.testbit (ord c) j).
  { intros j Hj. destruct (Z_lt_le_dec j 8).
    - rewrite Hbits by lia. destruct (Z.ltb_spec j (d mod 8)); [lia|].
      rewrite testbit_flip by lia. destruct (Z.eqb_spec j (d mod 8)); [lia|reflexivity].
    - now rewrite !testbit_byte_high by lia. }
  assert (Hflip : Z.testbit v (d mod 8) = negb (Z.testbit (ord c) (d mod 8))).
  { rewrite Hbits by lia. destruct (Z.ltb_spec (d mod 8) (d mod 8)); [lia|].
    rewrite testbit_flip by lia. now rewrite Z.eqb_refl. }
  assert (Hlog : Z.log2 (Z.lxor (ord c) v) = d mod 8).
  { apply log2_lxor_flipped; try assumption. intros j Hj. apply Hhigh. lia. }
  assert (Hne : c <> byte_chr v).
  { intros E. rewrite E, ord_byte_chr in Hflip by assumption.
    now destruct (Z.testbit v (d mod 8)). }
  set (r := mkId (p ++ byte_chr v :: s) None None).
  assert (Hrlen : len (p ++ byte_chr v :: s) = 20).
  { rewrite len_app, len_cons. lia. }
  exists r, p, c, (byte_chr v), t, s.
  rewrite ord_byte_chr by assumption.
  split; [|split; [|split; [|repeat split]]]; try assumption; try reflexivity.
  - unfold generate_close_id, ID_SIZE_BITS, ID_SIZE_BYTES, BITS_PER_BYTE.
    destruct (Z.ltb_spec d (20 * 8)); [|lia]. cbn [negb].
    destruct (Z.ltb_spec d 0); [lia|].
    replace (len (bin_id self) - d / 8 - 1) with (len p) by lia.
    rewrite Ebin. unfold lift at 1.
    rewrite (bind_ok _ _ _ _ _ (f_equal (fun x => (x, g)) (getitem_middle p c t))).
    rewrite (bind_ok _ _ _ _ _ Hloop).
    unfold lift at 1. unfold bind at 1. rewrite chr_byte by assumption.
    replace (Z.to_nat (20 - (len p + 1))) with (Z.to_nat (d / 8)) by lia.
    rewrite (bind_ok _ _ _ _ _ Hstr).
    rewrite slice_to_prefix. unfold lift. cbn [app].
    rewrite Id_init_bytes by exact Hrlen.
    now rewrite advance_advance.
  - rewrite (log_distance_differ fuel self r p c (byte_chr v) t s);
      try assumption; try reflexivity.
    + f_equal. rewrite ord_byte_chr, Hlog by assumption. lia.
    + unfold len in *. lia.
  - split; [exact Hrlen|]. split; simpl; intros ? ?; discriminate.
  - intros j Hj. rewrite Hbits by lia.
    destruct (Z.ltb_spec j (d mod 8)); [reflexivity|lia].
Qed.

(** ** Closeness ordering *)

(** *** Log-distance is total *)

Lemma first_different_byte_from_cases (s1 : str) : forall (s2 : str) (i : Z),
  _first_different_byte_from i s1 s2 = Raise IndexError \/
  (exists p c1 c2 t1 t2,
      s1 = p ++ c1 :: t1 /\ s2 = p ++ c2 :: t2 /\ c1 <> c2 /\
      _first_different_byte_from i s1 s2 = Ok (i + len p)).
Proof.
  induction s1 as [|c1 r1 IH]; intros [|c2 r2] i; simpl; auto.
  destruct (Ascii.eqb_spec c1 c2) as [->|Hne].
  - destruct (IH r2 (i + 1)) as [Hr|(p & d1 & d2 & t1 & t2 & -> & -> & Hd & Hr)];
      [now left|].
    right. exists (c2 :: p), d1, d2, t1, t2. repeat split; try assumption.
    rewrite Hr. f_equal. rewrite len_cons. lia.
  - right. exists [], c1, c2, r1, r2. repeat split; try assumption.
    f_equal. unfold len. simpl. lia.
Qed.

(** With fuel for 8 tests [log_distance] returns, whatever the lengths
    of the two buffers, and never more than 159. *)
Lemma log_distance_total (fuel : nat) (a b : Id) :
  (8 <= fuel)%nat -> exists n, log_distance fuel a b = Ok n /\ n <= 159.
Proof.
  intros Hf. unfold log_distance, _first_different_byte.
  destruct (first_different_byte_from_cases (bin_id a) (bin_id b) 0)
    as [->|(p & c1 & c2 & t1 & t2 & Ea & Eb & Hne & ->)].
  - exists (-1). split; [reflexivity|lia].
  - rewrite Z.add_0_l, Ea, Eb, !getitem_middle. cbn [rbind].
    rewrite first_different_bit_spec by assumption. cbn [rbind].
    eexists. split; [reflexivity|].
    pose proof (lxor_ord_nonzero c1 c2 Hne) as Hx.
    pose proof (byte_log2 (Z.lxor (ord c1) (ord c2)) ltac:(lia)).
    pose proof (len_nonneg p).
    unfold ID_SIZE_BYTES, BITS_PER_BYTE. lia.
Qed.

Lemma log_distance_dist (fuel : nat) (self x : Id) :
  (8 <= fuel)%nat ->
  log_distance fuel self x = Ok (dist fuel self x) /\ dist fuel self x <= 159.
Proof.
  intros Hf. unfold dist.
  destruct (log_distance_total fuel self x Hf) as (n & -> & Hn). auto.
Qed.

(** *** Lists *)

Lemma getitem_nth {A : Type} (l : list A) (n : nat) (x : A) :
  nth_error l n = Some x -> getitem l (Z.of_nat n) = Ok x.
Proof.
  intros H. unfold getitem.
  destruct (Z.ltb_spec (Z.of_nat n) 0); [lia|].
  destruct (Z.ltb_spec (Z.of_nat n) 0); [lia|].
  now rewrite Nat2Z.id, H.
Qed.

Lemma skipn_nth {A : Type} (l : list A) : forall (n : nat) (x : A),
  nth_error l n = Some x -> skipn n l = x :: skipn (S n) l.
Proof.
  induction l as [|y l IH]; intros [|n] x H; simpl in H; try discriminate.
  - now injection H as ->.
  - now apply IH.
Qed.

Lemma firstn_S_nth {A : Type} (l : list A) : forall (n : nat) (x : A),
  nth_error l n = Some x -> firstn (S n) l = firstn n l ++ [x].
Proof.
  induction l as [|y l IH]; intros [|n] x H; simpl in H; try discriminate.
  - now injection H as ->.
  - cbn [firstn app]. f_equal. now apply IH.
Qed.

(** *** The selection of the lowest distance *)

(** The loop keeps its state when no distance is below it, and otherwise
    selects the leftmost lowest distance. *)
Lemma lowest_from_spec (ds : list Z) : forall (j : Z) (oi : option Z) (ld : Z),
  (Forall (fun d => ld <= d) ds /\ lowest_from j ds (oi, ld) = (oi, ld)) \/
  (exists pre d post,
      ds = pre ++ d :: post /\ d < ld /\
      Forall (fun e => d < e) pre /\ Forall (fun e => d <= e) post /\
      lowest_from j ds (oi, ld) = (Some (j + len pre), d)).
Proof.
  induction ds as [|d0 r IH]; intros j oi ld.
  - left. split; [constructor|reflexivity].
  - cbn [lowest_from snd]. destruct (Z.ltb_spec d0 ld) as [Hlt|Hge].
    + right. destruct (IH (j + 1) (Some j) d0)
        as [[Hall ->]|(pre & d & post & -> & Hd & Hpre & Hpost & ->)].
      * exists [], d0, r. repeat split; auto. f_equal. f_equal.
        unfold len. simpl. lia.
      * exists (d0 :: pre), d, post. repeat split; auto; try lia.
        rewrite len_cons. do 2 f_equal. lia.
    + destruct (IH (j + 1) oi ld)
        as [[Hall ->]|(pre & d & post & -> & Hd & Hpre & Hpost & ->)].
      * left. split; [constructor; assumption|reflexivity].
      * right. exists (d0 :: pre), d, post. repeat split; auto.
        -- constructor; [lia|assumption].
        -- rewrite len_cons. do 2 f_equal. lia.
Qed.

(** On a list of keys [map k xs] that are all below the bound, the
    selection splits [xs] at the leftmost element of lowest key. *)
Lemma lowest_from_split (k : Id -> Z) (xs : list Id) (bound : Z) :
  xs <> [] -> Forall (fun y => k y < bound) xs ->
  exists pre x post,
    xs = pre ++ x :: post /\
    Forall (fun y => k x < k y) pre /\ Forall (fun y => k x <= k y) post /\
    lowest_from 0 (map k xs) (None, bound) = (Some (len pre), k x).
Proof.
  intros Hne Hb.
  destruct (lowest_from_spec (map k xs) 0 None bound)
    as [[Hall _]|(pre & d & post & E & Hd & Hpre & Hpost & ->)].
  - destruct xs as [|y xs]; [congruence|].
    inversion Hall; subst. inversion Hb; subst. lia.
  - apply map_eq_app in E as (pre' & rest & -> & <- & E).
    apply map_eq_cons in E as (x & post' & -> & <- & <-).
    exists pre', x, post'. split; [reflexivity|].
    rewrite !Forall_map in *. repeat split; try assumption.
    unfold len. now rewrite length_map, Z.add_0_l.
Qed.

(** *** Operations on the store *)

Lemma load_run (h : heap) (l : loc) (xs : list pyval) :
  h !! l = Some xs -> load l h = (Ok xs, h).
Proof. intros H. unfold load. now rewrite H. Qed.

Lemma list_len_run (h : heap) (l : loc) (xs : list pyval) :
  h !! l = Some xs -> list_len l h = (Ok (len xs), h).
Proof.
  intros H. unfold list_len. now rewrite (bind_ok _ _ _ _ _ (load_run h l xs H)).
Qed.

Lemma list_getitem_run (h : heap) (l : loc) (xs : list pyval) (i : Z) (x : pyval) :
  h !! l = Some xs -> getitem xs i = Ok x ->
  list_getitem l (Some i) h = (Ok x, h).
Proof.
  intros H Hx. unfold list_getitem.
  rewrite (bind_ok _ _ _ _ _ (load_run h l xs H)). unfold lift. now rewrite Hx.
Qed.

Lemma list_append_run (h : heap) (l : loc) (xs : list pyval) (v : pyval) :
  h !! l = Some xs -> list_append l v h = (Ok tt, <[l := xs ++ [v]]> h).
Proof.
  intros H. unfold list_append.
  now rewrite (bind_ok _ _ _ _ _ (load_run h l xs H)).
Qed.

Lemma list_del_run (h : heap) (l : loc) (p : list pyval) (x : pyval)
    (t : list pyval) :
  h !! l = Some (p ++ x :: t) ->
  list_del l (Some (len p)) h = (Ok tt, <[l := p ++ t]> h).
Proof.
  intros H. unfold list_del.
  rewrite (bind_ok _ _ _ _ _ (load_run h l _ H)).
  pose proof (len_nonneg p). pose proof (len_nonneg t).
  destruct (Z.ltb_spec (len p) 0); [lia|].
  destruct (Z.ltb_spec (len p) 0); [lia|].
  destruct (Z.leb_spec (len (p ++ x :: t)) (len p)) as [Hle|_].
  { rewrite len_app, len_cons in Hle. lia. }
  cbn [orb]. unfold store, len. rewrite Nat2Z.id.
  rewrite firstn_app, Nat.sub_diag, firstn_all. cbn [firstn]. rewrite app_nil_r.
  replace (S (length p)) with (length p + 1)%nat by lia.
  rewrite skipn_app, skipn_all2 by lia.
  replace (length p + 1 - length p)%nat with 1%nat by lia. reflexivity.
Qed.

Lemma new_list_run (h : heap) (xs : list pyval) :
  new_list xs h = (Ok (fresh (dom h)), <[fresh (dom h) := xs]> h).
Proof. reflexivity. Qed.

Lemma list_copy_run (h : heap) (l : loc) (xs : list pyval) :
  h !! l = Some xs ->
  list_copy l h = (Ok (fresh (dom h)), <[fresh (dom h) := xs]> h).
Proof.
  intros H. unfold list_copy.
  now rewrite (bind_ok _ _ _ _ _ (load_run h l xs H)).
Qed.

(** The inner loop reads the distances and changes nothing. *)
Lemma lower_loop_run (h : heap) (ldl : loc) (ds : list Z) :
  h !! ldl = Some (map VInt ds) ->
  forall (k s : nat) (st : option Z * Z),
    (s + k <= length ds)%nat ->
    for_fold (map Z.of_nat (seq s k)) (lower ldl) st h =
    (Ok (lowest_from (Z.of_nat s) (firstn k (skipn s ds)) st), h).
Proof.
  intros Hl. induction k as [|k IH]; intros s st Hk; [reflexivity|].
  destruct (nth_error ds s) as [d|] eqn:Ed;
    [|apply nth_error_None in Ed; lia].
  rewrite (skipn_nth ds s d Ed). cbn [seq map for_fold firstn lowest_from].
  assert (Hstep : lower ldl (Z.of_nat s) st h =
                  (Ok (if d <? snd st then (Some (Z.of_nat s), d) else st), h)).
  { destruct st as [oi ld]. unfold lower.
    rewrite (bind_ok _ _ _ _ _
               (list_getitem_run h ldl _ (Z.of_nat s) (VInt d) Hl
                  (getitem_nth _ s _ (map_nth_error VInt s ds Ed)))).
    unfold lift at 1. unfold bind at 1. cbn [as_int snd].
    destruct (d <? ld); reflexivity. }
  rewrite (bind_ok _ _ _ _ _ Hstep), IH by lia.
  now rewrite Nat2Z.inj_succ, Z.add_1_r.
Qed.

(** *** The rounds of the selection *)

Lemma stable_sorted_nil (k : Id -> Z) : stable_sorted k [] [].
Proof. repeat split; constructor. Qed.

(** Moving the leftmost element of lowest key to the front of the
    sorted rest. *)
Lemma stable_sorted_select (k : Id -> Z) (pre post out : list Id) (x : Id) :
  Forall (fun y => k x < k y) pre -> Forall (fun y => k x <= k y) post ->
  stable_sorted k (pre ++ post) out ->
  stable_sorted k (pre ++ x :: post) (x :: out).
Proof.
  intros Hpre Hpost (Hperm & Hsort & Hstable). split; [|split].
  - symmetry. apply Permutation_cons_app. now symmetry.
  - constructor; [assumption|].
    eapply Permutation_Forall; [exact Hperm|].
    apply List.Forall_app. split; [|assumption].
    eapply List.Forall_impl; [|exact Hpre]. simpl. intros. lia.
  - intros d. cbn [List.filter]. rewrite Hstable, !List.filter_app. cbn [List.filter].
    destruct (Z.eqb_spec (k x) d) as [E|_]; [|reflexivity].
    assert (Hnone : List.filter (fun y => k y =? d) pre = []).
    { clear - Hpre E. induction Hpre as [|y l Hy _ IH]; [reflexivity|].
      cbn [List.filter]. destruct (Z.eqb_spec (k y) d); [lia|assumption]. }
    now rewrite Hnone.
Qed.

Section Rounds.

Variable k : Id -> Z.
Variable h0 : heap.
Variables id_list_copy log_distance_list result : loc.
Hypothesis copy_ldl : id_list_copy <> log_distance_list.
Hypothesis copy_res : id_list_copy <> result.
Hypothesis ldl_res : log_distance_list <> result.
Hypothesis k_bound : forall x, k x < ID_SIZE_BITS + 1.

(** The store between two rounds: the three lists of [order_closest]
    hold the remaining identifiers, their distances and the identifiers
    selected so far; every other location is as in [h0]. *)
Definition round_inv (h : heap) (xs acc : list Id) : Prop :=
  h !! id_list_copy = Some (map VId xs) /\
  h !! log_distance_list = Some (map VInt (map k xs)) /\
  h !! result = Some (map VId acc) /\
  forall l, l <> id_list_copy -> l <> log_distance_list -> l <> result ->
            h !! l = h0 !! l.

Lemma select_round_run (h : heap) (xs acc : list Id) (i : Z) :
  xs <> [] -> round_inv h xs acc ->
  exists pre x post h',
    xs = pre ++ x :: post /\
    Forall (fun y => k x < k y) pre /\ Forall (fun y => k x <= k y) post /\
    select_round id_list_copy log_distance_list result (ID_SIZE_BITS + 1) i tt h
    = (Ok tt, h') /\
    round_inv h' (pre ++ post) (acc ++ [x]).
Proof.
  intros Hne (Hc & Hd & Hr & Hframe).
  destruct (lowest_from_split k xs (ID_SIZE_BITS + 1) Hne)
    as (pre & x & post & -> & Hpre & Hpost & Hlow).
  { apply Forall_forall. intros y _. apply k_bound. }
  exists pre, x, post. eexists. split; [reflexivity|].
  split; [assumption|]. split; [assumption|].
  unfold select_round.
  rewrite (bind_ok _ _ _ _ _ (list_len_run h _ _ Hc)).
  unfold range, len. rewrite Nat2Z.id, length_map.
  rewrite (bind_ok _ _ _ _ _
             (lower_loop_run h _ _ Hd (length (pre ++ x :: post)) 0 _
                ltac:(rewrite length_map; lia))).
  rewrite skipn_O, <- (length_map k), firstn_all.
  change (Z.of_nat 0) with 0. rewrite Hlow. cbn [fst].
  assert (Hlen : len pre = len (map VId pre)) by (unfold len; now rewrite length_map).
  assert (Hget : getitem (map VId (pre ++ x :: post)) (len pre) = Ok (VId x)).
  { rewrite map_app, Hlen. cbn [map]. apply getitem_middle. }
  rewrite (bind_ok _ _ _ _ _ (list_getitem_run h _ _ _ _ Hc Hget)).
  rewrite (bind_ok _ _ _ _ _ (list_append_run h _ _ (VId x) Hr)).
  set (h1 := <[result := map VId acc ++ [VId x]]> h).
  assert (Hd1 : h1 !! log_distance_list
                = Some (map VInt (map k pre) ++ VInt (k x) :: map VInt (map k post))).
  { unfold h1. rewrite lookup_insert_ne by congruence.
    rewrite Hd, !map_app. reflexivity. }
  assert (Hlen' : len pre = len (map VInt (map k pre)))
    by (unfold len; now rewrite !length_map).
  rewrite Hlen' at 1.
  rewrite (bind_ok _ _ _ _ _ (list_del_run h1 _ _ _ _ Hd1)).
  set (h2 := <[log_distance_list := _]> h1).
  assert (Hc2 : h2 !! id_list_copy
                = Some (map VId pre ++ VId x :: map VId post)).
  { unfold h2, h1. rewrite !lookup_insert_ne by congruence.
    rewrite Hc, map_app. reflexivity. }
  rewrite Hlen. rewrite (list_del_run h2 _ _ _ _ Hc2).
  split; [reflexivity|]. unfold round_inv, h2, h1.
  split; [|split; [|split]].
  - rewrite lookup_insert_eq. now rewrite map_app.
  - rewrite lookup_insert_ne, lookup_insert_eq by congruence.
    now rewrite !map_app.
  - rewrite !lookup_insert_ne, lookup_insert_eq by congruence.
    now rewrite map_app.
  - intros l H1 H2 H3. rewrite !lookup_insert_ne by congruence.
    now apply Hframe.
Qed.

Lemma rounds_run (n : nat) : forall (js : list Z) (xs acc : list Id) (h : heap),
  length js = n -> length xs = n -> round_inv h xs acc ->
  exists out h',
    for_fold js
      (select_round id_list_copy log_distance_list result (ID_SIZE_BITS + 1))
      tt h = (Ok tt, h') /\
    round_inv h' [] (acc ++ out) /\
    stable_sorted k xs out.
Proof.
  induction n as [|n IH]; intros js xs acc h His Hxs Hinv.
  - destruct js; [|discriminate]. destruct xs; [|discriminate].
    exists [], h. rewrite app_nil_r. split; [reflexivity|].
    split; [assumption|apply stable_sorted_nil].
  - destruct js as [|i js]; [discriminate|].
    destruct (select_round_run h xs acc i) as
      (pre & x & post & h1 & -> & Hpre & Hpost & Hrun & Hinv1);
      [destruct xs; [discriminate|congruence]|assumption|].
    destruct (IH js (pre ++ post) (acc ++ [x]) h1) as (out & h2 & Hrest & Hinv2 & Hss).
    { simpl in His. lia. }
    { rewrite length_app in *. simpl in Hxs. lia. }
    { assumption. }
    exists (x :: out), h2. cbn [for_fold]. rewrite (bind_ok _ _ _ _ _ Hrun).
    split; [assumption|]. split.
    + now rewrite <- app_assoc in Hinv2.
    + now apply stable_sorted_select.
Qed.

End Rounds.

(** *** The first loop: the list of distances *)

Lemma for_in_run (fuel0 : nat) (self : Id) (id_list ldl : loc) (S : list Id) :
  id_list <> ldl -> (8 <= fuel0)%nat ->
  forall (fuel i : nat) (h : heap),
    (length S - i < fuel)%nat -> (i <= length S)%nat ->
    h !! id_list = Some (map VId S) ->
    h !! ldl = Some (map VInt (map (dist fuel0 self) (firstn i S))) ->
    for_in fuel id_list i
      (fun element =>
         let! e := lift (as_id element) in
         let! d := lift (log_distance fuel0 self e) in
         list_append ldl (VInt d)) h
    = (Ok tt, <[ldl := map VInt (map (dist fuel0 self) S)]> h).
Proof.
  intros Hne Hf0. induction fuel as [|fuel IH]; intros i h Hfuel Hi Hl Hd; [lia|].
  cbn [for_in]. rewrite (bind_ok _ _ _ _ _ (load_run h _ _ Hl)).
  destruct (nth_error S i) as [x|] eqn:Ex.
  - rewrite (map_nth_error VId i S Ex).
    assert (Hlt : (i < length S)%nat) by (apply nth_error_Some; congruence).
    unfold lift at 1. unfold bind at 2. cbn [as_id].
    unfold lift at 1. unfold bind at 2.
    destruct (log_distance_dist fuel0 self x Hf0) as [-> _].
    unfold bind at 1. rewrite (list_append_run h _ _ _ Hd).
    rewrite (IH (Datatypes.S i)); try lia.
    + now rewrite insert_insert_eq.
    + now rewrite lookup_insert_ne by congruence.
    + rewrite lookup_insert_eq, (firstn_S_nth S i x Ex), !map_app. reflexivity.
  - assert (Hge : (length S <= i)%nat) by (now apply nth_error_None).
    assert (Enone : nth_error (map VId S) i = None).
    { apply nth_error_None. now rewrite length_map. }
    rewrite Enone. unfold ret. f_equal. symmetry. apply insert_id.
    rewrite Hd. now rewrite firstn_all2 by lia.
Qed.

(** *** The whole of [order_closest] *)

(** On a store that has the list [S] at [id_list], with fuel for the
    walk over [S] and for the bit scans, [order_closest] returns a new
    list, the stable sort of [S] by distance to [self], and leaves every
    list of the store as it was. *)
Lemma order_closest_run (fuel : nat) (self : Id) (id_list : loc) (h : heap)
    (S : list Id) :
  (8 <= fuel)%nat -> (length S < fuel)%nat ->
  h !! id_list = Some (map VId S) ->
  exists res out h',
    order_closest fuel self id_list h = (Ok res, h') /\
    h !! res = None /\
    h' !! res = Some (map VId out) /\
    (forall l xs, h !! l = Some xs -> h' !! l = Some xs) /\
    stable_sorted (dist fuel self) S out.
Proof.
  intros Hf HS Hl. unfold order_closest.
  set (copy := fresh (dom h)).
  set (h1 := <[copy := map VId S]> h).
  set (ldl := fresh (dom h1)).
  set (h2 := <[ldl := []]> h1).
  set (h3 := <[ldl := map VInt (map (dist fuel self) S)]> h2).
  set (res := fresh (dom h3)).
  set (h4 := <[res := []]> h3).
  assert (Hcopy : h !! copy = None) by (apply not_elem_of_dom, is_fresh).
  assert (Hldl : h1 !! ldl = None) by (apply not_elem_of_dom, is_fresh).
  assert (Hres : h3 !! res = None) by (apply not_elem_of_dom, is_fresh).
  assert (Ecl : copy <> ldl).
  { intros E. unfold h1 in Hldl. rewrite <- E, lookup_insert_eq in Hldl. discriminate. }
  assert (Elr : ldl <> res).
  { intros E. unfold h3 in Hres. rewrite <- E, lookup_insert_eq in Hres. discriminate. }
  assert (Ecr : copy <> res).
  { intros E. unfold h3, h2, h1 in Hres.
    rewrite <- E, lookup_insert_ne, lookup_insert_ne, lookup_insert_eq in Hres
      by congruence. discriminate. }
  assert (Hldl0 : h !! ldl = None).
  { unfold h1 in Hldl. now rewrite lookup_insert_ne in Hldl by congruence. }
  assert (Hres0 : h !! res = None).
  { unfold h3, h2, h1 in Hres. now rewrite !lookup_insert_ne in Hres by congruence. }
  assert (Eil : id_list <> ldl) by congruence.
  assert (Eic : id_list <> copy) by congruence.
  assert (Eir : id_list <> res) by congruence.
  rewrite (bind_ok _ _ _ _ _ (list_copy_run h _ _ Hl)). fold copy. fold h1.
  rewrite (bind_ok _ _ _ _ _ (new_list_run h1 [])). fold ldl. fold h2.
  assert (Hl2 : h2 !! id_list = Some (map VId S)).
  { unfold h2, h1. now rewrite !lookup_insert_ne by congruence. }
  rewrite (bind_ok _ _ _ _ _
             (for_in_run fuel self id_list ldl S Eil Hf fuel 0 h2
                ltac:(lia) ltac:(lia) Hl2
                ltac:(unfold h2; now rewrite lookup_insert_eq))).
  fold h3. rewrite (bind_ok _ _ _ _ _ (new_list_run h3 [])). fold res. fold h4.
  assert (Hl4 : h4 !! id_list = Some (map VId S)).
  { unfold h4, h3. now rewrite !lookup_insert_ne by congruence. }
  rewrite (bind_ok _ _ _ _ _ (list_len_run h4 _ _ Hl4)).
  assert (Hinv : round_inv (dist fuel self) h copy ldl res h4 S []).
  { unfold round_inv, h4, h3, h2, h1. split; [|split; [|split]].
    - now rewrite !lookup_insert_ne, lookup_insert_eq by congruence.
    - now rewrite lookup_insert_ne, lookup_insert_eq by congruence.
    - now rewrite lookup_insert_eq.
    - intros l H1 H2 H3. now rewrite !lookup_insert_ne by congruence. }
  destruct (rounds_run (dist fuel self) h copy ldl res Ecl Ecr Elr
              ltac:(intros x; destruct (log_distance_dist fuel self x Hf);
                    unfold ID_SIZE_BITS, ID_SIZE_BYTES, BITS_PER_BYTE; lia)
              (length S) (range (len (map VId S))) S [] h4
              ltac:(rewrite range_length; unfold len; now rewrite Nat2Z.id, length_map)
              eq_refl Hinv)
    as (out & h' & Hrun & (_ & _ & Hr' & Hframe) & Hss).
  rewrite (bind_ok _ _ _ _ _ Hrun). unfold ret.
  exists res, out, h'. split; [reflexivity|]. split; [assumption|].
  split; [assumption|]. split; [|assumption].
  intros l xs Hlx. rewrite Hframe by congruence. assumption.
Qed.

Lemma StronglySorted_impl {A : Type} (R R' : A -> A -> Prop) (l : list A) :
  (forall a b, R a b -> R' a b) -> StronglySorted R l -> StronglySorted R' l.
Proof.
  intros HR Hs. induction Hs as [|a l Hs IH Hall]; constructor; [assumption|].
  eapply List.Forall_impl; [|exact Hall]. intros b. apply HR.
Qed.

(** C6: on a store with the list [S] at [id_list], [order_closest]
    returns a new list [out] that holds the identifiers of [S]
    (a permutation), in non-decreasing log-distance to [r], and for every
    distance [d] the identifiers at distance [d] are in [out] in the
    order they have in [S]. *)
Theorem order_closest_sorted_stable (fuel : nat) (r : Id) (id_list : loc)
    (h : heap) (S : list Id) :
  (8 <= fuel)%nat -> (length S < fuel)%nat ->
  h !! id_list = Some (map VId S) ->
  exists res out h',
    order_closest fuel r id_list h = (Ok res, h') /\
    h' !! res = Some (map VId out) /\
    Permutation S out /\
    StronglySorted (closer_or_equal fuel r) out /\
    forall d, List.filter (at_distance fuel r d) out
              = List.filter (at_distance fuel r d) S.
Proof.
  intros Hf HS Hl.
  destruct (order_closest_run fuel r id_list h S Hf HS Hl)
    as (res & out & h' & Hrun & _ & Hres & _ & Hperm & Hsort & Hstable).
  exists res, out, h'. repeat split; try assumption.
  - eapply StronglySorted_impl; [|exact Hsort]. intros a b Hab.
    exists (dist fuel r a), (dist fuel r b).
    destruct (log_distance_dist fuel r a Hf) as [-> _].
    destruct (log_distance_dist fuel r b Hf) as [-> _]. auto.
  - intros d.
    assert (E : forall l, List.filter (at_distance fuel r d) l
                          = List.filter (fun y => dist fuel r y =? d) l).
    { intros l. apply List.filter_ext. intros x. unfold at_distance.
      now destruct (log_distance_dist fuel r x Hf) as [-> _]. }
    rewrite !E. apply Hstable.
Qed.

(** C9: after [order_closest] the list at [id_list] holds the same
    elements in the same order, as does every list the store had before
    the call; the list returned is a new one. *)
Theorem order_closest_input_unchanged (fuel : nat) (r : Id) (id_list : loc)
    (h : heap) (S : list Id) :
  (8 <= fuel)%nat -> (length S < fuel)%nat ->
  h !! id_list = Some (map VId S) ->
  exists res h',
    order_closest fuel r id_list h = (Ok res, h') /\
    h' !! id_list = Some (map VId S) /\
    h !! res = None /\
    forall l xs, h !! l = Some xs -> h' !! l = Some xs.
Proof.
  intros Hf HS Hl.
  destruct (order_closest_run fuel r id_list h S Hf HS Hl)
    as (res & out & h' & Hrun & Hnew & _ & Hframe & _).
  exists res, h'. repeat split; try assumption. now apply Hframe.
Qed.

(** ** Construction from an integer, when it succeeds *)

Lemma plain_digit_table (c : ascii) : plain_digit_ok c = true.
Proof.
  destruct c as [[] [] [] [] [] [] [] []]; vm_compute; reflexivity.
Qed.

(** A string that [b16decode] accepts without folding the case has no
    lowercase letter, and is decoded the same with folding. *)
Lemma b16decode_plain_upper (h b : str) :
  b16decode h false = Ok b -> upper h = h.
Proof.
  unfold b16decode. intros H.
  destruct (existsb (fun c => negb (is_b16 c)) h) eqn:Ex; [discriminate|].
  clear H. induction h as [|c h IH]; [reflexivity|].
  cbn [existsb] in Ex. apply orb_false_elim in Ex as [Hc Ex].
  apply negb_false_iff in Hc. cbn [upper map]. fold (upper h).
  rewrite (IH Ex). f_equal.
  pose proof (plain_digit_table c) as T. unfold plain_digit_ok in T.
  rewrite Hc in T. now apply Ascii.eqb_eq.
Qed.

Lemma b16decode_casefold (h b : str) :
  b16decode h false = Ok b -> b16decode h true = Ok b.
Proof.
  intros H. pose proof (b16decode_plain_upper h b H) as Eu.
  unfold b16decode in *. now rewrite Eu.
Qed.

(** Only a hexadecimal string given with lowercase letters leaves an
    identifier with a lowercase hexadecimal form. *)
Lemma Id_init_no_lowercase (x : pyobj) (a : Id) :
  Id_init x = Ok a ->
  match x with
  | PyStr s => len s = ID_SIZE_BYTES \/ upper s = s
  | _ => True
  end ->
  no_lowercase a.
Proof.
  unfold Id_init, Id_fields. intros H Hx h Eh. destruct x as [s|n|].
  - destruct (Z.eqb_spec (len s) ID_SIZE_BYTES) as [E20|N20].
    + simpl in H. destruct s; [discriminate|]. injection H as <-. discriminate.
    + destruct (len s =? ID_SIZE_BYTES * 2); [|discriminate].
      destruct (_hex_to_bin s) as [b|e]; [|discriminate].
      simpl in H. destruct b; [discriminate|]. injection H as <-.
      simpl in Eh. injection Eh as <-. destruct Hx; [contradiction|assumption].
  - destruct (b16decode (format_040x n) false) as [b|e] eqn:Ed; [|discriminate].
    simpl in H. destruct b; [discriminate|]. injection H as <-.
    simpl in Eh. injection Eh as <-. now apply (b16decode_plain_upper _ _ Ed).
  - discriminate.
Qed.

Lemma hexval_hexdigit (d : Z) : 0 <= d < 16 -> hexval (hexdigit d) = Some d.
Proof.
  intros Hd.
  assert (d = 0 \/ d = 1 \/ d = 2 \/ d = 3 \/ d = 4 \/ d = 5 \/ d = 6 \/ d = 7 \/
          d = 8 \/ d = 9 \/ d = 10 \/ d = 11 \/ d = 12 \/ d = 13 \/ d = 14 \/ d = 15)
    as H by lia.
  repeat (destruct H as [->|H]; [reflexivity|]). subst. reflexivity.
Qed.

Lemma int16_from_app (l1 l2 : str) : forall acc : Z,
  int16_from acc (l1 ++ l2) =
  match int16_from acc l1 with
  | Ok a => int16_from a l2
  | Raise e => Raise e
  end.
Proof.
  induction l1 as [|c l1 IH]; intros acc; [reflexivity|].
  cbn [app int16_from]. destruct (hexval c); [apply IH|reflexivity].
Qed.

Lemma int16_from_hex_digits (k : nat) : forall n acc : Z,
  0 <= n ->
  int16_from acc (hex_digits k n) = Ok (acc * 16 ^ Z.of_nat k + n mod 16 ^ Z.of_nat k).
Proof.
  induction k as [|k IH]; intros n acc Hn.
  - simpl. f_equal. rewrite Z.mod_1_r. lia.
  - cbn [hex_digits]. rewrite int16_from_app, IH by (apply Z.div_pos; lia).
    cbn [int16_from]. rewrite hexval_hexdigit by (apply Z.mod_pos_bound; lia).
    f_equal. rewrite Nat2Z.inj_succ, Z.pow_succ_r by lia.
    assert (Hp : 0 < 16 ^ Z.of_nat k) by (apply Z.pow_pos_nonneg; lia).
    rewrite Z.rem_mul_r by lia. ring.
Qed.

Lemma hex_digits_length (k : nat) : forall n : Z, length (hex_digits k n) = k.
Proof.
  induction k as [|k IH]; intros n; [reflexivity|].
  cbn [hex_digits]. rewrite length_app, IH. simpl. lia.
Qed.

Lemma hex_width_bound (n : Z) : 0 <= n -> n < 16 ^ Z.of_nat (hex_width n).
Proof.
  intros Hn. unfold hex_width. destruct (Z.eqb_spec n 0) as [->|Hz]; [reflexivity|].
  pose proof (Z.log2_nonneg n) as Hl.
  pose proof (Z.log2_spec n ltac:(lia)) as [_ Hup].
  assert (Hq : 0 <= Z.log2 n / 4) by (apply Z.div_pos; lia).
  rewrite Z2Nat.id by lia. change 16 with (2 ^ 4).
  rewrite <- Z.pow_mul_r by lia.
  eapply Z.lt_le_trans; [exact Hup|]. apply Z.pow_le_mono_r; [lia|].
  pose proof (Z.div_mod (Z.log2 n) 4 ltac:(lia)).
  pose proof (Z.mod_pos_bound (Z.log2 n) 4 ltac:(lia)). lia.
Qed.

Lemma hex_width_small (n : Z) : 0 <= n < 2 ^ 160 -> (hex_width n <= 40)%nat.
Proof.
  intros Hn. unfold hex_width. destruct (Z.eqb_spec n 0) as [->|Hz]; [lia|].
  assert (Hl : Z.log2 n < 160) by (apply Z.log2_lt_pow2; lia).
  pose proof (Z.log2_nonneg n).
  assert (Z.log2 n / 4 < 40) by (apply Z.div_lt_upper_bound; lia).
  assert (0 <= Z.log2 n / 4) by (apply Z.div_pos; lia). lia.
Qed.

(** When construction from an integer succeeds, the integer is not
    negative, the buffer is its big-endian encoding and the caches are
    coherent; below 2^160 the buffer has 20 bytes. *)
Lemma Id_init_int_ok (n : Z) (a : Id) :
  Id_init (PyInt n) = Ok a ->
  0 <= n /\ be_value (bin_id a) = n /\ cache_ok a /\
  fst (Id_int a) = Ok n /\
  (n < 2 ^ 160 -> valid a).
Proof.
  unfold Id_init, Id_fields, format_040x. intros H.
  destruct (Z.ltb_spec n 0) as [Hneg|Hn]; [discriminate|].
  set (K := Nat.max 40 (hex_width n)) in *.
  destruct (b16decode (hex_digits K n) false) as [b|e] eqn:Ed; [|discriminate].
  simpl in H. destruct b as [|c0 b0] eqn:Eb; [discriminate|].
  injection H as <-. rewrite <- Eb in *.
  pose proof (b16decode_casefold _ _ Ed) as Ed'.
  destruct (b16decode_int16 _ _ Ed') as [Hv Hl].
  rewrite int16_from_hex_digits in Hv by assumption.
  rewrite Z.mod_small in Hv.
  2:{ split; [assumption|]. eapply Z.lt_le_trans; [apply hex_width_bound; assumption|].
      apply Z.pow_le_mono_r; lia. }
  injection Hv as Hv. unfold bin_id. cbn [_bin].
  assert (Hc : cache_ok (mkId b (Some (hex_digits K n)) (Some n))).
  { split; cbn [_hex _int _bin]; intros ? E; injection E as <-; [assumption|lia]. }
  split; [assumption|]. split; [lia|]. split; [exact Hc|]. split.
  - rewrite Id_int_cache_ok; [cbn [_bin]; f_equal; lia|exact Hc|].
    cbn [_bin]. rewrite Eb. discriminate.
  - intros Hsmall. split; [|exact Hc]. cbn [_bin].
    rewrite hex_digits_length in Hl.
    pose proof (hex_width_small n ltac:(lia)).
    unfold len, ID_SIZE_BYTES. lia.
Qed.

(** When [distance] succeeds, its result is a valid identifier whose
    integer form is the XOR of the two integer forms. *)
Lemma distance_ok_xor (a b r : Id) :
  valid a -> valid b -> distance a b = Ok r ->
  valid r /\ be_value (bin_id r) = Z.lxor (be_value (bin_id a)) (be_value (bin_id b)).
Proof.
  intros Ha Hb. unfold distance. rewrite (xor_int_valid a b Ha Hb). cbn [rbind].
  intros H. destruct (Id_init_int_ok _ _ H) as (_ & Hv & _ & _ & Hvalid).
  split; [|exact Hv]. apply Hvalid.
  assert (Hr : forall x, valid x -> 0 <= be_value (_bin x) < 2 ^ 160).
  { intros x [Hl _]. pose proof (be_value_range (_bin x)) as R.
    rewrite Hl, pow256_pow2 in R by (unfold ID_SIZE_BYTES; lia). exact R. }
  apply (lxor_lt_pow2 160); [lia|now apply Hr|now apply Hr].
Qed.

(** The distance of an identifier to itself is the all-zero identifier. *)
Lemma distance_self (a : Id) :
  valid a ->
  distance a a = Ok (mkId (repeat zero 20) (Some (repeat "0"%char 40)) (Some 0)).
Proof.
  intros Ha. unfold distance. rewrite (xor_int_valid a a Ha Ha), Z.lxor_nilpotent.
  vm_compute. reflexivity.
Qed.

(** ** The theorems at concrete inputs *)

Lemma valid_bytes (s : str) : len s = ID_SIZE_BYTES -> valid (mkId s None None).
Proof.
  intros H. split; [exact H|]. split; simpl; intros ? ?; discriminate.
Qed.

(** C4 at the all-zero identifier and the identifier of value 1. *)
Lemma log_distance_correct_witness :
  (8 <= 8)%nat /\ valid (id_low 0) /\ valid (id_low 1) /\
  exists n x,
    log_distance 8 (id_low 0) (id_low 1) = Ok n /\
    xor_int (id_low 0) (id_low 1) = Ok x /\
    (n = -1 <-> Id_eq (id_low 0) (id_low 1) = true) /\
    (Id_eq (id_low 0) (id_low 1) = false ->
       0 <= n <= 159 /\ 2 ^ n <= x < 2 ^ (n + 1) /\
       exists p c1 c2 t1 t2,
         bin_id (id_low 0) = p ++ c1 :: t1 /\
         bin_id (id_low 1) = p ++ c2 :: t2 /\ c1 <> c2 /\
         n = len t1 * 8 + Z.log2 (Z.lxor (ord c1) (ord c2))) /\
    (x = 1 -> n = 0) /\
    (Z.testbit x 159 = true -> n = 159).
Proof.
  split; [lia|]. split; [apply valid_bytes; reflexivity|].
  split; [apply valid_bytes; reflexivity|].
  apply (log_distance_correct 8 (id_low 0) (id_low 1));
    [lia|apply valid_bytes; reflexivity|apply valid_bytes; reflexivity].
Defined.

(** C10 at the all-zero identifier and the identifier of value 6. *)
Lemma log_distance_terminates_witness :
  (8 <= 8)%nat /\ valid (id_low 0) /\ valid (id_low 6) /\
  (exists n, log_distance 8 (id_low 0) (id_low 6) = Ok n) /\
  (bin_id (id_low 0) = bin_id (id_low 6) ->
     log_distance 0 (id_low 0) (id_low 6) = Ok (-1)) /\
  (forall byte_i c1 c2,
      _first_different_byte (bin_id (id_low 0)) (bin_id (id_low 6)) = Ok byte_i ->
      getitem (bin_id (id_low 0)) byte_i = Ok c1 ->
      getitem (bin_id (id_low 6)) byte_i = Ok c2 ->
      Z.lxor (ord c1) (ord c2) <> 0 /\
      exists i, bit_scan 8 (Z.lxor (ord c1) (ord c2)) 0 = Ok i /\ 0 <= i <= 7).
Proof.
  split; [lia|]. split; [apply valid_bytes; reflexivity|].
  split; [apply valid_bytes; reflexivity|].
  apply (log_distance_terminates 8 (id_low 0) (id_low 6));
    [lia|apply valid_bytes; reflexivity|apply valid_bytes; reflexivity].
Defined.

(** C8 (amended) at the identifier built from forty [f] and the one
    built from twenty bytes 255. *)
Lemma equal_ids_same_forms_witness :
  valid id_ff /\ valid id_255 /\ Id_eq id_ff id_255 = true /\
  fst (Id_int id_ff) = fst (Id_int id_255) /\
  upper (fst (Id_hex id_ff)) = upper (fst (Id_hex id_255)) /\
  upper (fst (Id_hex id_ff)) = b16encode (bin_id id_ff) /\
  (no_lowercase id_ff -> no_lowercase id_255 ->
   fst (Id_hex id_ff) = fst (Id_hex id_255)).
Proof.
  assert (Hff : valid id_ff).
  { apply (Id_init_str_valid (repeat "f"%char 40)). vm_compute. reflexivity. }
  split; [exact Hff|]. split; [apply valid_bytes; reflexivity|].
  split; [vm_compute; reflexivity|].
  apply (equal_ids_same_forms id_ff id_255).
  - exact Hff.
  - apply valid_bytes. reflexivity.
  - vm_compute. reflexivity.
Defined.

(** C5 at the all-zero identifier and the target 9. *)
Lemma generate_close_id_exact_witness :
  (8 <= 8)%nat /\ valid (id_low 0) /\ 0 <= 9 < 160 /\
  (exists r p c c' t s,
      generate_close_id (id_low 0) 9 rng0
      = (Ok r, advance (Z.to_nat (9 mod 8) + Z.to_nat (9 / 8)) rng0) /\
      log_distance 8 (id_low 0) r = Ok 9 /\
      valid r /\
      bin_id (id_low 0) = p ++ c :: t /\ bin_id r = p ++ c' :: s /\
      len t = 9 / 8 /\ len s = 9 / 8 /\
      (forall j, 9 mod 8 < j -> Z.testbit (ord c') j = Z.testbit (ord c) j) /\
      Z.testbit (ord c') (9 mod 8) = negb (Z.testbit (ord c) (9 mod 8)) /\
      (forall j, 0 <= j < 9 mod 8 ->
         Z.testbit (ord c') j = (draws rng0 (pos rng0 + Z.to_nat j) mod 2 =? 1)) /\
      (forall i, (i < Z.to_nat (9 / 8))%nat ->
         nth_error s i =
         Some (byte_chr (draws rng0 (pos rng0 + Z.to_nat (9 mod 8) + i) mod 256)))) /\
  generate_close_id (id_low 0) (-1) rng0 = (Ok (id_low 0), rng0).
Proof.
  split; [lia|]. split; [apply valid_bytes; reflexivity|]. split; [lia|].
  apply (generate_close_id_exact 8 (id_low 0) 9 rng0);
    [lia|apply valid_bytes; reflexivity|lia].
Defined.

(** C6 on a store with a list of six identifiers. *)
Lemma order_closest_sorted_stable_witness :
  (8 <= 10)%nat /\ (length ids0 < 10)%nat /\
  heap0 !! 5%positive = Some (map VId ids0) /\
  exists res out h',
    order_closest 10 (id_low 0) 5%positive heap0 = (Ok res, h') /\
    h' !! res = Some (map VId out) /\
    Permutation ids0 out /\
    StronglySorted (closer_or_equal 10 (id_low 0)) out /\
    forall d, List.filter (at_distance 10 (id_low 0) d) out
              = List.filter (at_distance 10 (id_low 0) d) ids0.
Proof.
  split; [lia|]. split; [simpl; lia|]. split; [reflexivity|].
  apply (order_closest_sorted_stable 10 (id_low 0) 5%positive heap0 ids0);
    [lia|simpl; lia|reflexivity].
Defined.

(** C9 on the same store. *)
Lemma order_closest_input_unchanged_witness :
  (8 <= 10)%nat /\ (length ids0 < 10)%nat /\
  heap0 !! 5%positive = Some (map VId ids0) /\
  exists res h',
    order_closest 10 (id_low 0) 5%positive heap0 = (Ok res, h') /\
    h' !! 5%positive = Some (map VId ids0) /\
    heap0 !! res = None /\
    forall l xs, heap0 !! l = Some xs -> h' !! l = Some xs.
Proof.
  split; [lia|]. split; [simpl; lia|]. split; [reflexivity|].
  apply (order_closest_input_unchanged 10 (id_low 0) 5%positive heap0 ids0);
    [lia|simpl; lia|reflexivity].
Defined.

(** ** The examples of the source *)

Example doctest_log_distance :
  let z := id_low 0 in
  log_distance 8 z z = Ok (-1) /\
  log_distance 8 z (id_low 1) = Ok 0 /\
  log_distance 8 z (id_low 2) = Ok 1 /\
  log_distance 8 z (id_low 3) = Ok 1 /\
  log_distance 8 z (id_low 4) = Ok 2 /\
  log_distance 8 z (id_low 5) = Ok 2 /\
  log_distance 8 z (id_low 6) = Ok 2 /\
  log_distance 8 z (id_low 7) = Ok 2 /\
  log_distance 8 z (id_low 128) = Ok 7 /\
  log_distance 8 z (mkId (byte_chr 1 :: repeat zero 19) None None) = Ok 152 /\
  log_distance 8 z (mkId (byte_chr 128 :: repeat zero 19) None None) = Ok 159.
Proof. vm_compute. repeat split. Qed.

Example doctest_Id_eq :
  (exists a b, Id_init (PyStr (repeat zero 20)) = Ok a /\
               Id_init (PyStr (repeat "0"%char 40)) = Ok b /\ Id_eq a b = true) /\
  (exists a b, Id_init (PyStr (repeat (byte_chr 255) 20)) = Ok a /\
               Id_init (PyStr (repeat "f"%char 40)) = Ok b /\ Id_eq a b = true).
Proof. split; do 2 eexists; repeat split; vm_compute; reflexivity. Qed.

Example order_closest_heap0 :
  exists h',
    order_closest 10 (id_low 0) 5%positive heap0 = (Ok 8%positive, h') /\
    h' !! 8%positive
    = Some (map VId [id_low 0; id_low 1; id_low 4; id_low 5; id_low 9; id_low 8]) /\
    h' !! 5%positive = Some (map VId ids0).
Proof. eexists. repeat split; vm_compute; reflexivity. Qed.

(** * Further properties of the module *)

(** ** Base 16: encoding and decoding *)

Lemma folded_digit_iff_table (c : ascii) : folded_digit_iff c = true.
Proof.
  destruct c as [[] [] [] [] [] [] [] []]; vm_compute; reflexivity.
Qed.

Lemma is_b16_upper_iff (c : ascii) : is_b16 (upper_char c) = is_hexdigit c.
Proof.
  pose proof (folded_digit_iff_table c) as T.
  apply andb_true_iff in T as [T _]. now apply Bool.eqb_prop.
Qed.

Lemma is_b16_hexdigit (c : ascii) : is_b16 c = true -> is_hexdigit c = true.
Proof.
  intros H. pose proof (folded_digit_iff_table c) as T.
  apply andb_true_iff in T as [_ T]. now rewrite H in T.
Qed.

Lemma hexdigit_plain_table : forallb hexdigit_plain_ok (range 16) = true.
Proof. vm_compute. reflexivity. Qed.

Lemma hexdigit_plain (d : Z) :
  0 <= d < 16 ->
  is_b16 (hexdigit d) = (d <? 10) /\ is_b16 (upper_char (hexdigit d)) = true.
Proof.
  intros Hd. pose proof hexdigit_plain_table as T.
  rewrite forallb_forall in T. specialize (T d (in_range 16 d Hd)).
  apply andb_true_iff in T as [T1 T2]. split; [now apply Bool.eqb_prop|assumption].
Qed.

Lemma existsb_upper_hexdigit (h : str) :
  existsb (fun c => negb (is_b16 c)) (upper h) = negb (forallb is_hexdigit h).
Proof.
  induction h as [|c h IH]; [reflexivity|].
  cbn [upper map existsb forallb]. fold (upper h).
  rewrite IH, is_b16_upper_iff. now destruct (is_hexdigit c), (forallb is_hexdigit h).
Qed.

Lemma unhexlify_length (h : str) : forall b : str,
  unhexlify h = Ok b -> length h = (2 * length b)%nat.
Proof.
  induction h as [| x | x y l IH] using pair_ind; intros b H.
  - injection H as <-. reflexivity.
  - discriminate.
  - cbn [unhexlify] in H. destruct (hexval x); [|discriminate].
    destruct (hexval y); [|discriminate].
    destruct (unhexlify l) as [r|e]; [|discriminate].
    simpl in H. injection H as <-. simpl. rewrite (IH r eq_refl). lia.
Qed.

(** [unhexlify] reads every string of hexadecimal digits of even length. *)
Lemma unhexlify_ok (h : str) :
  Nat.even (length h) = true -> forallb is_hexdigit h = true ->
  exists b, unhexlify h = Ok b.
Proof.
  induction h as [| x | x y l IH] using pair_ind; intros He Hd.
  - exists []. reflexivity.
  - discriminate.
  - cbn [forallb] in Hd. apply andb_true_iff in Hd as [Hx Hd].
    apply andb_true_iff in Hd as [Hy Hd].
    destruct (IH He Hd) as [r Hr]. cbn [unhexlify]. unfold is_hexdigit in Hx, Hy.
    destruct (hexval x); [|discriminate]. destruct (hexval y); [|discriminate].
    rewrite Hr. eexists. reflexivity.
Qed.

Lemma forallb_is_hexdigit_upper (h : str) :
  forallb is_hexdigit (upper h) = forallb is_hexdigit h.
Proof.
  induction h as [|c h IH]; [reflexivity|].
  cbn [upper map forallb]. fold (upper h). rewrite IH. f_equal.
  rewrite <- !is_b16_upper_iff. now rewrite upper_char_idem.
Qed.

Lemma upper_length (h : str) : length (upper h) = length h.
Proof. unfold upper. apply length_map. Qed.

(** [b16decode] with [casefold] accepts exactly the strings of
    hexadecimal digits of even length. *)
Lemma b16decode_true_success (h : str) :
  Nat.even (length h) = true -> forallb is_hexdigit h = true ->
  exists b, b16decode h true = Ok b.
Proof.
  intros He Hd. unfold b16decode.
  rewrite existsb_upper_hexdigit, Hd. cbn [negb].
  apply unhexlify_ok; [now rewrite upper_length|now rewrite forallb_is_hexdigit_upper].
Qed.

Lemma b16decode_true_inv (h b : str) :
  b16decode h true = Ok b ->
  Nat.even (length h) = true /\ forallb is_hexdigit h = true /\
  length h = (2 * length b)%nat.
Proof.
  unfold b16decode. rewrite existsb_upper_hexdigit. intros H.
  destruct (forallb is_hexdigit h); [|discriminate]. cbn [negb] in H.
  apply unhexlify_length in H. rewrite upper_length in H.
  split; [|split; [reflexivity|assumption]].
  rewrite H. clear. induction (length b) as [|n IH]; [reflexivity|].
  replace (2 * S n)%nat with (S (S (2 * n))) by lia. exact IH.
Qed.

Lemma b16encode_accepted (s : str) :
  existsb (fun c => negb (is_b16 c)) (b16encode s) = false.
Proof.
  induction s as [|c s IH]; [reflexivity|].
  rewrite b16encode_cons. cbn [existsb]. rewrite IH.
  pose proof (ord_range c) as Hc.
  destruct (hexdigit_plain (ord c / 16)) as [_ ->];
    [split; [apply Z.div_pos; lia|apply Z.div_lt_upper_bound; lia]|].
  destruct (hexdigit_plain (ord c mod 16)) as [_ ->];
    [apply Z.mod_pos_bound; lia|]. reflexivity.
Qed.

Lemma unhexlify_b16encode (s : str) : unhexlify (b16encode s) = Ok s.
Proof.
  induction s as [|c s IH]; [reflexivity|].
  rewrite b16encode_cons. cbn [unhexlify]. pose proof (ord_range c) as Hc.
  rewrite !hexval_upper_hexdigit
    by (try apply Z.mod_pos_bound; try split;
        try apply Z.div_pos; try apply Z.div_lt_upper_bound; lia).
  rewrite IH. cbn [rbind]. do 2 f_equal.
  rewrite <- (byte_chr_ord c) at 3. f_equal.
  pose proof (Z.div_mod (ord c) 16 ltac:(lia)). lia.
Qed.

Lemma b16decode_b16encode (s : str) (casefold : bool) :
  b16decode (b16encode s) casefold = Ok s.
Proof.
  unfold b16decode.
  assert (E : (if casefold then upper (b16encode s) else b16encode s) = b16encode s)
    by (destruct casefold; [apply upper_b16encode|reflexivity]).
  rewrite E, b16encode_accepted. apply unhexlify_b16encode.
Qed.

Lemma b16encode_length (s : str) : length (b16encode s) = (2 * length s)%nat.
Proof.
  induction s as [|c s IH]; [reflexivity|].
  rewrite b16encode_cons. simpl length. rewrite IH. lia.
Qed.

Lemma hexlify_length (s : str) : length (hexlify s) = (2 * length s)%nat.
Proof.
  rewrite <- b16encode_length. unfold b16encode. now rewrite upper_length.
Qed.

Lemma b16decode_hexlify (s : str) : b16decode (hexlify s) true = Ok s.
Proof.
  replace (b16decode (hexlify s) true) with (b16decode (b16encode s) false);
    [apply b16decode_b16encode|].
  unfold b16decode. reflexivity.
Qed.

Lemma hex_to_bin_of_bin_to_hex_parts (s : str) :
  _hex_to_bin (_bin_to_hex s) = Ok s /\ _hex_to_bin (hexlify s) = Ok s.
Proof.
  unfold _hex_to_bin, _bin_to_hex.
  now rewrite b16decode_b16encode, b16decode_hexlify.
Qed.

(** X1: decoding what [_bin_to_hex] encodes gives the bytes back, for
    every byte string, and so does decoding the lowercase [hexlify]
    form; the encoding has two uppercase characters per byte. *)
Theorem hex_to_bin_of_bin_to_hex (s : str) :
  _hex_to_bin (_bin_to_hex s) = Ok s /\
  _hex_to_bin (hexlify s) = Ok s /\
  length (_bin_to_hex s) = (2 * length s)%nat /\
  upper (_bin_to_hex s) = _bin_to_hex s.
Proof.
  destruct (hex_to_bin_of_bin_to_hex_parts s) as [H1 H2].
  split; [exact H1|]. split; [exact H2|]. unfold _bin_to_hex.
  split; [apply b16encode_length|apply upper_b16encode].
Qed.

(** X2: [_hex_to_bin] accepts exactly the strings of hexadecimal digits
    (of either case) of even length: it then returns half as many bytes,
    whose encoding by [_bin_to_hex] is the string in upper case.  On any
    other string it raises IdError, never another exception. *)
Theorem hex_to_bin_outcome (h : str) :
  if Nat.even (length h) && forallb is_hexdigit h
  then exists b, _hex_to_bin h = Ok b /\ length h = (2 * length b)%nat /\
                 _bin_to_hex b = upper h
  else _hex_to_bin h = Raise IdError.
Proof.
  unfold _hex_to_bin, _bin_to_hex.
  destruct (Nat.even (length h) && forallb is_hexdigit h) eqn:E.
  - apply andb_true_iff in E as [He Hd].
    destruct (b16decode_true_success h He Hd) as [b Hb]. rewrite Hb.
    exists b. split; [reflexivity|]. split.
    + now apply b16decode_true_inv in Hb.
    + symmetry. now apply b16decode_upper.
  - destruct (b16decode h true) as [b|e] eqn:Hb; [|reflexivity].
    apply b16decode_true_inv in Hb as (He & Hd & _).
    rewrite He, Hd in E. discriminate.
Qed.

(** ** [_byte_xor] *)

(** X3: [_byte_xor] never raises: the XOR of two bytes is a byte.  It is
    commutative, XOR-ing the result with either argument gives the other
    back, and the result is the zero byte exactly when the arguments
    are equal. *)
Theorem byte_xor_involutive (byte1 byte2 : ascii) :
  exists c,
    _byte_xor byte1 byte2 = Ok c /\
    ord c = Z.lxor (ord byte1) (ord byte2) /\
    _byte_xor byte2 byte1 = Ok c /\
    _byte_xor c byte2 = Ok byte1 /\
    _byte_xor c byte1 = Ok byte2 /\
    (c = zero <-> byte1 = byte2).
Proof.
  pose proof (lxor_ord_range byte1 byte2) as Hr.
  exists (byte_chr (Z.lxor (ord byte1) (ord byte2))).
  unfold _byte_xor. rewrite ord_byte_chr by assumption.
  split; [now apply chr_byte|]. split; [reflexivity|].
  split; [rewrite Z.lxor_comm; now apply chr_byte|].
  split; [|split].
  - rewrite Z.lxor_assoc, Z.lxor_nilpotent, Z.lxor_0_r.
    rewrite chr_byte by apply ord_range. now rewrite byte_chr_ord.
  - rewrite (Z.lxor_comm (ord byte1)), Z.lxor_assoc, Z.lxor_nilpotent, Z.lxor_0_r.
    rewrite chr_byte by apply ord_range. now rewrite byte_chr_ord.
  - split.
    + intros E. apply ord_inj. apply Z.lxor_eq.
      apply (f_equal ord) in E. rewrite ord_byte_chr in E by assumption. exact E.
    + intros ->. now rewrite Z.lxor_nilpotent.
Qed.

(** ** The first different byte and bit *)

Lemma first_different_byte_from_decomp (p : str) (c1 c2 : ascii) (t1 t2 : str) :
  c1 <> c2 ->
  forall i, _first_different_byte_from i (p ++ c1 :: t1) (p ++ c2 :: t2)
            = Ok (i + len p).
Proof.
  intros Hne. induction p as [|c p IH]; intros i; cbn [app _first_different_byte_from].
  - destruct (Ascii.eqb_spec c1 c2); [contradiction|].
    f_equal. unfold len. simpl. lia.
  - rewrite Ascii.eqb_refl, IH. f_equal. rewrite len_cons. lia.
Qed.

Lemma first_different_byte_from_prefix (s t : str) :
  forall i, _first_different_byte_from i s (s ++ t) = Raise IndexError /\
            _first_different_byte_from i (s ++ t) s = Raise IndexError.
Proof.
  induction s as [|c s IH]; intros i; cbn [app _first_different_byte_from].
  - split; [reflexivity|]. now destruct t.
  - rewrite Ascii.eqb_refl. apply IH.
Qed.

Lemma first_different_byte_from_raise (s1 : str) : forall (s2 : str) (i : Z) (e : exn),
  _first_different_byte_from i s1 s2 = Raise e ->
  e = IndexError /\ exists t, s2 = s1 ++ t \/ s1 = s2 ++ t.
Proof.
  induction s1 as [|c1 r1 IH]; intros [|c2 r2] i e H; cbn [_first_different_byte_from] in H.
  - injection H as <-. split; [reflexivity|]. exists []. now left.
  - injection H as <-. split; [reflexivity|]. exists (c2 :: r2). now left.
  - injection H as <-. split; [reflexivity|]. exists (c1 :: r1). now right.
  - destruct (Ascii.eqb_spec c1 c2) as [->|Hne]; [|discriminate].
    destruct (IH r2 (i + 1) e H) as [-> [t [-> | ->]]].
    + split; [reflexivity|]. exists t. now left.
    + split; [reflexivity|]. exists t. now right.
Qed.

(** X4: [_first_different_byte] returns [i] exactly when the two strings
    agree on their first [i] bytes and both have a byte at [i], the two
    being different.  It raises IndexError exactly when one string is a
    prefix of the other (equal strings, or a shorter [str2]), and raises
    nothing else. *)
Theorem first_different_byte_outcome (str1 str2 : str) :
  (forall i,
      _first_different_byte str1 str2 = Ok i <->
      exists p c1 c2 t1 t2,
        str1 = p ++ c1 :: t1 /\ str2 = p ++ c2 :: t2 /\ c1 <> c2 /\ i = len p) /\
  (_first_different_byte str1 str2 = Raise IndexError <->
   exists t, str2 = str1 ++ t \/ str1 = str2 ++ t) /\
  (forall e, _first_different_byte str1 str2 = Raise e -> e = IndexError).
Proof.
  unfold _first_different_byte. split; [|split].
  - intros i. split.
    + intros H.
      destruct (first_different_byte_from_cases str1 str2 0)
        as [Hr|(p & c1 & c2 & t1 & t2 & E1 & E2 & Hne & Hr)];
        rewrite Hr in H; [discriminate|].
      injection H as <-. exists p, c1, c2, t1, t2. repeat split; auto.
    + intros (p & c1 & c2 & t1 & t2 & -> & -> & Hne & ->).
      now rewrite first_different_byte_from_decomp.
  - split.
    + intros H. now apply first_different_byte_from_raise in H.
    + intros [t [-> | ->]]; apply first_different_byte_from_prefix.
  - intros e H. now apply first_different_byte_from_raise in H.
Qed.

(** X5: the assertion of [_first_different_bit] fails exactly on equal
    bytes.  On different bytes, with fuel for 8 tests, it returns the
    position [i] in 0..7, counted from the most significant bit, of the
    first bit in which the bytes differ: they agree on the bits above
    [7 - i] and differ at bit [7 - i].  The two bytes may be swapped. *)
Theorem first_different_bit_outcome (fuel : nat) (byte1 byte2 : ascii) :
  (8 <= fuel)%nat ->
  (byte1 = byte2 -> _first_different_bit fuel byte1 byte2 = Raise AssertionError) /\
  (byte1 <> byte2 ->
   exists i,
     _first_different_bit fuel byte1 byte2 = Ok i /\ 0 <= i <= 7 /\
     Z.testbit (ord byte1) (7 - i) = negb (Z.testbit (ord byte2) (7 - i)) /\
     forall j, 7 - i < j -> Z.testbit (ord byte1) j = Z.testbit (ord byte2) j) /\
  _first_different_bit fuel byte1 byte2 = _first_different_bit fuel byte2 byte1.
Proof.
  intros Hf. split; [|split].
  - intros ->. unfold _first_different_bit. now rewrite Ascii.eqb_refl.
  - intros Hne. rewrite first_different_bit_spec by assumption.
    pose proof (lxor_ord_nonzero byte1 byte2 Hne) as Hx.
    set (x := Z.lxor (ord byte1) (ord byte2)) in *.
    pose proof (byte_log2 x ltac:(lia)) as Hl.
    pose proof (Z.log2_nonneg x) as Hl0.
    exists (7 - Z.log2 x). split; [reflexivity|]. split; [lia|].
    replace (7 - (7 - Z.log2 x)) with (Z.log2 x) by lia. split.
    + pose proof (Z.bit_log2 x ltac:(lia)) as Hb. unfold x in Hb.
      rewrite Z.lxor_spec in Hb.
      destruct (Z.testbit (ord byte1) _), (Z.testbit (ord byte2) _);
        try discriminate; reflexivity.
    + intros j Hj.
      pose proof (Z.bits_above_log2 x j ltac:(lia) Hj) as Hb. unfold x in Hb.
      rewrite Z.lxor_spec in Hb.
      destruct (Z.testbit (ord byte1) j), (Z.testbit (ord byte2) j);
        try discriminate; reflexivity.
  - unfold _first_different_bit. rewrite (Ascii.eqb_sym byte2 byte1).
    now rewrite (Z.lxor_comm (ord byte2)).
Qed.

(** X5 at the bytes 5 and 1. *)
Lemma first_different_bit_outcome_witness :
  (8 <= 8)%nat /\
  (byte_chr 5 = byte_chr 1 ->
   _first_different_bit 8 (byte_chr 5) (byte_chr 1) = Raise AssertionError) /\
  (byte_chr 5 <> byte_chr 1 ->
   exists i,
     _first_different_bit 8 (byte_chr 5) (byte_chr 1) = Ok i /\ 0 <= i <= 7 /\
     Z.testbit (ord (byte_chr 5)) (7 - i)
     = negb (Z.testbit (ord (byte_chr 1)) (7 - i)) /\
     forall j, 7 - i < j ->
       Z.testbit (ord (byte_chr 5)) j = Z.testbit (ord (byte_chr 1)) j) /\
  _first_different_bit 8 (byte_chr 5) (byte_chr 1)
  = _first_different_bit 8 (byte_chr 1) (byte_chr 5).
Proof.
  split; [lia|]. apply (first_different_bit_outcome 8 (byte_chr 5) (byte_chr 1)). lia.
Defined.

(** ** Construction from a string: every outcome *)

(** X6: construction from a string succeeds exactly on a string of 20
    characters (taken as the bytes) and on a string of 40 hexadecimal
    digits (decoded by [_hex_to_bin] and kept as the hexadecimal form);
    the identifier is then valid.  Every other string raises IdError. *)
Theorem Id_init_str_outcome (s : str) :
  if (len s =? ID_SIZE_BYTES)
     || ((len s =? ID_SIZE_BYTES * 2) && forallb is_hexdigit s)
  then exists a,
      Id_init (PyStr s) = Ok a /\ valid a /\ _int a = None /\
      (len s = ID_SIZE_BYTES -> bin_id a = s /\ _hex a = None) /\
      (len s = ID_SIZE_BYTES * 2 -> _hex_to_bin s = Ok (bin_id a) /\ _hex a = Some s)
  else Id_init (PyStr s) = Raise IdError.
Proof.
  destruct (Z.eqb_spec (len s) ID_SIZE_BYTES) as [E20|N20]; cbn [orb].
  - exists (mkId s None None). split; [now apply Id_init_bytes|].
    split; [now apply valid_bytes|]. split; [reflexivity|]. split; [auto|].
    intros E40. rewrite E20 in E40. discriminate.
  - destruct (Z.eqb_spec (len s) (ID_SIZE_BYTES * 2)) as [E40|N40]; cbn [andb].
    + assert (Hlen : length s = 40%nat) by (unfold len, ID_SIZE_BYTES in E40; lia).
      destruct (forallb is_hexdigit s) eqn:Hd.
      * destruct (b16decode_true_success s) as [b Hb];
          [now rewrite Hlen|assumption|].
        pose proof (b16decode_true_inv s b Hb) as (_ & _ & Hl).
        assert (Hi : Id_init (PyStr s) = Ok (mkId b (Some s) None)).
        { unfold Id_init, Id_fields, _hex_to_bin.
          destruct (Z.eqb_spec (len s) ID_SIZE_BYTES); [contradiction|].
          destruct (Z.eqb_spec (len s) (ID_SIZE_BYTES * 2)); [|contradiction].
          rewrite Hb. simpl. destruct b; [simpl in Hl; lia|reflexivity]. }
        exists (mkId b (Some s) None). split; [exact Hi|].
        split; [exact (Id_init_str_valid s _ Hi)|]. split; [reflexivity|].
        split; [intros; contradiction|]. intros _.
        unfold _hex_to_bin. rewrite Hb. auto.
      * unfold Id_init, Id_fields, _hex_to_bin.
        destruct (Z.eqb_spec (len s) ID_SIZE_BYTES); [contradiction|].
        destruct (Z.eqb_spec (len s) (ID_SIZE_BYTES * 2)); [|contradiction].
        destruct (b16decode s true) as [b|x] eqn:Hb; [|reflexivity].
        apply b16decode_true_inv in Hb as (_ & Hd' & _). congruence.
    + now apply Id_init_str_bad_length.
Qed.

(** X7: for every string [s] of 20 bytes, the identifiers built from
    [s], from its encoding by [_bin_to_hex] and from its lowercase
    hexadecimal form are all equal (the two examples of the class
    docstring, for any bytes). *)
Theorem Id_of_bytes_eq_Id_of_hex (s : str) :
  len s = ID_SIZE_BYTES ->
  exists a b c,
    Id_init (PyStr s) = Ok a /\
    Id_init (PyStr (_bin_to_hex s)) = Ok b /\
    Id_init (PyStr (hexlify s)) = Ok c /\
    Id_eq a b = true /\ Id_eq a c = true /\ Id_eq b c = true /\
    Id_ne a b = false.
Proof.
  intros E20.
  assert (Hlen : length s = 20%nat) by (unfold len, ID_SIZE_BYTES in E20; lia).
  assert (Hne : s <> []) by (intros ->; discriminate).
  destruct (hex_to_bin_of_bin_to_hex_parts s) as [Hu Hl].
  exists (mkId s None None), (mkId s (Some (_bin_to_hex s)) None),
    (mkId s (Some (hexlify s)) None).
  split; [now apply Id_init_bytes|].
  assert (Hid : forall h, length h = 40%nat -> _hex_to_bin h = Ok s ->
                          Id_init (PyStr h) = Ok (mkId s (Some h) None)).
  { intros h Hh Hd. unfold Id_init, Id_fields, len. rewrite Hh, Hd. simpl.
    destruct s; [contradiction|reflexivity]. }
  split; [apply Hid; [unfold _bin_to_hex; rewrite b16encode_length; lia|exact Hu]|].
  split; [apply Hid; [rewrite hexlify_length; lia|exact Hl]|].
  unfold Id_ne, Id_eq, bin_id. simpl.
  destruct (List.list_eq_dec ascii_dec s s); [auto|contradiction].
Qed.

(** X7 at twenty bytes of value 171. *)
Lemma Id_of_bytes_eq_Id_of_hex_witness :
  len (repeat (byte_chr 171) 20) = ID_SIZE_BYTES /\
  exists a b c,
    Id_init (PyStr (repeat (byte_chr 171) 20)) = Ok a /\
    Id_init (PyStr (_bin_to_hex (repeat (byte_chr 171) 20))) = Ok b /\
    Id_init (PyStr (hexlify (repeat (byte_chr 171) 20))) = Ok c /\
    Id_eq a b = true /\ Id_eq a c = true /\ Id_eq b c = true /\
    Id_ne a b = false.
Proof.
  split; [reflexivity|].
  apply (Id_of_bytes_eq_Id_of_hex (repeat (byte_chr 171) 20)). reflexivity.
Defined.

(** ** Construction from an integer: every outcome *)

Lemma unhexlify_raise (h : str) : forall e : exn,
  unhexlify h = Raise e -> e = TypeError.
Proof.
  induction h as [| x | x y l IH] using pair_ind; intros e H.
  - discriminate.
  - now injection H as <-.
  - cbn [unhexlify] in H.
    destruct (hexval x); [|now injection H as <-].
    destruct (hexval y); [|now injection H as <-].
    destruct (unhexlify l) as [r|e'] eqn:Er; [discriminate|].
    simpl in H. injection H as <-. now apply IH.
Qed.

Lemma b16decode_raise (h : str) (casefold : bool) (e : exn) :
  b16decode h casefold = Raise e -> e = TypeError.
Proof.
  unfold b16decode. intros H.
  destruct (existsb _ _); [now injection H as <-|].
  now apply unhexlify_raise in H.
Qed.

(** The digits of [n] pass the unfolded test of [b16decode] exactly when
    none is a letter. *)
Lemma existsb_hex_digits (k : nat) : forall n : Z,
  existsb (fun c => negb (is_b16 c)) (hex_digits k n) = negb (all_decimal k n).
Proof.
  induction k as [|k IH]; intros n; [reflexivity|].
  cbn [hex_digits all_decimal]. rewrite existsb_app, IH. cbn [existsb].
  destruct (hexdigit_plain (n mod 16)) as [-> _]; [apply Z.mod_pos_bound; lia|].
  rewrite orb_false_r.
  now destruct (n mod 16 <? 10), (all_decimal k (n / 16)).
Qed.

Lemma forallb_hexdigit_of_accepted (h : str) :
  existsb (fun c => negb (is_b16 c)) h = false -> forallb is_hexdigit h = true.
Proof.
  induction h as [|c h IH]; [reflexivity|]. cbn [existsb forallb]. intros H.
  apply orb_false_elim in H as [Hc H]. apply negb_false_iff in Hc.
  now rewrite (is_b16_hexdigit c Hc), IH.
Qed.

Lemma format_040x_nonneg (n : Z) :
  0 <= n < 2 ^ 160 -> format_040x n = hex_digits 40 n.
Proof.
  intros Hn. unfold format_040x. destruct (Z.ltb_spec n 0); [lia|].
  pose proof (hex_width_small n Hn). now replace (Nat.max 40 (hex_width n)) with 40%nat by lia.
Qed.

Lemma format_040x_length (n : Z) : (40 <= length (format_040x n))%nat.
Proof.
  unfold format_040x. destruct (n <? 0).
  - simpl length. rewrite hex_digits_length. lia.
  - rewrite hex_digits_length. lia.
Qed.

(** Construction from an integer raises nothing but TypeError. *)
Lemma Id_init_int_cases (n : Z) :
  (exists a, Id_init (PyInt n) = Ok a) \/ Id_init (PyInt n) = Raise TypeError.
Proof.
  unfold Id_init, Id_fields.
  destruct (b16decode (format_040x n) false) as [b|e] eqn:Ed.
  - left. simpl. pose proof (b16decode_casefold _ _ Ed) as Ed'.
    apply b16decode_true_inv in Ed' as (_ & _ & Hl).
    pose proof (format_040x_length n).
    destruct b; [simpl in Hl; lia|]. eexists. reflexivity.
  - right. apply b16decode_raise in Ed. now subst.
Qed.

(** In range, construction from an integer succeeds exactly when no
    hexadecimal digit is a letter. *)
Lemma Id_init_int_decimal (n : Z) :
  0 <= n < 2 ^ 160 ->
  if all_decimal 40 n
  then exists a, Id_init (PyInt n) = Ok a /\ valid a
  else Id_init (PyInt n) = Raise TypeError.
Proof.
  intros Hn. destruct (all_decimal 40 n) eqn:Hd.
  - assert (Hb : exists b, b16decode (format_040x n) false = Ok b).
    { rewrite format_040x_nonneg by assumption. unfold b16decode.
      rewrite existsb_hex_digits, Hd. cbn [negb].
      apply unhexlify_ok; [now rewrite hex_digits_length|].
      apply forallb_hexdigit_of_accepted. now rewrite existsb_hex_digits, Hd. }
    destruct Hb as [b Hb].
    destruct (Id_init_int_cases n) as [[a Ha]|H].
    + exists a. split; [exact Ha|].
      apply Id_init_int_ok in Ha as (_ & _ & _ & _ & Hv). apply Hv. lia.
    + unfold Id_init, Id_fields in H. rewrite Hb in H. simpl in H.
      destruct b; discriminate.
  - unfold Id_init, Id_fields. rewrite format_040x_nonneg by assumption.
    unfold b16decode. rewrite existsb_hex_digits, Hd. reflexivity.
Qed.

(** X8: construction from an integer never raises IdError: it returns
    an identifier or raises TypeError.  A negative integer raises
    TypeError.  For [0 <= n < 2^160] it succeeds, with a valid
    identifier, exactly when none of the 40 hexadecimal digits of [n] is
    a letter, and raises TypeError otherwise. *)
Theorem Id_init_int_outcome (n : Z) :
  ((exists a, Id_init (PyInt n) = Ok a) \/ Id_init (PyInt n) = Raise TypeError) /\
  (n < 0 -> Id_init (PyInt n) = Raise TypeError) /\
  (0 <= n < 2 ^ 160 ->
   if all_decimal 40 n
   then exists a, Id_init (PyInt n) = Ok a /\ valid a
   else Id_init (PyInt n) = Raise TypeError).
Proof.
  split; [apply Id_init_int_cases|]. split; [|apply Id_init_int_decimal].
  intros Hn. destruct (Id_init_int_cases n) as [[a Ha]|H]; [|exact H].
  apply Id_init_int_ok in Ha as [H0 _]. lia.
Qed.

(** X9: when construction from the integer [n] succeeds, [n] is not
    negative, [int] returns [n], the buffer is the big-endian encoding
    of [n] and [hex] is ['%040x' % n]. *)
Theorem Id_init_int_roundtrip (n : Z) (a : Id) :
  Id_init (PyInt n) = Ok a ->
  0 <= n /\ fst (Id_int a) = Ok n /\ be_value (bin_id a) = n /\
  fst (Id_hex a) = format_040x n.
Proof.
  intros H. destruct (Id_init_int_ok n a H) as (H0 & Hv & _ & Hi & _).
  split; [exact H0|]. split; [exact Hi|]. split; [exact Hv|].
  unfold Id_init, Id_fields in H.
  destruct (b16decode (format_040x n) false) as [b|e]; [|discriminate].
  simpl in H. destruct b; [discriminate|]. injection H as <-.
  unfold Id_hex. cbn [_hex]. pose proof (format_040x_length n) as Hl.
  destruct (format_040x n); [simpl in Hl; lia|reflexivity].
Qed.

(** X9 at the integer 12345. *)
Lemma Id_init_int_roundtrip_witness :
  Id_init (PyInt 12345)
  = Ok (mkId (repeat zero 18 ++ [byte_chr 48; byte_chr 57])
          (Some (format_040x 12345)) (Some 12345)) /\
  0 <= 12345 /\
  fst (Id_int (mkId (repeat zero 18 ++ [byte_chr 48; byte_chr 57])
                 (Some (format_040x 12345)) (Some 12345))) = Ok 12345 /\
  be_value (bin_id (mkId (repeat zero 18 ++ [byte_chr 48; byte_chr 57])
                      (Some (format_040x 12345)) (Some 12345))) = 12345 /\
  fst (Id_hex (mkId (repeat zero 18 ++ [byte_chr 48; byte_chr 57])
                 (Some (format_040x 12345)) (Some 12345))) = format_040x 12345.
Proof.
  split; [vm_compute; reflexivity|].
  apply (Id_init_int_roundtrip 12345). vm_compute. reflexivity.
Defined.

(** ** The integer form *)

Lemma be_value_inj (s1 : str) : forall s2 : str,
  length s1 = length s2 -> be_value s1 = be_value s2 -> s1 = s2.
Proof.
  induction s1 as [|c1 r1 IH]; intros [|c2 r2] Hl Hv; simpl in Hl; try discriminate.
  - reflexivity.
  - simpl be_value in Hv.
    assert (El : len r2 = len r1) by (unfold len; lia). rewrite El in Hv.
    pose proof (be_value_range r1) as R1. pose proof (be_value_range r2) as R2.
    rewrite El in R2. pose proof (ord_range c1). pose proof (ord_range c2).
    assert (ord c1 = ord c2) by nia.
    assert (be_value r1 = be_value r2) by nia.
    f_equal; [now apply ord_inj|apply IH; [lia|assumption]].
Qed.

(** X10: the integer form of a valid identifier is the big-endian value
    of its 20 bytes, in [0, 2^160), and two valid identifiers have the
    same integer form exactly when they are equal. *)
Theorem Id_int_injective (a b : Id) :
  valid a -> valid b ->
  exists x y,
    fst (Id_int a) = Ok x /\ fst (Id_int b) = Ok y /\
    x = be_value (bin_id a) /\ y = be_value (bin_id b) /\
    0 <= x < 2 ^ 160 /\ 0 <= y < 2 ^ 160 /\
    (x = y <-> Id_eq a b = true).
Proof.
  intros Ha Hb. exists (be_value (bin_id a)), (be_value (bin_id b)).
  assert (Hr : forall c, valid c -> 0 <= be_value (bin_id c) < 2 ^ 160).
  { intros c [Hl _]. pose proof (be_value_range (_bin c)) as R.
    rewrite Hl, pow256_pow2 in R by (unfold ID_SIZE_BYTES; lia). exact R. }
  split; [now apply Id_int_valid|]. split; [now apply Id_int_valid|].
  split; [reflexivity|]. split; [reflexivity|].
  split; [now apply Hr|]. split; [now apply Hr|].
  rewrite Id_eq_true. split.
  - apply be_value_inj. now apply valid_same_length.
  - now intros ->.
Qed.

(** X10 at the identifiers of value 4 and 5. *)
Lemma Id_int_injective_witness :
  valid (id_low 4) /\ valid (id_low 5) /\
  exists x y,
    fst (Id_int (id_low 4)) = Ok x /\ fst (Id_int (id_low 5)) = Ok y /\
    x = be_value (bin_id (id_low 4)) /\ y = be_value (bin_id (id_low 5)) /\
    0 <= x < 2 ^ 160 /\ 0 <= y < 2 ^ 160 /\
    (x = y <-> Id_eq (id_low 4) (id_low 5) = true).
Proof.
  split; [apply valid_bytes; reflexivity|]. split; [apply valid_bytes; reflexivity|].
  apply (Id_int_injective (id_low 4) (id_low 5)); apply valid_bytes; reflexivity.
Defined.

(** ** The caches *)

(** The hexadecimal form of a valid identifier decodes to its bytes. *)
Lemma Id_hex_decodes (a : Id) :
  cache_ok a -> b16decode (fst (Id_hex a)) true = Ok (bin_id a).
Proof.
  intros [Hh _]. unfold Id_hex, bin_id, _bin_to_hex.
  destruct (not_str (_hex a)) eqn:Ns.
  - apply b16decode_b16encode.
  - destruct (_hex a) as [h|] eqn:Eh; [|discriminate]. simpl. now apply Hh.
Qed.

Lemma Id_hex_length (a : Id) :
  valid a -> length (fst (Id_hex a)) = 40%nat.
Proof.
  intros [Hl Hc]. pose proof (Id_hex_decodes a Hc) as Hd.
  apply b16decode_true_inv in Hd as (_ & _ & E). rewrite E.
  unfold bin_id, len, ID_SIZE_BYTES in *. lia.
Qed.

(** Reading [hex] leaves a valid object that gives the same forms. *)
Lemma Id_hex_fill (a : Id) :
  valid a ->
  valid (snd (Id_hex a)) /\ bin_id (snd (Id_hex a)) = bin_id a /\
  _int (snd (Id_hex a)) = _int a /\
  fst (Id_hex (snd (Id_hex a))) = fst (Id_hex a) /\
  snd (Id_hex (snd (Id_hex a))) = snd (Id_hex a).
Proof.
  intros Hv. unfold Id_hex.
  destruct (not_str (_hex a)) eqn:Ns.
  - cbn [fst snd]. unfold _bin_to_hex.
    assert (Hn : not_str (Some (b16encode (_bin a))) = false).
    { destruct Hv as [Hl _].
      destruct (_bin a) as [|c r]; [discriminate|]. now rewrite b16encode_cons. }
    cbn [_hex _bin _int]. rewrite Hn. cbn [fst snd].
    split; [|repeat split]. destruct Hv as [Hl [Hh Hi]].
    split; [exact Hl|]. split; cbn [_hex _bin _int]; [|exact Hi].
    intros h E. injection E as <-. apply b16decode_b16encode.
  - destruct (_hex a) as [h|] eqn:Eh; [|discriminate]. cbn [fst snd].
    rewrite Eh, Ns. cbn [fst snd]. repeat split; apply Hv.
Qed.

Lemma Id_hex_same_fields (a b : Id) :
  _bin a = _bin b -> _hex a = _hex b -> fst (Id_hex a) = fst (Id_hex b).
Proof.
  intros Eb Eh. unfold Id_hex. rewrite Eb, Eh.
  destruct (not_str (_hex b)); [reflexivity|]. now destruct (_hex b).
Qed.

(** Reading [int] leaves a valid object that gives the same forms. *)
Lemma Id_int_fill (a : Id) :
  valid a ->
  valid (snd (Id_int a)) /\ bin_id (snd (Id_int a)) = bin_id a /\
  fst (Id_hex (snd (Id_int a))) = fst (Id_hex a) /\
  fst (Id_int (snd (Id_int a))) = fst (Id_int a).
Proof.
  intros Hv. pose proof (Id_int_valid a Hv) as Hi.
  destruct (Id_hex_fill a Hv) as (Hv1 & Hb1 & Hi1 & Hh1 & Hs1).
  assert (Hgoal : valid (snd (Id_int a)) /\ bin_id (snd (Id_int a)) = bin_id a /\
                  fst (Id_hex (snd (Id_int a))) = fst (Id_hex a)).
  { unfold Id_int in *. destruct (not_int (_int a)) eqn:Ni.
    - destruct (Id_hex a) as [h self1] eqn:Ex. cbn [fst snd] in *.
      destruct (int16 h) as [n|e]; [|discriminate]. cbn [fst snd] in *.
      injection Hi as ->. unfold bin_id in *. cbn [_bin].
      split; [|split; [assumption|]].
      + destruct Hv1 as [Hl1 [Hc1 _]]. split; [exact Hl1|].
        split; cbn [_hex _int _bin]; [exact Hc1|].
        intros n E. injection E as <-. now rewrite Hb1.
      + rewrite <- Hh1. now apply Id_hex_same_fields.
    - destruct (_int a); [|discriminate]. cbn [fst snd]. auto. }
  destruct Hgoal as (Hv' & Hb' & Hh'). repeat split; try assumption; try apply Hv'.
  rewrite (Id_int_valid _ Hv'), Hi. unfold bin_id in Hb'. now rewrite Hb'.
Qed.

(** X11: the caches are not observable on a valid identifier: after
    reading [hex] or [int], the object is still valid, has the same
    bytes, and [hex] and [int] return what they returned before (also
    for the integer 0, which the test [not self._int] takes for an unset
    cache). *)
Theorem caches_not_observable (a : Id) :
  valid a ->
  (valid (snd (Id_hex a)) /\ bin_id (snd (Id_hex a)) = bin_id a /\
   fst (Id_hex (snd (Id_hex a))) = fst (Id_hex a) /\
   fst (Id_int (snd (Id_hex a))) = fst (Id_int a)) /\
  (valid (snd (Id_int a)) /\ bin_id (snd (Id_int a)) = bin_id a /\
   fst (Id_hex (snd (Id_int a))) = fst (Id_hex a) /\
   fst (Id_int (snd (Id_int a))) = fst (Id_int a)).
Proof.
  intros Hv. split; [|now apply Id_int_fill].
  destruct (Id_hex_fill a Hv) as (Hv1 & Hb1 & _ & Hh1 & _).
  repeat split; try assumption; try apply Hv1.
  rewrite (Id_int_valid _ Hv1), (Id_int_valid _ Hv).
  unfold bin_id in Hb1. now rewrite Hb1.
Qed.

(** X11 at the all-zero identifier, whose integer form is 0. *)
Lemma caches_not_observable_witness :
  valid (id_low 0) /\
  (valid (snd (Id_hex (id_low 0))) /\
   bin_id (snd (Id_hex (id_low 0))) = bin_id (id_low 0) /\
   fst (Id_hex (snd (Id_hex (id_low 0)))) = fst (Id_hex (id_low 0)) /\
   fst (Id_int (snd (Id_hex (id_low 0)))) = fst (Id_int (id_low 0))) /\
  (valid (snd (Id_int (id_low 0))) /\
   bin_id (snd (Id_int (id_low 0))) = bin_id (id_low 0) /\
   fst (Id_hex (snd (Id_int (id_low 0)))) = fst (Id_hex (id_low 0)) /\
   fst (Id_int (snd (Id_int (id_low 0)))) = fst (Id_int (id_low 0))).
Proof.
  split; [apply valid_bytes; reflexivity|].
  apply (caches_not_observable (id_low 0)). apply valid_bytes. reflexivity.
Defined.

(** ** Equality, hash and the string forms *)

(** X12: identifiers with the same bytes are equal whatever their
    caches hold; equal identifiers are not [__ne__], have the same hash
    and the same [str], are equal to the same identifiers, and are at
    the same log-distance of every identifier, on either side. *)
Theorem Id_eq_congruence (a b : Id) :
  Id_eq a b = true ->
  Id_ne a b = false /\ Id_eq b a = true /\
  (forall str_hash, Id_hash str_hash a = Id_hash str_hash b) /\
  Id_str a = Id_str b /\
  (forall c, Id_eq a c = Id_eq b c) /\
  (forall fuel c, log_distance fuel a c = log_distance fuel b c /\
                  log_distance fuel c a = log_distance fuel c b) /\
  (forall h i, Id_eq a (mkId (bin_id a) h i) = true).
Proof.
  intros E. pose proof E as E'. apply Id_eq_true in E'.
  split; [unfold Id_ne; now rewrite E|].
  split; [now apply Id_eq_true|].
  split; [intros f; unfold Id_hash; now rewrite E'|].
  split; [exact E'|].
  split; [intros c; unfold Id_eq; now rewrite E'|].
  split; [intros fuel c; unfold log_distance; now rewrite E'|].
  intros h i. now apply Id_eq_true.
Qed.

(** X12 at the two equal identifiers with different caches. *)
Lemma Id_eq_congruence_witness :
  Id_eq id_ff id_255 = true /\
  Id_ne id_ff id_255 = false /\ Id_eq id_255 id_ff = true /\
  (forall str_hash, Id_hash str_hash id_ff = Id_hash str_hash id_255) /\
  Id_str id_ff = Id_str id_255 /\
  (forall c, Id_eq id_ff c = Id_eq id_255 c) /\
  (forall fuel c, log_distance fuel id_ff c = log_distance fuel id_255 c /\
                  log_distance fuel c id_ff = log_distance fuel c id_255) /\
  (forall h i, Id_eq id_ff (mkId (bin_id id_ff) h i) = true).
Proof.
  split; [reflexivity|]. apply (Id_eq_congruence id_ff id_255). reflexivity.
Defined.

(** X13: for a valid identifier, [str] has 20 characters and [repr] has
    40, and building an identifier from either gives an identifier equal
    to the first. *)
Theorem Id_of_str_and_repr (a : Id) :
  valid a ->
  len (Id_str a) = 20 /\ len (fst (Id_repr a)) = 40 /\
  exists b c,
    Id_init (PyStr (Id_str a)) = Ok b /\ Id_eq a b = true /\
    Id_init (PyStr (fst (Id_repr a))) = Ok c /\ Id_eq a c = true.
Proof.
  intros Hv. pose proof (Id_hex_length a Hv) as Hlen.
  destruct Hv as [Hl Hc]. pose proof (Id_hex_decodes a Hc) as Hd.
  unfold Id_str, Id_repr, bin_id in *.
  split; [exact Hl|]. split; [unfold len; lia|].
  exists (mkId (_bin a) None None), (mkId (_bin a) (Some (fst (Id_hex a))) None).
  split; [now apply Id_init_bytes|]. split; [now apply Id_eq_true|].
  split; [|now apply Id_eq_true].
  unfold Id_init, Id_fields, _hex_to_bin, len. rewrite Hlen, Hd. simpl.
  destruct (_bin a); [discriminate|reflexivity].
Qed.

(** X13 at the identifier built from forty [f]. *)
Lemma Id_of_str_and_repr_witness :
  valid id_ff /\
  len (Id_str id_ff) = 20 /\ len (fst (Id_repr id_ff)) = 40 /\
  exists b c,
    Id_init (PyStr (Id_str id_ff)) = Ok b /\ Id_eq id_ff b = true /\
    Id_init (PyStr (fst (Id_repr id_ff))) = Ok c /\ Id_eq id_ff c = true.
Proof.
  assert (Hff : valid id_ff).
  { apply (Id_init_str_valid (repeat "f"%char 40)). vm_compute. reflexivity. }
  split; [exact Hff|]. apply (Id_of_str_and_repr id_ff). exact Hff.
Defined.

(** ** The XOR distance: every outcome *)

Lemma valid_be_value_range (a : Id) :
  valid a -> 0 <= be_value (bin_id a) < 2 ^ 160.
Proof.
  intros [Hl _]. pose proof (be_value_range (_bin a)) as R.
  rewrite Hl, pow256_pow2 in R by (unfold ID_SIZE_BYTES; lia). exact R.
Qed.

Lemma valid_lxor_range (a b : Id) :
  valid a -> valid b ->
  0 <= Z.lxor (be_value (bin_id a)) (be_value (bin_id b)) < 2 ^ 160.
Proof.
  intros Ha Hb. apply (lxor_lt_pow2 160); [lia| |]; now apply valid_be_value_range.
Qed.

(** X14: on valid identifiers [distance] is symmetric and raises
    nothing but TypeError.  It succeeds exactly when none of the 40
    hexadecimal digits of the XOR of the integer forms is a letter; the
    result is then a valid identifier whose integer form is that XOR,
    and it is the all-zero identifier exactly when the two are equal.
    Equal identifiers always have a distance. *)
Theorem distance_outcome (a b : Id) :
  valid a -> valid b ->
  distance a b = distance b a /\
  exists x,
    xor_int a b = Ok x /\ 0 <= x < 2 ^ 160 /\
    (Id_eq a b = true <-> x = 0) /\
    if all_decimal 40 x
    then exists r, distance a b = Ok r /\ valid r /\ fst (Id_int r) = Ok x /\
                   (bin_id r = repeat zero 20 <-> Id_eq a b = true)
    else distance a b = Raise TypeError /\ Id_eq a b = false.
Proof.
  intros Ha Hb. split; [now apply distance_sym|].
  pose proof (valid_lxor_range a b Ha Hb) as Hx.
  set (x := Z.lxor (be_value (bin_id a)) (be_value (bin_id b))) in *.
  assert (Heq : Id_eq a b = true <-> x = 0).
  { rewrite Id_eq_true. split.
    - intros E. unfold x. rewrite E. apply Z.lxor_nilpotent.
    - intros E. apply Z.lxor_eq in E.
      apply be_value_inj; [now apply valid_same_length|exact E]. }
  exists x. split; [now apply xor_int_valid|]. split; [exact Hx|].
  split; [exact Heq|].
  unfold distance. rewrite (xor_int_valid a b Ha Hb). fold x. cbn [rbind].
  pose proof (Id_init_int_decimal x Hx) as Hd.
  destruct (all_decimal 40 x) eqn:Ed.
  - destruct Hd as (r & Hr & Hv). exists r. split; [exact Hr|]. split; [exact Hv|].
    destruct (Id_init_int_ok x r Hr) as (_ & Hbe & _ & Hi & _).
    split; [exact Hi|]. rewrite Heq, <- Hbe. split.
    + intros E. rewrite E. reflexivity.
    + intros E. apply be_value_inj; [|rewrite E; reflexivity].
      destruct Hv as [Hl _]. unfold bin_id, len, ID_SIZE_BYTES in *.
      rewrite repeat_length. lia.
  - split; [exact Hd|]. destruct (Id_eq a b) eqn:E; [|reflexivity].
    assert (x = 0) as E0 by now apply Heq. rewrite E0 in Ed. discriminate.
Qed.

(** X14 at the all-zero identifier and the identifier of value 9. *)
Lemma distance_outcome_witness :
  valid (id_low 0) /\ valid (id_low 9) /\
  distance (id_low 0) (id_low 9) = distance (id_low 9) (id_low 0) /\
  exists x,
    xor_int (id_low 0) (id_low 9) = Ok x /\ 0 <= x < 2 ^ 160 /\
    (Id_eq (id_low 0) (id_low 9) = true <-> x = 0) /\
    if all_decimal 40 x
    then exists r, distance (id_low 0) (id_low 9) = Ok r /\ valid r /\
                   fst (Id_int r) = Ok x /\
                   (bin_id r = repeat zero 20 <-> Id_eq (id_low 0) (id_low 9) = true)
    else distance (id_low 0) (id_low 9) = Raise TypeError /\
         Id_eq (id_low 0) (id_low 9) = false.
Proof.
  split; [apply valid_bytes; reflexivity|]. split; [apply valid_bytes; reflexivity|].
  apply (distance_outcome (id_low 0) (id_low 9)); apply valid_bytes; reflexivity.
Defined.

(** ** Log-distance: symmetry, totality and the ultrametric inequality *)

Lemma first_different_bit_sym (fuel : nat) (c1 c2 : ascii) :
  _first_different_bit fuel c1 c2 = _first_different_bit fuel c2 c1.
Proof.
  unfold _first_different_bit. rewrite (Ascii.eqb_sym c2 c1).
  now rewrite (Z.lxor_comm (ord c2)).
Qed.

(** X15: [log_distance] is symmetric, on any two identifiers and
    whatever it returns or raises. *)
Theorem log_distance_sym (fuel : nat) (a b : Id) :
  log_distance fuel a b = log_distance fuel b a.
Proof.
  unfold log_distance, _first_different_byte.
  destruct (first_different_byte_from_cases (bin_id a) (bin_id b) 0)
    as [Hr|(p & c1 & c2 & t1 & t2 & Ea & Eb & Hne & Hr)].
  - rewrite Hr. apply first_different_byte_from_raise in Hr as [_ [t Ht]].
    destruct Ht as [E|E]; rewrite E.
    + now destruct (first_different_byte_from_prefix (bin_id a) t 0) as [_ ->].
    + now destruct (first_different_byte_from_prefix (bin_id b) t 0) as [-> _].
  - rewrite Hr, Ea, Eb.
    rewrite (first_different_byte_from_decomp p c2 c1 t2 t1) by congruence.
    rewrite Z.add_0_l, !getitem_middle. cbn [rbind].
    now rewrite first_different_bit_sym.
Qed.

(** X17: with fuel for 8 tests [log_distance] raises nothing, on any two
    identifiers, also those whose buffer has not 20 bytes, and returns
    at most 159; when one buffer is a prefix of the other it returns -1,
    as for equal identifiers. *)
Theorem log_distance_never_raises (fuel : nat) (a b : Id) :
  (8 <= fuel)%nat ->
  (exists n, log_distance fuel a b = Ok n /\ n <= 159) /\
  ((exists t, bin_id b = bin_id a ++ t \/ bin_id a = bin_id b ++ t) ->
   log_distance fuel a b = Ok (-1)).
Proof.
  intros Hf. split; [now apply log_distance_total|].
  intros [t Ht]. unfold log_distance, _first_different_byte.
  destruct Ht as [E|E]; rewrite E.
  - now destruct (first_different_byte_from_prefix (bin_id a) t 0) as [-> _].
  - now destruct (first_different_byte_from_prefix (bin_id b) t 0) as [_ ->].
Qed.

(** X17 at a buffer of 20 bytes and a buffer of 21 bytes that extends it. *)
Lemma log_distance_never_raises_witness :
  (8 <= 8)%nat /\
  (exists n, log_distance 8 (id_low 3) (mkId (bin_id (id_low 3) ++ [zero]) None None)
             = Ok n /\ n <= 159) /\
  ((exists t, bin_id (mkId (bin_id (id_low 3) ++ [zero]) None None)
              = bin_id (id_low 3) ++ t \/
              bin_id (id_low 3)
              = bin_id (mkId (bin_id (id_low 3) ++ [zero]) None None) ++ t) ->
   log_distance 8 (id_low 3) (mkId (bin_id (id_low 3) ++ [zero]) None None)
   = Ok (-1)).
Proof.
  split; [lia|].
  apply (log_distance_never_raises 8 (id_low 3)
           (mkId (bin_id (id_low 3) ++ [zero]) None None)). lia.
Defined.

(** The log-distance of valid identifiers is the position of the most
    significant bit of the XOR of the integer forms, -1 for the XOR 0. *)
Lemma log_distance_msb (fuel : nat) (a b : Id) :
  (8 <= fuel)%nat -> valid a -> valid b ->
  log_distance fuel a b = Ok (msb (Z.lxor (be_value (bin_id a)) (be_value (bin_id b)))).
Proof.
  intros Hf Ha Hb. unfold msb.
  destruct (first_different_byte_from_spec (bin_id a) (bin_id b) 0
              (valid_same_length a b Ha Hb))
    as [[E _]|(p & c1 & c2 & t1 & t2 & Ea & Eb & Hne & Ht & _)].
  - rewrite (log_distance_equal fuel a b E), E, Z.lxor_nilpotent. reflexivity.
  - rewrite (log_distance_differ fuel a b p c1 c2 t1 t2); auto; [|apply Ha].
    pose proof (be_value_lxor_bounds p c1 c2 t1 t2 Ht Hne) as Hx. cbv zeta in Hx.
    rewrite <- Ea, <- Eb in Hx.
    set (n := len t1 * 8 + Z.log2 (Z.lxor (ord c1) (ord c2))) in *.
    assert (Hn : 0 <= n).
    { pose proof (len_nonneg t1). pose proof (Z.log2_nonneg (Z.lxor (ord c1) (ord c2))).
      subst n. lia. }
    assert (Hp : 0 < 2 ^ n) by (apply Z.pow_pos_nonneg; lia).
    destruct (Z.eqb_spec (Z.lxor (be_value (bin_id a)) (be_value (bin_id b))) 0);
      [lia|].
    f_equal. symmetry. now apply log2_unique_bounds.
Qed.

Lemma msb_lxor (u v : Z) :
  0 <= u -> 0 <= v -> msb (Z.lxor u v) <= Z.max (msb u) (msb v).
Proof.
  intros Hu Hv. unfold msb.
  pose proof (Z.log2_nonneg u). pose proof (Z.log2_nonneg v).
  destruct (Z.eqb_spec u 0) as [->|Nu].
  { rewrite Z.lxor_0_l. destruct (v =? 0); lia. }
  destruct (Z.eqb_spec v 0) as [->|Nv].
  { rewrite Z.lxor_0_r. destruct (Z.eqb_spec u 0); lia. }
  destruct (Z.eqb_spec (Z.lxor u v) 0); [lia|].
  apply Z.log2_lxor; assumption.
Qed.

(** The ultrametric inequality on the most significant bits of the
    three XORs of three numbers. *)
Lemma msb_triangle (x y z : Z) :
  0 <= x -> 0 <= y -> 0 <= z ->
  msb (Z.lxor x z) <= Z.max (msb (Z.lxor x y)) (msb (Z.lxor y z)) /\
  (msb (Z.lxor x y) <> msb (Z.lxor y z) ->
   msb (Z.lxor x z) = Z.max (msb (Z.lxor x y)) (msb (Z.lxor y z))).
Proof.
  intros Hx Hy Hz.
  assert (Hxy : 0 <= Z.lxor x y) by (apply Z.lxor_nonneg; lia).
  assert (Hyz : 0 <= Z.lxor y z) by (apply Z.lxor_nonneg; lia).
  assert (Hxz : 0 <= Z.lxor x z) by (apply Z.lxor_nonneg; lia).
  assert (E1 : Z.lxor x z = Z.lxor (Z.lxor x y) (Z.lxor y z)).
  { rewrite Z.lxor_assoc, <- (Z.lxor_assoc y y z), Z.lxor_nilpotent, Z.lxor_0_l.
    reflexivity. }
  assert (E2 : Z.lxor y z = Z.lxor (Z.lxor x y) (Z.lxor x z)).
  { rewrite (Z.lxor_comm x y), Z.lxor_assoc, <- (Z.lxor_assoc x x z),
      Z.lxor_nilpotent, Z.lxor_0_l. reflexivity. }
  assert (E3 : Z.lxor x y = Z.lxor (Z.lxor x z) (Z.lxor y z)).
  { rewrite (Z.lxor_comm y z), Z.lxor_assoc, <- (Z.lxor_assoc z z y),
      Z.lxor_nilpotent, Z.lxor_0_l. reflexivity. }
  pose proof (msb_lxor _ _ Hxy Hyz) as U1. rewrite <- E1 in U1.
  pose proof (msb_lxor _ _ Hxy Hxz) as U2. rewrite <- E2 in U2.
  pose proof (msb_lxor _ _ Hxz Hyz) as U3. rewrite <- E3 in U3.
  split; [exact U1|]. intros Hne. lia.
Qed.

(** X16: on valid identifiers the log-distance satisfies the ultrametric
    inequality: the distance from [a] to [c] is at most the larger of
    the distances from [a] to [b] and from [b] to [c], and equals it
    when these two differ (so two identifiers at different distances of
    [b] are, from each other, at the larger of the two). *)
Theorem log_distance_ultrametric (fuel : nat) (a b c : Id) :
  (8 <= fuel)%nat -> valid a -> valid b -> valid c ->
  exists dab dbc dac,
    log_distance fuel a b = Ok dab /\ log_distance fuel b c = Ok dbc /\
    log_distance fuel a c = Ok dac /\
    dac <= Z.max dab dbc /\
    (dab <> dbc -> dac = Z.max dab dbc).
Proof.
  intros Hf Ha Hb Hc.
  pose proof (valid_be_value_range a Ha) as Ra.
  pose proof (valid_be_value_range b Hb) as Rb.
  pose proof (valid_be_value_range c Hc) as Rc.
  exists (msb (Z.lxor (be_value (bin_id a)) (be_value (bin_id b)))),
    (msb (Z.lxor (be_value (bin_id b)) (be_value (bin_id c)))),
    (msb (Z.lxor (be_value (bin_id a)) (be_value (bin_id c)))).
  split; [now apply log_distance_msb|]. split; [now apply log_distance_msb|].
  split; [now apply log_distance_msb|].
  apply msb_triangle; lia.
Qed.

(** X16 at the identifiers of value 1, 4 and 9. *)
Lemma log_distance_ultrametric_witness :
  (8 <= 8)%nat /\ valid (id_low 1) /\ valid (id_low 4) /\ valid (id_low 9) /\
  exists dab dbc dac,
    log_distance 8 (id_low 1) (id_low 4) = Ok dab /\
    log_distance 8 (id_low 4) (id_low 9) = Ok dbc /\
    log_distance 8 (id_low 1) (id_low 9) = Ok dac /\
    dac <= Z.max dab dbc /\
    (dab <> dbc -> dac = Z.max dab dbc).
Proof.
  split; [lia|]. split; [apply valid_bytes; reflexivity|].
  split; [apply valid_bytes; reflexivity|]. split; [apply valid_bytes; reflexivity|].
  apply (log_distance_ultrametric 8 (id_low 1) (id_low 4) (id_low 9));
    [lia|apply valid_bytes; reflexivity..].
Defined.

(** ** Closeness ordering: the first result, and ordering twice *)

Lemma filter_head_split {A : Type} (f : A -> bool) (l : list A) :
  forall (x : A) (r : list A),
    List.filter f l = x :: r ->
    exists pre post,
      l = pre ++ x :: post /\ List.filter f pre = [] /\ f x = true /\
      List.filter f post = r.
Proof.
  induction l as [|y l IH]; intros x r H; [discriminate|].
  cbn [List.filter] in H. destruct (f y) eqn:Fy.
  - injection H as -> <-. exists [], l. auto.
  - destruct (IH x r H) as (pre & post & -> & Hp & Fx & Hr).
    exists (y :: pre), post. cbn [List.filter]. rewrite Fy. auto.
Qed.

Lemma filter_nil_Forall {A : Type} (f : A -> bool) (l : list A) :
  List.filter f l = [] -> Forall (fun y => f y = false) l.
Proof.
  induction l as [|y l IH]; intros H; [constructor|].
  cbn [List.filter] in H. destruct (f y) eqn:Fy; [discriminate|].
  constructor; [assumption|now apply IH].
Qed.

(** The head of a stable sort is the leftmost element of lowest key. *)
Lemma stable_sorted_head (k : Id -> Z) (S : list Id) (x : Id) (out : list Id) :
  stable_sorted k S (x :: out) ->
  exists pre post,
    S = pre ++ x :: post /\
    Forall (fun y => k x < k y) pre /\ Forall (fun y => k x <= k y) post.
Proof.
  intros (Hperm & Hsort & Hstable).
  assert (Hmin : Forall (fun y => k x <= k y) S).
  { eapply Permutation_Forall; [symmetry; exact Hperm|].
    inversion Hsort; subst. constructor; [lia|assumption]. }
  specialize (Hstable (k x)). cbn [List.filter] in Hstable.
  rewrite Z.eqb_refl in Hstable. symmetry in Hstable.
  apply filter_head_split in Hstable as (pre & post & -> & Hpre & _ & _).
  exists pre, post. split; [reflexivity|].
  apply List.Forall_app in Hmin as [Hmpre Hmpost].
  inversion Hmpost; subst. split; [|assumption].
  apply filter_nil_Forall in Hpre.
  rewrite List.Forall_forall in *. intros y Hy.
  specialize (Hmpre y Hy). specialize (Hpre y Hy).
  apply Z.eqb_neq in Hpre. lia.
Qed.

(** Two lists sorted by key that have the same elements of each key, in
    the same order, are the same list. *)
Lemma sorted_filters_eq (k : Id -> Z) (l1 : list Id) : forall l2 : list Id,
  StronglySorted (fun a b => k a <= k b) l1 ->
  StronglySorted (fun a b => k a <= k b) l2 ->
  (forall d, List.filter (fun y => k y =? d) l1 = List.filter (fun y => k y =? d) l2) ->
  l1 = l2.
Proof.
  induction l1 as [|x t1 IH]; intros l2 S1 S2 Hf.
  - destruct l2 as [|y t2]; [reflexivity|].
    specialize (Hf (k y)). cbn [List.filter] in Hf. rewrite Z.eqb_refl in Hf.
    discriminate.
  - destruct l2 as [|y t2].
    { specialize (Hf (k x)). cbn [List.filter] in Hf. rewrite Z.eqb_refl in Hf.
      discriminate. }
    inversion S1 as [|? ? S1' H1]; subst. inversion S2 as [|? ? S2' H2]; subst.
    assert (Hxy : k x = k y).
    { assert (k x <= k y).
      { pose proof (Hf (k y)) as E. cbn [List.filter] in E.
        rewrite Z.eqb_refl in E.
        destruct (Z.eqb_spec (k x) (k y)) as [->|Hne]; [lia|].
        apply filter_head_split in E as (pre & post & -> & _ & _ & _).
        rewrite List.Forall_forall in H1. apply H1. apply in_or_app. right. now left. }
      assert (k y <= k x).
      { pose proof (Hf (k x)) as E. cbn [List.filter] in E.
        rewrite Z.eqb_refl in E. symmetry in E.
        destruct (Z.eqb_spec (k y) (k x)) as [->|Hne]; [lia|].
        apply filter_head_split in E as (pre & post & -> & _ & _ & _).
        rewrite List.Forall_forall in H2. apply H2. apply in_or_app. right. now left. }
      lia. }
    assert (Exy : x = y).
    { pose proof (Hf (k x)) as E. cbn [List.filter] in E.
      rewrite <- Hxy, Z.eqb_refl in E. now injection E. }
    subst y. f_equal. apply IH; try assumption.
    intros d. specialize (Hf d). cbn [List.filter] in Hf.
    destruct (k x =? d); [now injection Hf|assumption].
Qed.

Lemma stable_sorted_unique (k : Id -> Z) (S o1 o2 : list Id) :
  stable_sorted k S o1 -> stable_sorted k S o2 -> o1 = o2.
Proof.
  intros (_ & S1 & F1) (_ & S2 & F2). apply (sorted_filters_eq k); try assumption.
  intros d. now rewrite F1, F2.
Qed.

Lemma stable_sorted_of_sorted (k : Id -> Z) (S out : list Id) :
  StronglySorted (fun a b => k a <= k b) S -> stable_sorted k S out -> out = S.
Proof.
  intros HS Hout. apply (stable_sorted_unique k S); [assumption|].
  split; [reflexivity|]. split; [assumption|reflexivity].
Qed.

(** Among valid identifiers the log-distance is at least -1, and -1
    only between equal identifiers. *)
Lemma dist_valid (fuel : nat) (a b : Id) :
  (8 <= fuel)%nat -> valid a -> valid b ->
  -1 <= dist fuel a b /\ (dist fuel a b = -1 <-> Id_eq a b = true).
Proof.
  intros Hf Ha Hb. unfold dist. rewrite (log_distance_msb fuel a b Hf Ha Hb).
  unfold msb. rewrite Id_eq_true.
  pose proof (Z.log2_nonneg (Z.lxor (be_value (bin_id a)) (be_value (bin_id b)))).
  destruct (Z.eqb_spec (Z.lxor (be_value (bin_id a)) (be_value (bin_id b))) 0)
    as [E|N].
  - split; [lia|]. split; [|reflexivity]. intros _. apply Z.lxor_eq in E.
    apply be_value_inj; [now apply valid_same_length|exact E].
  - split; [lia|]. split; [lia|]. intros E. rewrite E, Z.lxor_nilpotent in N.
    contradiction.
Qed.

(** X18: the first identifier of the list [order_closest] returns is the
    leftmost identifier of the input with the lowest log-distance: every
    identifier before it in the input is strictly farther, every one
    after it at least as far.  The result has the length of the input
    (an empty input gives an empty list).  When the reference and the
    input are valid and the input holds an identifier equal to the
    reference, the first result is equal to the reference. *)
Theorem order_closest_first (fuel : nat) (r : Id) (id_list : loc) (h : heap)
    (S : list Id) :
  (8 <= fuel)%nat -> (length S < fuel)%nat ->
  h !! id_list = Some (map VId S) ->
  exists res out h',
    order_closest fuel r id_list h = (Ok res, h') /\
    h' !! res = Some (map VId out) /\
    length out = length S /\
    match out with
    | [] => S = []
    | x :: _ =>
        exists pre post dx,
          S = pre ++ x :: post /\ log_distance fuel r x = Ok dx /\
          Forall (fun y => exists dy, log_distance fuel r y = Ok dy /\ dx < dy) pre /\
          Forall (fun y => exists dy, log_distance fuel r y = Ok dy /\ dx <= dy) post
    end /\
    (valid r -> Forall valid S -> Exists (fun y => Id_eq r y = true) S ->
     exists x rest, out = x :: rest /\ Id_eq r x = true).
Proof.
  intros Hf HS Hl.
  destruct (order_closest_run fuel r id_list h S Hf HS Hl)
    as (res & out & h' & Hrun & _ & Hres & _ & Hss).
  exists res, out, h'. split; [exact Hrun|]. split; [exact Hres|].
  pose proof Hss as (Hperm & Hsort & _).
  split; [symmetry; now apply Permutation_length|].
  assert (Hhead : forall x rest, out = x :: rest ->
            exists pre post,
              S = pre ++ x :: post /\
              Forall (fun y => dist fuel r x < dist fuel r y) pre /\
              Forall (fun y => dist fuel r x <= dist fuel r y) post).
  { intros x rest ->. now apply (stable_sorted_head _ _ _ _ Hss). }
  split.
  - destruct out as [|x rest].
    + now apply Permutation_nil, Permutation_sym.
    + destruct (Hhead x rest eq_refl) as (pre & post & E & Hpre & Hpost).
      exists pre, post, (dist fuel r x). split; [exact E|].
      split; [apply log_distance_dist; assumption|].
      split; (eapply List.Forall_impl; [|eassumption]); intros y Hy;
        exists (dist fuel r y); (split; [apply log_distance_dist; assumption|exact Hy]).
  - intros Hr HvS Hex. destruct out as [|x rest].
    + apply Permutation_sym, Permutation_nil in Hperm. subst S. inversion Hex.
    + exists x, rest. split; [reflexivity|].
      destruct (Hhead x rest eq_refl) as (pre & post & E & Hpre & Hpost).
      assert (Hx : valid x).
      { rewrite List.Forall_forall in HvS. apply HvS. rewrite E.
        apply in_or_app. right. now left. }
      apply (dist_valid fuel r x Hf Hr Hx).
      pose proof (proj1 (dist_valid fuel r x Hf Hr Hx)) as Hge.
      apply List.Exists_exists in Hex as (y & Hy & Ey).
      assert (Hvy : valid y) by (rewrite List.Forall_forall in HvS; now apply HvS).
      apply (dist_valid fuel r y Hf Hr Hvy) in Ey.
      rewrite E in Hy. apply in_app_or in Hy as [Hy|[->|Hy]].
      * rewrite List.Forall_forall in Hpre. specialize (Hpre y Hy). lia.
      * exact Ey.
      * rewrite List.Forall_forall in Hpost. specialize (Hpost y Hy). lia.
Qed.

(** X18 on the store of the examples. *)
Lemma order_closest_first_witness :
  (8 <= 10)%nat /\ (length ids0 < 10)%nat /\
  heap0 !! 5%positive = Some (map VId ids0) /\
  exists res out h',
    order_closest 10 (id_low 0) 5%positive heap0 = (Ok res, h') /\
    h' !! res = Some (map VId out) /\
    length out = length ids0 /\
    match out with
    | [] => ids0 = []
    | x :: _ =>
        exists pre post dx,
          ids0 = pre ++ x :: post /\ log_distance 10 (id_low 0) x = Ok dx /\
          Forall (fun y => exists dy,
                      log_distance 10 (id_low 0) y = Ok dy /\ dx < dy) pre /\
          Forall (fun y => exists dy,
                      log_distance 10 (id_low 0) y = Ok dy /\ dx <= dy) post
    end /\
    (valid (id_low 0) -> Forall valid ids0 ->
     Exists (fun y => Id_eq (id_low 0) y = true) ids0 ->
     exists x rest, out = x :: rest /\ Id_eq (id_low 0) x = true).
Proof.
  split; [lia|]. split; [simpl; lia|]. split; [reflexivity|].
  apply (order_closest_first 10 (id_low 0) 5%positive heap0 ids0);
    [lia|simpl; lia|reflexivity].
Defined.

(** X19: ordering the list [order_closest] returned, by the same
    reference, gives another new list with the same identifiers in the
    same order; the first result and the input are left as they were. *)
Theorem order_closest_twice (fuel : nat) (r : Id) (id_list : loc) (h : heap)
    (S : list Id) :
  (8 <= fuel)%nat -> (length S < fuel)%nat ->
  h !! id_list = Some (map VId S) ->
  exists res out h1 res2 h2,
    order_closest fuel r id_list h = (Ok res, h1) /\
    h1 !! res = Some (map VId out) /\
    order_closest fuel r res h1 = (Ok res2, h2) /\
    h2 !! res2 = Some (map VId out) /\
    res2 <> res /\
    h2 !! res = Some (map VId out) /\
    h2 !! id_list = Some (map VId S).
Proof.
  intros Hf HS Hl.
  destruct (order_closest_run fuel r id_list h S Hf HS Hl)
    as (res & out & h1 & Hrun & _ & Hres & Hframe & Hss).
  pose proof Hss as (Hperm & Hsort & _).
  assert (Hlen : (length out < fuel)%nat)
    by (rewrite <- (Permutation_length Hperm); exact HS).
  destruct (order_closest_run fuel r res h1 out Hf Hlen Hres)
    as (res2 & out2 & h2 & Hrun2 & Hnew2 & Hres2 & Hframe2 & Hss2).
  exists res, out, h1, res2, h2.
  rewrite (stable_sorted_of_sorted _ _ _ Hsort Hss2) in Hres2.
  repeat split; try assumption.
  - intros ->. rewrite Hres in Hnew2. discriminate.
  - now apply Hframe2.
  - now apply Hframe2, Hframe.
Qed.

(** X19 on the store of the examples. *)
Lemma order_closest_twice_witness :
  (8 <= 10)%nat /\ (length ids0 < 10)%nat /\
  heap0 !! 5%positive = Some (map VId ids0) /\
  exists res out h1 res2 h2,
    order_closest 10 (id_low 0) 5%positive heap0 = (Ok res, h1) /\
    h1 !! res = Some (map VId out) /\
    order_closest 10 (id_low 0) res h1 = (Ok res2, h2) /\
    h2 !! res2 = Some (map VId out) /\
    res2 <> res /\
    h2 !! res = Some (map VId out) /\
    h2 !! 5%positive = Some (map VId ids0).
Proof.
  split; [lia|]. split; [simpl; lia|]. split; [reflexivity|].
  apply (order_closest_twice 10 (id_low 0) 5%positive heap0 ids0);
    [lia|simpl; lia|reflexivity].
Defined.

(** ** [RandomId] *)

(** X20: [RandomId] never raises: it draws 20 times and returns a valid
    identifier whose bytes are the 20 draws, in order, with no cached
    form. *)
Theorem RandomId_valid (g : rng) :
  exists a,
    RandomId g = (Ok a, advance 20 g) /\ valid a /\
    _hex a = None /\ _int a = None /\
    forall i, (i < 20)%nat ->
      nth_error (bin_id a) i = Some (byte_chr (draws g (pos g + i) mod 256)).
Proof.
  destruct (random_str_run 20 g) as (s & Hrun & Hlen & Hnth).
  exists (mkId s None None). unfold RandomId.
  change (Z.to_nat ID_SIZE_BYTES) with 20%nat.
  rewrite (bind_ok _ _ _ _ _ Hrun). unfold lift.
  assert (Hl : len s = ID_SIZE_BYTES) by (unfold len; rewrite Hlen; reflexivity).
  rewrite (Id_init_bytes s Hl).
  split; [reflexivity|]. split; [now apply valid_bytes|]. auto.
Qed.

(** ** Identifiers generated at a log-distance, among themselves *)

(** For a valid [self] and a target in 0..159, [generate_close_id]
    returns a valid identifier at that log-distance of [self]. *)
Lemma generate_close_id_at_distance (fuel : nat) (self : Id) (d : Z) (g : rng) :
  (8 <= fuel)%nat -> valid self -> 0 <= d < 160 ->
  exists r g',
    generate_close_id self d g = (Ok r, g') /\ valid r /\
    log_distance fuel self r = Ok d.
Proof.
  intros Hf Hv Hd.
  destruct Hv as [Hlen Hcache]. fold (bin_id self) in Hlen.
  unfold ID_SIZE_BYTES in Hlen.
  pose proof (Z.mod_pos_bound d 8 ltac:(lia)) as Hbit.
  assert (Hbyte : 0 <= d / 8 < 20).
  { split; [apply Z.div_pos; lia|apply Z.div_lt_upper_bound; lia]. }
  pose proof (Z.div_mod d 8 ltac:(lia)) as Hdm.
  destruct (split_at (bin_id self) (20 - d / 8 - 1) ltac:(lia))
    as (p & c & t & Ebin & Hp).
  assert (Ht : len t = d / 8).
  { rewrite Ebin, len_app, len_cons in Hlen. lia. }
  pose proof (ord_range c) as Hc.
  pose proof (flip_range (ord c) (d mod 8) Hc Hbit) as Hv0.
  destruct (randomize_bits_run (Z.to_nat (d mod 8))
              (Z.lxor (ord c) (Z.shiftl 1 (d mod 8))) g Hv0 ltac:(lia))
    as (v & Hloop & Hvr & Hbits).
  rewrite Z2Nat.id in Hloop, Hbits by lia.
  destruct (random_str_run (Z.to_nat (d / 8)) (advance (Z.to_nat (d mod 8)) g))
    as (s & Hstr & Hslen & _).
  assert (Hs : len s = d / 8) by (unfold len; lia).
  assert (Hlog : Z.log2 (Z.lxor (ord c) v) = d mod 8).
  { apply log2_lxor_flipped; try assumption.
    - intros j Hj. rewrite Hbits by lia. destruct (Z.ltb_spec j (d mod 8)); [lia|].
      rewrite testbit_flip by lia. destruct (Z.eqb_spec j (d mod 8)); [lia|reflexivity].
    - rewrite Hbits by lia. destruct (Z.ltb_spec (d mod 8) (d mod 8)); [lia|].
      rewrite testbit_flip by lia. now rewrite Z.eqb_refl. }
  assert (Hne : c <> byte_chr v).
  { intros E. rewrite E, ord_byte_chr, Z.lxor_nilpotent in Hlog by assumption.
    assert (Hx : Z.testbit (Z.lxor (ord c) (Z.shiftl 1 (d mod 8))) (d mod 8)
                 = Z.testbit v (d mod 8)).
    { rewrite Hbits by lia. now destruct (Z.ltb_spec (d mod 8) (d mod 8)); [lia|]. }
    rewrite testbit_flip, Z.eqb_refl, E, ord_byte_chr in Hx by lia.
    now destruct (Z.testbit v (d mod 8)). }
  assert (Hrlen : len (p ++ byte_chr v :: s) = 20).
  { rewrite len_app, len_cons. lia. }
  exists (mkId (p ++ byte_chr v :: s) None None). eexists.
  split; [|split].
  - unfold generate_close_id, ID_SIZE_BITS, ID_SIZE_BYTES, BITS_PER_BYTE.
    destruct (Z.ltb_spec d (20 * 8)); [|lia]. cbn [negb].
    destruct (Z.ltb_spec d 0); [lia|].
    replace (len (bin_id self) - d / 8 - 1) with (len p) by lia.
    rewrite Ebin. unfold lift at 1.
    rewrite (bind_ok _ _ _ _ _ (f_equal (fun x => (x, g)) (getitem_middle p c t))).
    rewrite (bind_ok _ _ _ _ _ Hloop).
    unfold lift at 1. unfold bind at 1. rewrite chr_byte by assumption.
    replace (Z.to_nat (20 - (len p + 1))) with (Z.to_nat (d / 8)) by lia.
    rewrite (bind_ok _ _ _ _ _ Hstr).
    rewrite slice_to_prefix. unfold lift. cbn [app].
    rewrite Id_init_bytes by exact Hrlen. reflexivity.
  - now apply valid_bytes.
  - rewrite (log_distance_differ fuel self _ p c (byte_chr v) t s);
      try assumption; try reflexivity.
    + f_equal. rewrite ord_byte_chr, Hlog by assumption. lia.
    + unfold len in *. lia.
Qed.

(** Two numbers with the same most significant bit have a XOR with a
    lower one. *)
Lemma msb_lxor_same (u v d : Z) :
  0 <= u -> 0 <= v -> 0 <= d -> msb u = d -> msb v = d -> msb (Z.lxor u v) < d.
Proof.
  unfold msb. intros Hu Hv Hd Eu Ev.
  destruct (Z.eqb_spec u 0); [lia|]. destruct (Z.eqb_spec v 0); [lia|].
  destruct (Z.eqb_spec (Z.lxor u v) 0) as [|Nx]; [lia|].
  pose proof (Z.log2_lxor u v Hu Hv) as Hle. rewrite Eu, Ev, Z.max_id in Hle.
  assert (Hx : 0 < Z.lxor u v) by (pose proof (Z.lxor_nonneg u v); lia).
  pose proof (Z.bit_log2 (Z.lxor u v) Hx) as Hb.
  destruct (Z.eq_dec (Z.log2 (Z.lxor u v)) d) as [E|]; [|lia].
  rewrite E, Z.lxor_spec in Hb.
  rewrite <- Eu in Hb at 1. rewrite <- Ev in Hb.
  rewrite !Z.bit_log2 in Hb by lia. discriminate.
Qed.

(** X21: two identifiers generated from a valid [self], at the targets
    [d1] and [d2] in 0..159 and from any random sources, are at these
    log-distances of [self] and differ from it.  From each other they
    are at the larger of the two targets when the targets differ, and
    strictly closer than the target when the targets are the same. *)
Theorem generated_peers_distance (fuel : nat) (self : Id) (d1 d2 : Z)
    (g1 g2 : rng) :
  (8 <= fuel)%nat -> valid self -> 0 <= d1 < 160 -> 0 <= d2 < 160 ->
  exists r1 r2 g1' g2' d,
    generate_close_id self d1 g1 = (Ok r1, g1') /\
    generate_close_id self d2 g2 = (Ok r2, g2') /\
    log_distance fuel r1 self = Ok d1 /\ log_distance fuel r2 self = Ok d2 /\
    Id_eq r1 self = false /\ Id_eq r2 self = false /\
    log_distance fuel r1 r2 = Ok d /\
    (d1 <> d2 -> d = Z.max d1 d2) /\
    (d1 = d2 -> d < d1).
Proof.
  intros Hf Hv H1 H2.
  destruct (generate_close_id_at_distance fuel self d1 g1 Hf Hv H1)
    as (r1 & g1' & Hr1 & Hv1 & L1).
  destruct (generate_close_id_at_distance fuel self d2 g2 Hf Hv H2)
    as (r2 & g2' & Hr2 & Hv2 & L2).
  pose proof (valid_be_value_range self Hv) as Rs.
  pose proof (valid_be_value_range r1 Hv1) as R1.
  pose proof (valid_be_value_range r2 Hv2) as R2.
  rewrite (log_distance_msb fuel self r1 Hf Hv Hv1) in L1. injection L1 as L1.
  rewrite (log_distance_msb fuel self r2 Hf Hv Hv2) in L2. injection L2 as L2.
  set (x := be_value (bin_id self)) in *.
  set (y1 := be_value (bin_id r1)) in *. set (y2 := be_value (bin_id r2)) in *.
  exists r1, r2, g1', g2', (msb (Z.lxor y1 y2)).
  split; [exact Hr1|]. split; [exact Hr2|].
  rewrite (log_distance_msb fuel r1 self Hf Hv1 Hv).
  rewrite (log_distance_msb fuel r2 self Hf Hv2 Hv).
  fold x y1 y2. rewrite (Z.lxor_comm y1 x), (Z.lxor_comm y2 x), L1, L2.
  split; [reflexivity|]. split; [reflexivity|].
  assert (Hneq : forall r d, valid r -> msb (Z.lxor x (be_value (bin_id r))) = d ->
                             0 <= d -> Id_eq r self = false).
  { intros r d Hr E Hd0. destruct (Id_eq r self) eqn:Eq; [|reflexivity].
    apply Id_eq_true in Eq. rewrite Eq in E. fold x in E.
    rewrite Z.lxor_nilpotent in E. unfold msb in E. simpl in E. lia. }
  split; [apply (Hneq r1 d1); [assumption|exact L1|lia]|].
  split; [apply (Hneq r2 d2); [assumption|exact L2|lia]|].
  split; [now apply log_distance_msb|].
  destruct (msb_triangle y1 x y2 ltac:(lia) ltac:(lia) ltac:(lia)) as [_ Hiso].
  rewrite (Z.lxor_comm y1 x), L1, L2 in Hiso.
  split; [exact Hiso|].
  intros E. subst d2.
  assert (Ex : Z.lxor y1 y2 = Z.lxor (Z.lxor x y1) (Z.lxor x y2)).
  { rewrite (Z.lxor_comm x y1), Z.lxor_assoc, <- (Z.lxor_assoc x x y2),
      Z.lxor_nilpotent, Z.lxor_0_l. reflexivity. }
  rewrite Ex. apply msb_lxor_same; try assumption; try lia;
    apply Z.lxor_nonneg; lia.
Qed.

(** X21 at the all-zero identifier and the targets 9 and 100. *)
Lemma generated_peers_distance_witness :
  (8 <= 8)%nat /\ valid (id_low 0) /\ 0 <= 9 < 160 /\ 0 <= 100 < 160 /\
  exists r1 r2 g1' g2' d,
    generate_close_id (id_low 0) 9 rng0 = (Ok r1, g1') /\
    generate_close_id (id_low 0) 100 g1' = (Ok r2, g2') /\
    log_distance 8 r1 (id_low 0) = Ok 9 /\ log_distance 8 r2 (id_low 0) = Ok 100 /\
    Id_eq r1 (id_low 0) = false /\ Id_eq r2 (id_low 0) = false /\
    log_distance 8 r1 r2 = Ok d /\
    (9 <> 100 -> d = Z.max 9 100) /\
    (9 = 100 -> d < 9).
Proof.
  split; [lia|]. split; [apply valid_bytes; reflexivity|].
  split; [lia|]. split; [lia|].
  destruct (generated_peers_distance 8 (id_low 0) 9 100 rng0
              (snd (generate_close_id (id_low 0) 9 rng0))
              ltac:(lia) ltac:(apply valid_bytes; reflexivity) ltac:(lia) ltac:(lia))
    as (r1 & r2 & g1' & g2' & d & H1 & H2 & H).
  exists r1, r2, g1', g2', d. split; [exact H1|].
  split; [|exact H]. rewrite H1 in H2. exact H2.
Defined.
